(** * Gallery maintenance scripts: thumbnails and HTML rewriting

    A shallow embedding of [create_thumbnails.py] and
    [update_gallery_html.py], followed by the properties of the two scripts
    that the specification states.

    Python [str] values are sequences of Unicode code points, files are kept
    in a finite map from paths to nodes, printing appends to a list of output
    lines, and exceptions are values threaded through an error monad. *)

From Stdlib Require Import ZArith NArith QArith Qround Qabs Lia Lqa Ascii String.
From stdpp Require Import prelude strings pretty gmap.

Local Close Scope Q_scope.
Local Open Scope nat_scope.

(** ** Python strings *)

Module Py.

(** A character is a Unicode code point, a [str] is a list of them. *)
Abbreviation char := N.
Abbreviation text := (list N).

(** ASCII literal as a [str]. *)
Definition txt (s : string) : text :=
  (λ a, N_of_ascii a) <$> list_ascii_of_string s.

Definition dq : char := 34%N.   (* the double quote *)
Definition sq : char := 39%N.   (* the single quote *)
Definition gt : char := 62%N.   (* > *)
Definition lt : char := 60%N.   (* < *)
Definition slash : char := 47%N.
Definition dot : char := 46%N.

(** HTML literal: as [txt], with every single quote of the literal standing
    for a double quote of the document. *)
Definition html (s : string) : text :=
  (λ c, if N.eqb c sq then dq else c) <$> txt s.

(** [s.startswith(p)] *)
Fixpoint startswith (p s : text) : bool :=
  match p, s with
  | [], _ => true
  | a :: p', b :: s' => N.eqb a b && startswith p' s'
  | _ :: _, [] => false
  end.

(** [needle in hay] *)
Fixpoint contains (needle hay : text) : bool :=
  startswith needle hay ||
  match hay with
  | [] => false
  | _ :: hay' => contains needle hay'
  end.

(** The split of [s] at the last occurrence of [c], if [c] occurs. *)
Fixpoint rfind_split (c : char) (s : text) : option (text * text) :=
  match s with
  | [] => None
  | x :: s' =>
      match rfind_split c s' with
      | Some (a, b) => Some (x :: a, b)
      | None => if N.eqb x c then Some ([], s') else None
      end
  end.

(** [s.rsplit(c, 1)] for a one-character separator. *)
Definition rsplit1 (c : char) (s : text) : list text :=
  match rfind_split c s with
  | Some (a, b) => [a; b]
  | None => [s]
  end.

(** [str.isspace] on one code point, which is what [\s] tests in a [str]
    pattern. *)
Definition isspace (c : char) : bool :=
  ((9 <=? c) && (c <=? 13) || (28 <=? c) && (c <=? 32)
   || (c =? 133) || (c =? 160) || (c =? 5760)
   || (8192 <=? c) && (c <=? 8202)
   || (c =? 8232) || (c =? 8233) || (c =? 8239) || (c =? 8287)
   || (c =? 12288))%N.

End Py.

(** ** The fragment of [re] the rewriter uses

    A backtracking matcher in continuation-passing style.  Repetition is
    over one-character classes only, which is all the pattern of the
    rewriter has, so the matcher is structurally recursive. *)

Module Re.
Import Py.

Inductive regex : Type :=
| Eps
| Lit (c : char)                 (* one literal character *)
| Cls (p : char → bool)          (* a character class: [\s], [[^...]] *)
| Seq (r1 r2 : regex)
| Or (r1 r2 : regex)             (* r1|r2, left alternative first *)
| Plus (p : char → bool)         (* greedy  c+  over a class *)
| StarLazy (p : char → bool)     (* lazy    c*? over a class *)
| Group (n : nat) (r : regex).   (* capturing group number n *)

Definition result : Type := gmap nat text * text.

(** Greedy [+]: take as many characters as the class allows, then give them
    back one at a time until the continuation succeeds; at least one
    character is kept. *)
Fixpoint plus_greedy (p : char → bool) (s : text)
    (k : text → option result) : option result :=
  match s with
  | [] => None
  | c :: s' =>
      if p c then
        match plus_greedy p s' k with
        | Some r => Some r
        | None => k s'
        end
      else None
  end.

(** Lazy [*?]: try the continuation first, take one more character only when
    it fails. *)
Fixpoint star_lazy (p : char → bool) (s : text)
    (k : text → option result) : option result :=
  match k s with
  | Some r => Some r
  | None =>
      match s with
      | [] => None
      | c :: s' => if p c then star_lazy p s' k else None
      end
  end.

(** [exec r s g k]: match [r] at the start of [s] with the groups [g] so
    far, then continue with [k] on what is left; [None] when every way of
    matching fails. *)
Fixpoint exec (r : regex) (s : text) (g : gmap nat text)
    (k : text → gmap nat text → option result) : option result :=
  match r with
  | Eps => k s g
  | Lit c =>
      match s with
      | x :: s' => if N.eqb x c then k s' g else None
      | [] => None
      end
  | Cls p =>
      match s with
      | x :: s' => if p x then k s' g else None
      | [] => None
      end
  | Seq r1 r2 => exec r1 s g (λ s1 g1, exec r2 s1 g1 k)
  | Or r1 r2 =>
      match exec r1 s g k with
      | Some x => Some x
      | None => exec r2 s g k
      end
  | Plus p => plus_greedy p s (λ s1, k s1 g)
  | StarLazy p => star_lazy p s (λ s1, k s1 g)
  | Group n r1 =>
      exec r1 s g (λ s1 g1, k s1 (<[n := take (length s - length s1) s]> g1))
  end.

(** A match object: the text of the whole match and the captured groups. *)
Record Match := { m_whole : text; m_groups : gmap nat text }.

(** [match.group(n)] *)
Definition group (m : Match) (n : nat) : text :=
  match n with
  | 0 => m_whole m
  | _ => default [] (m_groups m !! n)
  end.

(** [pattern.match(s)]: a match anchored at the start of [s], with the rest
    of the input after it. *)
Definition re_match (r : regex) (s : text) : option (Match * text) :=
  match exec r s ∅ (λ s1 g1, Some (g1, s1)) with
  | Some (g, rest) =>
      Some ({| m_whole := take (length s - length rest) s; m_groups := g |},
            rest)
  | None => None
  end.

(** The regex of a literal string. *)
Fixpoint lits (s : text) : regex :=
  match s with
  | [] => Eps
  | [c] => Lit c
  | c :: s' => Seq (Lit c) (lits s')
  end.

End Re.

(** ** Exceptions, state and output

    A script runs in a world (its file system and what it has printed so
    far).  A computation either returns a value or raises; the world it has
    reached is kept in both cases, as the effects made before a [raise]
    stay made. *)

Module Eff.
Import Py.

(** A relative path, as the list of its components. *)
Abbreviation path := (list text).

Inductive exn :=
| FileNotFoundError (p : path)
| IsADirectoryError (p : path)
| NotADirectoryError (p : path)
| FileExistsError (p : path)
| PermissionError (p : path)
| UnicodeDecodeError (p : path)
| ImageError (p : path).       (* what Pillow raises on a file it cannot decode *)

Definition M (W A : Type) : Type := W → W * (exn + A).

Global Instance M_ret {W} : MRet (M W) := λ A a w, (w, inr a).
Global Instance M_bind {W} : MBind (M W) :=
  λ A B f m w, match m w with
               | (w1, inr a) => f a w1
               | (w1, inl e) => (w1, inl e)
               end.

Definition raise {W A} (e : exn) : M W A := λ w, (w, inl e).

(** [try: m  except Exception as e: h e] *)
Definition try_except {W A} (m : M W A) (h : exn → M W A) : M W A :=
  λ w, match m w with
       | (w1, inr a) => (w1, inr a)
       | (w1, inl e) => h e w1
       end.

End Eff.

(** ** update_gallery_html.py *)

Module Gallery.
Import Py Re Eff.

Local Infix "·" := Seq (at level 60, right associativity).

(** The pattern of the rewriter, with ' written here for the double quote:
    [<img\s+src='(images/[^']+\.(jpg|JPG|jpeg|JPEG|png|PNG))'([^>]*?)>] *)
Definition ext_re : regex :=
  Or (lits (txt "jpg")) (Or (lits (txt "JPG"))
  (Or (lits (txt "jpeg")) (Or (lits (txt "JPEG"))
  (Or (lits (txt "png")) (lits (txt "PNG")))))).

Definition path_re : regex :=
  lits (txt "images/") · Plus (λ c, negb (N.eqb c dq)) · Lit dot ·
  Group 2 ext_re.

Definition rest_re : regex := StarLazy (λ c, negb (N.eqb c gt)).

Definition pattern : regex :=
  lits (txt "<img") · Plus isspace · lits (txt "src=") · Lit dq ·
  Group 1 path_re · Lit dq · Group 3 rest_re · Lit gt.

(** The callback of [re.sub]. *)
Definition replace_img (m : Match) : text :=
  let full_path := group m 1 in
  let rest_of_tag := group m 3 in
  if contains (txt "/thumbnails/") full_path then group m 0
  else
    match rsplit1 slash full_path with
    | [dir_path; filename] =>
        let thumb_filename := hd [] (rsplit1 dot filename) ++ txt ".jpg" in
        let thumb_path := dir_path ++ txt "/thumbnails/" ++ thumb_filename in
        if negb (contains (txt "data-fullres=") rest_of_tag) then
          let rest_of_tag :=
            if negb (contains (txt "loading=") rest_of_tag)
            then rest_of_tag ++ html " loading='lazy'"
            else rest_of_tag in
          html "<img src='" ++ thumb_path ++ html "' data-fullres='" ++
          full_path ++ [dq] ++ rest_of_tag ++ [gt]
        else group m 0
    | _ => group m 0
    end.

(** One step of the scan of [re.sub]: a character copied through, or a
    match handed to the callback. *)
Inductive piece := Keep (c : char) | Hit (m : Match).

(** The left-to-right scan of [re.sub(pattern, replace_img, content)]: at
    each position either the pattern matches, and the scan resumes after the
    match, or the character is copied and the scan moves one position on.
    The pattern matches no empty string, so every step consumes input and
    [length s] steps are enough. *)
Fixpoint scan_fuel (n : nat) (s : text) : list piece :=
  match n with
  | 0 => []
  | S n' =>
      match s with
      | [] => []
      | c :: s' =>
          match re_match pattern s with
          | Some (m, rest) => Hit m :: scan_fuel n' rest
          | None => Keep c :: scan_fuel n' s'
          end
      end
  end.

Definition scan (s : text) : list piece := scan_fuel (length s) s.

Definition emit (p : piece) : text :=
  match p with
  | Keep c => [c]
  | Hit m => replace_img m
  end.

(** [re.sub(pattern, replace_img, content)] *)
Definition re_sub (content : text) : text := scan content ≫= emit.

(** [re.finditer(pattern, content)]: the matches the scan hands to the
    callback. *)
Definition finditer (content : text) : list Match :=
  omap (λ p, match p with Hit m => Some m | Keep _ => None end) (scan content).


(** *** The files of the site

    A node is a directory or a regular file.  The text of a file is what
    [f.read()] returns for it in text mode, [None] when its bytes are not
    valid UTF-8; [mtime] is the tick of the last write. *)
Inductive node :=
| Directory
| Regular (data : option text) (mtime : nat) (writable : bool).

Record world := World {
  files : gmap path node;
  clock : nat;
  stdout : list text;
}.

(** The lines the script prints.  The symbols that open some of them are
    given by their code points. *)
Definition line_banner : text :=
  128295%N :: txt " Updating gallery HTML files to use thumbnails...".
Definition line_rule : text := replicate 60 61%N.
Definition line_updated (filename : text) : text :=
  10003%N :: txt " Updated " ++ filename.
Definition line_no_change (filename : text) : text :=
  txt "- " ++ filename ++ txt " (no changes needed)".
Definition line_not_found (filename : text) : text :=
  9888%N :: txt " " ++ filename ++ txt " not found".
Definition line_summary (updated : nat) : text :=
  9989%N :: txt " Updated " ++ txt (pretty updated) ++ txt " files".
Definition line_faster : text :=
  10%N :: txt "Your galleries will now load much faster!".
Definition line_lightbox : text :=
  txt "Thumbnails display in gallery, high-res loads in lightbox.".

Definition print (l : text) : M world () :=
  λ w, (World (files w) (clock w) (stdout w ++ [l]), inr ()).

(** [filepath.exists()] *)
Definition exists_ (p : path) : M world bool :=
  λ w, (w, inr (bool_decide (is_Some (files w !! p)))).

(** [with open(p, 'r', encoding='utf-8') as f: content = f.read()] *)
Definition read_text (p : path) : M world text :=
  λ w, match files w !! p with
       | None => (w, inl (FileNotFoundError p))
       | Some Directory => (w, inl (IsADirectoryError p))
       | Some (Regular None _ _) => (w, inl (UnicodeDecodeError p))
       | Some (Regular (Some t) _ _) => (w, inr t)
       end.

(** [with open(p, 'w', encoding='utf-8') as f: f.write(t)] *)
Definition write_text (p : path) (t : text) : M world () :=
  λ w, match files w !! p with
       | Some Directory => (w, inl (IsADirectoryError p))
       | Some (Regular _ _ false) => (w, inl (PermissionError p))
       | Some (Regular _ _ true) | None =>
           (World (<[p := Regular (Some t) (clock w) true]> (files w))
                  (S (clock w)) (stdout w), inr ())
       end.

Definition update_gallery_html (file_path : path) : M world bool :=
  content ← read_text file_path;
  let original_content := content in
  let content := re_sub content in
  if bool_decide (content ≠ original_content) then
    write_text file_path content;;
    mret true
  else mret false.

Definition gallery_files : list text :=
  [ txt "index.html"; txt "lifeIsADream.html"; txt "headshots.html";
    txt "adlad.html"; txt "stupidBird.html"; txt "multiself.html";
    txt "not-sightly.html" ].

(** The [for filename in gallery_files] loop of [main], with the counter
    [updated] it carries. *)
Fixpoint main_loop (fs : list text) (updated : nat) : M world nat :=
  match fs with
  | [] => mret updated
  | filename :: fs' =>
      let filepath : path := [filename] in
      ex ← exists_ filepath;
      if ex : bool then
        changed ← update_gallery_html filepath;
        if changed : bool then
          print (line_updated filename);;
          main_loop fs' (S updated)
        else
          print (line_no_change filename);;
          main_loop fs' updated
      else
        print (line_not_found filename);;
        main_loop fs' updated
  end.

Definition main : M world () :=
  print line_banner;;
  print line_rule;;
  updated ← main_loop gallery_files 0;
  print line_rule;;
  print (line_summary updated);;
  print line_faster;;
  print line_lightbox.

End Gallery.

(** ** create_thumbnails.py *)

Module Thumbs.
Import Py Eff.

Local Open Scope Z_scope.

(** *** Images, as Pillow presents them

    The modes of the model are the 8-bit modes a gallery image comes in;
    a pixel is the list of its band values, in band order. *)
Inductive mode := L | LA | P | RGB | RGBA.

Global Instance mode_eq_dec : EqDecision mode.
Proof. solve_decision. Defined.

Record image := Image {
  im_mode : mode;
  im_size : Z * Z;                    (* (width, height) *)
  im_data : list (list Z);            (* row by row *)
  im_palette : list (Z * Z * Z);      (* mode P: the colour of each index *)
}.

Definition bands (m : mode) : nat :=
  match m with L | P => 1 | LA => 2 | RGB => 3 | RGBA => 4 end%nat.

(** [Image.new(mode, size, color)] *)
Definition image_new (m : mode) (size : Z * Z) (color : list Z) : image :=
  Image m size (replicate (Z.to_nat (size.1 * size.2)) color) [].

(** [img.split()]: one single-band image per band. *)
Definition split (img : image) : list image :=
  (λ i, Image L (im_size img) ((λ px, [nth i px 0]) <$> im_data img) [])
    <$> seq 0 (bands (im_mode img)).

(** Pillow blends one band value through an 8-bit mask value: the rounded
    [(bg * (255 - a) + fg * a) / 255]. *)
Definition blend8 (a bg fg : Z) : Z :=
  let t := bg * (255 - a) + fg * a + 128 in
  Z.shiftr (Z.shiftr t 8 + t) 8.

(** [background.paste(img, mask=mask)] for images of one size: every band
    of the background is blended with the same band of [img] through the
    mask. *)
Definition paste (background img mask : image) : image :=
  Image (im_mode background) (im_size background)
        (zip_with (λ bg sm, zip_with (blend8 (hd 0 sm.2)) bg sm.1)
                  (im_data background) (zip (im_data img) (im_data mask)))
        (im_palette background).

(** [img.convert('RGB')]: grey levels are repeated, palette indices are
    looked up, and an alpha band is dropped. *)
Definition convert_rgb (img : image) : image :=
  let px3 (px : list Z) : list Z :=
    match im_mode img with
    | L | LA => let l := hd 0 px in [l; l; l]
    | P => let '(r, g, b) := nth (Z.to_nat (hd 0 px)) (im_palette img) (0, 0, 0)
           in [r; g; b]
    | RGB | RGBA => take 3 px
    end in
  Image RGB (im_size img) (px3 <$> im_data img) [].

(** Lines 34-40 of [create_thumbnail]: the image is brought to mode RGB. *)
Definition to_rgb (img : image) : image :=
  if decide (im_mode img = RGBA) then
    let background := image_new RGB (im_size img) [255; 255; 255] in
    match split img !! 3%nat with
    | Some alpha => paste background img alpha
    | None => img        (* not reached: an RGBA image has four bands *)
    end
  else if decide (im_mode img ≠ RGB) then convert_rgb img
  else img.

(** *** The size [Image.thumbnail] chooses

    Pillow computes the aspect ratio and the scaled side in floating point;
    the model computes them in exact rationals. *)
Definition round_aspect (number : Q) (key : Z → Q) : Z :=
  let lo := Qfloor number in
  let hi := Qceiling number in
  Z.max (if Qle_bool (key lo) (key hi) then lo else hi) 1.

Definition preserve_aspect_ratio (provided_size size : Z * Z) : option (Z * Z) :=
  let '(x, y) := provided_size in
  let '(width, height) := size in
  if (width <=? x) && (height <=? y) then None
  else
    let aspect := (inject_Z width / inject_Z height)%Q in
    if Qle_bool aspect (inject_Z x / inject_Z y)%Q then
      Some (round_aspect (inject_Z y * aspect)%Q
              (λ n, Qabs (aspect - inject_Z n / inject_Z y)%Q), y)
    else
      Some (x, round_aspect (inject_Z x / aspect)%Q
              (λ n, if n =? 0 then 0%Q
                    else Qabs (aspect - inject_Z x / inject_Z n)%Q)).

(** What the model takes from Pillow without describing it: the pixels a
    Lanczos resize produces, and the number of bytes of a JPEG encoding. *)
Class Pillow := {
  lanczos : image → Z * Z → list (list Z);
  jpeg_size : image → Z → bool → positive;
}.

Section with_pillow.
Context `{Pillow}.

(** [img.resize(size, Image.Resampling.LANCZOS)] *)
Definition resize (img : image) (size : Z * Z) : image :=
  Image (im_mode img) size (lanczos img size) (im_palette img).

(** [img.thumbnail(size, Image.Resampling.LANCZOS)] *)
Definition thumbnail (img : image) (size : Z * Z) : image :=
  match preserve_aspect_ratio size (im_size img) with
  | None => img
  | Some final_size =>
      if decide (im_size img ≠ final_size) then resize img final_size else img
  end.

(** *** The file system *)

Inductive format := JPEG | PNG.

Inductive data :=
| Picture (fmt : format) (img : image)   (* a file that encodes [img] *)
| Corrupt.                               (* a file Pillow cannot decode *)

Inductive node :=
| Dir (entries : list text)              (* in the order [iterdir] yields *)
| File (d : data) (size : positive).     (* with its size in bytes *)

(** The lines the script prints, one constructor per [print] call. *)
Inductive line :=
| LBanner                                (* line 94 *)
| LRule                                  (* line 95 *)
| LCreated (name : text)                 (* line 53 *)
| LSizes (original new : positive)       (* line 54, from these byte counts *)
| LError (source : path) (e : exn)       (* line 58 *)
| LDirNotFound (d : path)                (* line 66 *)
| LProcessing (d : path)                 (* line 73 *)
| LDashes                                (* line 74 *)
| LProcessed (n : nat) (name : text)     (* line 90 *)
| LEndRule                               (* line 104 *)
| LComplete (total : nat)                (* line 105 *)
| LNextSteps (i : nat)                   (* lines 106-109 *)
| LFatal (e : exn).                      (* line 117 *)

Record world := World {
  fs : gmap path node;
  stdout : list line;
}.

Definition print (l : line) : M world () :=
  λ w, (World (fs w) (stdout w ++ [l]), inr ()).

(** [p.name], [p.parent] *)
Definition name (p : path) : text := List.last p [].
Definition parent (p : path) : path := removelast p.

(** [p.suffix] and [p.stem] of pathlib, on the name of [p]: the name is cut
    at its last dot unless that dot is its first or its last character. *)
Definition suffix (nm : text) : text :=
  match rfind_split dot nm with
  | Some (a, b) => if bool_decide (a ≠ [] ∧ b ≠ []) then dot :: b else []
  | None => []
  end.

Definition stem (nm : text) : text :=
  match rfind_split dot nm with
  | Some (a, b) => if bool_decide (a ≠ [] ∧ b ≠ []) then a else nm
  | None => nm
  end.

(** [p.exists()], [p.is_file()] *)
Definition exists_ (p : path) : M world bool :=
  λ w, (w, inr (bool_decide (is_Some (fs w !! p)))).

Definition is_file (p : path) : M world bool :=
  λ w, (w, inr (match fs w !! p with Some (File _ _) => true | _ => false end)).

(** A new entry of a directory goes to the end of its listing. *)
Definition add_entry (nm : text) (entries : list text) : list text :=
  if bool_decide (nm ∈ entries) then entries else entries ++ [nm].

(** [p.mkdir(exist_ok=True)] *)
Definition mkdir_exist_ok (p : path) : M world () :=
  λ w, match fs w !! p with
       | Some (Dir _) => (w, inr ())
       | Some (File _ _) => (w, inl (FileExistsError p))
       | None =>
           match fs w !! parent p with
           | Some (Dir es) =>
               (World (<[p := Dir []]>
                         (<[parent p := Dir (add_entry (name p) es)]> (fs w)))
                      (stdout w), inr ())
           | Some (File _ _) => (w, inl (NotADirectoryError p))
           | None => (w, inl (FileNotFoundError p))
           end
       end.

(** [p.iterdir()] *)
Definition iterdir (p : path) : M world (list text) :=
  λ w, match fs w !! p with
       | Some (Dir es) => (w, inr es)
       | Some (File _ _) => (w, inl (NotADirectoryError p))
       | None => (w, inl (FileNotFoundError p))
       end.

(** [Image.open(p)], with the decoding that follows it. *)
Definition image_open (p : path) : M world image :=
  λ w, match fs w !! p with
       | Some (File (Picture _ img) _) => (w, inr img)
       | Some (File Corrupt _) => (w, inl (ImageError p))
       | Some (Dir _) => (w, inl (IsADirectoryError p))
       | None => (w, inl (FileNotFoundError p))
       end.

(** [img.save(p, 'JPEG', quality=quality, optimize=optimize)].  The JPEG
    writer refuses an image with an alpha band or a palette. *)
Definition image_save (p : path) (quality : Z) (optimize : bool)
    (img : image) : M world () :=
  λ w, if bool_decide (im_mode img = L ∨ im_mode img = RGB) then
         match fs w !! p, fs w !! parent p with
         | Some (Dir _), _ => (w, inl (IsADirectoryError p))
         | _, Some (Dir es) =>
             (World (<[p := File (Picture JPEG img)
                                 (jpeg_size img quality optimize)]>
                       (<[parent p := Dir (add_entry (name p) es)]> (fs w)))
                    (stdout w), inr ())
         | _, Some (File _ _) => (w, inl (NotADirectoryError p))
         | _, None => (w, inl (FileNotFoundError p))
         end
       else (w, inl (ImageError p)).

(** [os.path.getsize(p)] *)
Definition getsize (p : path) : M world positive :=
  λ w, match fs w !! p with
       | Some (File _ size) => (w, inr size)
       | Some (Dir _) => (w, inr 4096%positive)
       | None => (w, inl (FileNotFoundError p))
       end.

(** *** The script *)

Definition MAX_SIZE : Z := 800.
Definition QUALITY : Z := 75.

Definition IMAGE_DIRS : list path :=
  [ [txt "images"; txt "Not Sightly"];
    [txt "images"; txt "la vida"; txt "ben rose la vida"];
    [txt "images"; txt "adlad"];
    [txt "images"; txt "Headshots"];
    [txt "images"; txt "sfb"];
    [txt "images"; txt "multiself"];
    [txt "images"; txt "videos"];
    [txt "images"; txt "la vida"] ].

Definition create_thumbnail (source_path dest_path : path)
    (max_size quality : Z) : M world bool :=
  try_except
    (img ← image_open source_path;
     let img := to_rgb img in
     let img := thumbnail img (max_size, max_size) in
     image_save dest_path quality true img;;
     original_size ← getsize source_path;
     new_size ← getsize dest_path;
     print (LCreated (name source_path));;
     print (LSizes original_size new_size);;
     mret true)
    (λ e, print (LError source_path e);; mret false).

Definition extensions : list text :=
  [txt ".jpg"; txt ".jpeg"; txt ".png"; txt ".JPG"; txt ".JPEG"; txt ".PNG"].

(** The [for img_path in dir_path.iterdir()] loop, with its counter. *)
Fixpoint process_entries (dir_path thumbnails_dir : path)
    (entries : list text) (processed : nat) : M world nat :=
  match entries with
  | [] => mret processed
  | nm :: rest =>
      let img_path := dir_path ++ [nm] in
      isf ← (if bool_decide (suffix nm ∈ extensions) then is_file img_path
             else mret false);
      if isf : bool then
        let thumb_name := stem nm ++ txt ".jpg" in
        let thumb_path := thumbnails_dir ++ [thumb_name] in
        ok ← create_thumbnail img_path thumb_path MAX_SIZE QUALITY;
        process_entries dir_path thumbnails_dir rest
          (if ok : bool then S processed else processed)
      else process_entries dir_path thumbnails_dir rest processed
  end.

Definition process_directory (dir_path : path) : M world () :=
  ex ← exists_ dir_path;
  if negb ex then print (LDirNotFound dir_path)
  else
    let thumbnails_dir := dir_path ++ [txt "thumbnails"] in
    mkdir_exist_ok thumbnails_dir;;
    print (LProcessing dir_path);;
    print LDashes;;
    entries ← iterdir dir_path;
    processed ← process_entries dir_path thumbnails_dir entries 0;
    print (LProcessed processed (name dir_path)).

(** The [for dir_path in IMAGE_DIRS] loop of [main], with its counter. *)
Fixpoint main_loop (dirs : list path) (total_dirs : nat) : M world nat :=
  match dirs with
  | [] => mret total_dirs
  | dir_path :: rest =>
      ex ← exists_ dir_path;
      if ex : bool then
        process_directory dir_path;;
        main_loop rest (S total_dirs)
      else main_loop rest total_dirs
  end.

Definition main : M world () :=
  print LBanner;;
  print LRule;;
  total_dirs ← main_loop IMAGE_DIRS 0;
  print LEndRule;;
  print (LComplete total_dirs);;
  print (LNextSteps 0);;
  print (LNextSteps 1);;
  print (LNextSteps 2);;
  print (LNextSteps 3).

(** The script: [main()] under its [except Exception] handler. *)
Definition script : M world () :=
  try_except main (λ e, print (LFatal e)).

End with_pillow.
End Thumbs.

(** ** The tags the pattern matches, read directly

    [match_at] reads a tag from left to right without backtracking.  It is
    proved below to compute what the matcher computes on [pattern], and the
    properties of the rewriter are then proved on it. *)

Module Tag.
Import Py Re Gallery.

(** The first result among those of [f] on the elements of a list. *)
Fixpoint first_some {A B} (f : A → option B) (l : list A) : option B :=
  match l with
  | [] => None
  | x :: l' => match f x with Some r => Some r | None => first_some f l' end
  end.

(** [s] without its prefix [p], when it starts with [p]. *)
Fixpoint strip (p s : text) : option text :=
  match p, s with
  | [], _ => Some s
  | a :: p', b :: s' => if N.eqb a b then strip p' s' else None
  | _ :: _, [] => None
  end.

(** The longest prefix of [s] whose characters satisfy [f], and the rest. *)
Fixpoint span (f : char → bool) (s : text) : text * text :=
  match s with
  | c :: s' =>
      if f c then let '(a, b) := span f s' in (c :: a, b) else ([], s)
  | [] => ([], [])
  end.

Definition not_dq (c : char) : bool := negb (N.eqb c dq).
Definition not_gt (c : char) : bool := negb (N.eqb c gt).

(** The six spellings the pattern lists, in its order. *)
Definition image_exts : list text :=
  [txt "jpg"; txt "JPG"; txt "jpeg"; txt "JPEG"; txt "png"; txt "PNG"].

(** [body] is a non-empty text followed by a dot and [e]. *)
Definition has_ext (body e : text) : bool :=
  bool_decide (S (length e) < length body ∧
               drop (length body - S (length e)) body = dot :: e).

Definition ext_of (body : text) : option text :=
  List.find (has_ext body) image_exts.

Definition tag_groups (body e rest : text) : gmap nat text :=
  <[3 := rest]> (<[1 := txt "images/" ++ body]> (<[2 := e]> ∅)).

Definition match_at (s : text) : option (Match * text) :=
  match strip (txt "<img") s with
  | None => None
  | Some t1 =>
      match span isspace t1 with
      | ([], _) => None
      | (_, t2) =>
          match strip (html "src='images/") t2 with
          | None => None
          | Some t3 =>
              match span not_dq t3 with
              | (body, q :: t4) =>
                  match ext_of body with
                  | None => None
                  | Some e =>
                      match span not_gt t4 with
                      | (rest, g :: t5) =>
                          Some ({| m_whole := take (length s - length t5) s;
                                   m_groups := tag_groups body e rest |}, t5)
                      | (_, []) => None
                      end
                  end
              | (_, []) => None
              end
          end
      end
  end.

(** The end of the pattern, from the closing quote of [src]. *)
Definition tail_re : regex := Seq (Lit dq) (Seq (Group 3 rest_re) (Lit gt)).

(** What is left of the pattern after the path has been read up to some
    point: the dot, the extension, and the end of the tag. *)
Definition after_path (sG : text) (s1 : text) : option result :=
  first_some
    (λ e, match strip (dot :: e) s1 with
          | Some s' =>
              match s' with
              | q :: t =>
                  if N.eqb q dq then
                    match span not_gt t with
                    | (rest, _ :: t') =>
                        Some (<[3 := rest]>
                                (<[1 := take (length sG - length s') sG]>
                                   (<[2 := e]> ∅)), t')
                    | (_, []) => None
                    end
                  else None
              | [] => None
              end
          | None => None
          end) image_exts.

(** The text of a tag with the given parts. *)
Definition tag (ws body rest : text) : text :=
  txt "<img" ++ ws ++ html "src='images/" ++ body ++ [dq] ++ rest ++ [gt].

(** The parts of a tag the pattern matches: white space, a path that ends
    in one of the six extensions, and a rest without [>]. *)
Definition tag_parts (ws body e rest : text) : Prop :=
  (ws ≠ []) ∧ Forall (λ c, isspace c = true) ws ∧
  (dq ∉ body) ∧ ext_of body = Some e ∧ (gt ∉ rest).

(** The match object of such a tag. *)
Definition tag_match (ws body e rest : text) : Match :=
  {| m_whole := tag ws body rest; m_groups := tag_groups body e rest |}.

(** The tag [replace_img] writes for the path [images/body] whose last
    component is [stem.e], under the directory [dir]. *)
Definition rewritten (dir stem body rest : text) : text :=
  html "<img src='" ++ dir ++ txt "/thumbnails/" ++ stem ++
  html ".jpg' data-fullres='images/" ++ body ++ [dq] ++ rest ++
  (if contains (txt "loading=") rest then [] else html " loading='lazy'") ++
  [gt].

End Tag.

(** ** What a run of the rewriter does to one file *)

Module Run.
Import Py Re Eff Gallery.

(** The exception [update_gallery_html] raises on [filename], if any: the
    file is a directory, or is not UTF-8, or has to be written and cannot
    be. *)
Definition fault (w : world) (filename : text) : option exn :=
  match files w !! [filename] with
  | None => None
  | Some Directory => Some (IsADirectoryError [filename])
  | Some (Regular None _ _) => Some (UnicodeDecodeError [filename])
  | Some (Regular (Some t) _ writable) =>
      if bool_decide (re_sub t ≠ t) && negb writable
      then Some (PermissionError [filename]) else None
  end.

(** Whether the run rewrites [filename]. *)
Definition changes (w : world) (filename : text) : bool :=
  match files w !! [filename] with
  | Some (Regular (Some t) _ _) => bool_decide (re_sub t ≠ t)
  | _ => false
  end.

(** The line [main] prints for [filename]. *)
Definition report (w : world) (filename : text) : text :=
  match files w !! [filename] with
  | None => line_not_found filename
  | Some _ =>
      if changes w filename then line_updated filename
      else line_no_change filename
  end.

(** The world after one more printed line. *)
Definition put_line (l : text) (w : world) : world :=
  World (files w) (clock w) (stdout w ++ [l]).

End Run.

(** ** What a run of the thumbnail script does in one directory *)

Module Batch.
Import Py Eff Thumbs.

Section with_pillow.
Context `{Pillow}.

Definition is_dir (o : option node) : bool :=
  match o with Some (Dir _) => true | _ => false end.

Definition is_regular (o : option node) : bool :=
  match o with Some (File _ _) => true | _ => false end.

(** The thumbnails directory of [d], and where the thumbnail of the entry
    [nm] of [d] goes. *)
Definition thumbs_of (d : path) : path := d ++ [txt "thumbnails"].
Definition dest (d : path) (nm : text) : path :=
  thumbs_of d ++ [stem nm ++ txt ".jpg"].

(** The image [create_thumbnail] hands to [save]. *)
Definition prepared (img : image) : image :=
  thumbnail (to_rgb img) (MAX_SIZE, MAX_SIZE).

(** The entries the loop of [process_directory] takes up. *)
Definition selected (m : gmap path node) (d : path) (nm : text) : bool :=
  bool_decide (suffix nm ∈ extensions) && is_regular (m !! (d ++ [nm])).

(** What the body of [create_thumbnail] comes to on the entry [nm]: the
    exception it raises, or the image it saves and the size of the source. *)
Definition entry_result (m : gmap path node) (d : path) (nm : text)
    : exn + image * positive :=
  match m !! (d ++ [nm]) with
  | Some (File (Picture _ img) size) =>
      if is_dir (m !! dest d nm) then inl (IsADirectoryError (dest d nm))
      else inr (prepared img, size)
  | Some (File Corrupt _) => inl (ImageError (d ++ [nm]))
  | Some (Dir _) => inl (IsADirectoryError (d ++ [nm]))
  | None => inl (FileNotFoundError (d ++ [nm]))
  end.

(** The lines printed for the entry [nm]. *)
Definition entry_lines (m : gmap path node) (d : path) (nm : text)
    : list line :=
  if selected m d nm then
    match entry_result m d nm with
    | inr (out, size) =>
        [LCreated nm; LSizes size (jpeg_size out QUALITY true)]
    | inl e => [LError (d ++ [nm]) e]
    end
  else [].

(** Whether a thumbnail is made of the entry [nm]. *)
Definition entry_ok (m : gmap path node) (d : path) (nm : text) : bool :=
  selected m d nm &&
  match entry_result m d nm with inr _ => true | inl _ => false end.

(** The file written for the entry [nm], if one is. *)
Definition entry_write (m : gmap path node) (d : path) (nm : text)
    : option (path * node) :=
  if selected m d nm then
    match entry_result m d nm with
    | inr (out, _) =>
        Some (dest d nm,
              File (Picture JPEG out) (jpeg_size out QUALITY true))
    | inl _ => None
    end
  else None.

(** The files written for a listing, in the order they are written, and a
    file system after them. *)
Definition writes (m : gmap path node) (d : path) (entries : list text)
    : list (path * node) :=
  omap (entry_write m d) entries.

Definition after_writes (ws : list (path * node)) (m : gmap path node)
    : gmap path node :=
  foldl (λ acc w, <[w.1 := w.2]> acc) m ws.

Definition put_line (l : line) (w : world) : world :=
  World (fs w) (stdout w ++ [l]).

End with_pillow.

(** A codec to run the model on examples: every pixel of a resized image
    takes the colour of the first pixel of the source, and a JPEG file has
    one byte per pixel and one more. *)
Definition flat_codec : Pillow :=
  {| lanczos := λ img size,
       replicate (Z.to_nat (size.1 * size.2)) (hd [] (im_data img));
     jpeg_size := λ img _ _, Pos.of_succ_nat (length (im_data img)) |}.

(** An example: a gallery directory with two pictures of one stem, a
    file that is no image, and a text file. *)
Definition demo_dir : path := [txt "images"; txt "adlad"].

Definition demo_png : image :=
  Image RGBA (2, 1)%Z [[10; 20; 30; 0]; [10; 20; 30; 255]]%Z [].

Definition demo_jpg : image :=
  Image RGB (1000, 2)%Z (replicate 2000 [200; 100; 50]%Z) [].

Definition demo_world : world :=
  World (list_to_map
           [ ([txt "images"], Dir [txt "adlad"]);
             (demo_dir, Dir [txt "a.png"; txt "bad.jpg"; txt "a.jpg";
                             txt "notes.txt"]);
             (demo_dir ++ [txt "a.png"], File (Picture PNG demo_png) 5000);
             (demo_dir ++ [txt "bad.jpg"], File Corrupt 10);
             (demo_dir ++ [txt "a.jpg"], File (Picture JPEG demo_jpg) 900000);
             (demo_dir ++ [txt "notes.txt"], File Corrupt 10) ])
        [].

End Batch.

(** ** The guards of the callback, and paths as the pages write them *)

Module Site.
Import Py Re Eff Gallery.

(** Whether [replace_img] returns the tag it is given: the path already
    holds [/thumbnails/], or the tag already holds [data-fullres=]. *)
Definition skips (m : Match) : bool :=
  contains (txt "/thumbnails/") (group m 1) ||
  contains (txt "data-fullres=") (group m 3).

(** [str(p)] of a relative path: its components joined by slashes. *)
Fixpoint render (p : path) : text :=
  match p with
  | [] => txt "."
  | [x] => x
  | x :: p' => x ++ slash :: render p'
  end.

End Site.

(** ** What a run of the thumbnail script leaves behind *)

Module Whole.
Import Py Eff Thumbs Batch.

Section images.
Local Open Scope Z_scope.

(** An image with one pixel per position, one value per band in each
    pixel, and every value and palette entry an 8-bit one. *)
Definition well_formed (img : image) : Prop :=
  length (im_data img) = Z.to_nat ((im_size img).1 * (im_size img).2) ∧
  Forall (λ px, length px = bands (im_mode img) ∧
                Forall (λ v, 0 ≤ v ≤ 255) px) (im_data img) ∧
  Forall (λ c, (0 ≤ c.1.1 ≤ 255 ∧ 0 ≤ c.1.2 ≤ 255) ∧ 0 ≤ c.2 ≤ 255)
         (im_palette img).

Global Instance well_formed_dec img : Decision (well_formed img).
Proof. unfold well_formed. apply _. Defined.

End images.

Section with_pillow.
Context `{Pillow}.

(** The listing of a thumbnails directory after the files [ws] have been
    written into it, one after the other. *)
Definition listing_after (ws : list (path * node)) (es : list text) : list text :=
  foldl (λ acc w, add_entry (name w.1) acc) es ws.

(** The file system once the thumbnails directory of [d] is there. *)
Definition made_dir (m : gmap path node) (d : path) (entries : list text)
    : gmap path node :=
  match m !! thumbs_of d with
  | None =>
      <[thumbs_of d := Dir []]>
        (<[d := Dir (add_entry (txt "thumbnails") entries)]> m)
  | Some _ => m
  end.

Definition old_listing (m : gmap path node) (d : path) : list text :=
  match m !! thumbs_of d with Some (Dir es) => es | _ => [] end.

(** The file system [process_directory] leaves. *)
Definition fs_after (m : gmap path node) (d : path) (entries : list text)
    : gmap path node :=
  let ws := writes m d entries in
  <[thumbs_of d := Dir (listing_after ws (old_listing m d))]>
    (after_writes ws (made_dir m d entries)).

(** The lines [process_directory] prints for [d] when [main] calls it. *)
Definition dir_lines (m : gmap path node) (d : path) : list line :=
  match m !! d with
  | Some (Dir entries) =>
      [LProcessing d; LDashes] ++ concat (entry_lines m d <$> entries) ++
      [LProcessed (length (filter (λ nm, entry_ok m d nm = true) entries))
                  (name d)]
  | _ => []
  end.

(** Whether [main] gets through the configured directory [d]: it is
    missing, or it is a directory in which [thumbnails] is no regular
    file. *)
Definition ready (m : gmap path node) (d : path) : bool :=
  match m !! d with
  | None => true
  | Some (Dir _) => negb (is_regular (m !! thumbs_of d))
  | Some (File _ _) => false
  end.

End with_pillow.
End Whole.

(** * Properties *)

Import Py Re Eff.

(** ** Texts *)

Section text_facts.
Import Tag.
Implicit Types (s p a b : text) (c : char) (f : char → bool).

Lemma strip_app p s : strip p (p ++ s) = Some s.
Proof. induction p as [|x p IH]; simpl; [done|]. by rewrite N.eqb_refl. Qed.

Lemma strip_Some p s s' : strip p s = Some s' → s = p ++ s'.
Proof.
  revert s; induction p as [|x p IH]; intros [|y s]; simpl; try congruence.
  destruct (N.eqb_spec x y) as [->|]; [|done]. intros Hs. by rewrite (IH _ Hs).
Qed.

Lemma span_app_eq f s : (span f s).1 ++ (span f s).2 = s.
Proof.
  induction s as [|c s IH]; simpl; [done|].
  destruct (f c); [|done]. destruct (span f s); simpl in *. by rewrite IH.
Qed.

Lemma span_Forall f s : Forall (λ c, f c = true) (span f s).1.
Proof.
  induction s as [|c s IH]; simpl; [constructor|].
  destruct (f c) eqn:Hc; [|constructor].
  destruct (span f s); simpl in *. by constructor.
Qed.

Lemma span_head f s c t : (span f s).2 = c :: t → f c = false.
Proof.
  induction s as [|x s IH]; simpl; [done|].
  destruct (f x) eqn:Hx.
  - destruct (span f s); simpl in *. done.
  - simpl. by intros [= <- <-].
Qed.

(** A prefix within the class followed by a character out of it (or by the
    end) is what [span] returns. *)
Lemma span_app f a b :
  Forall (λ c, f c = true) a → (∀ c t, b = c :: t → f c = false) →
  span f (a ++ b) = (a, b).
Proof.
  intros Ha Hb. induction Ha as [|c a Hc _ IH]; simpl.
  - destruct b as [|c t]; simpl; [done|]. by rewrite (Hb c t).
  - by rewrite Hc, IH.
Qed.

Lemma span_spec f s a b :
  span f s = (a, b) ↔
  s = a ++ b ∧ Forall (λ c, f c = true) a ∧ (∀ c t, b = c :: t → f c = false).
Proof.
  split.
  - intros Hs. pose proof (span_app_eq f s) as H1.
    pose proof (span_Forall f s) as H2.
    pose proof (span_head f s) as H3. rewrite Hs in *. simpl in *. eauto.
  - intros (-> & Ha & Hb). by apply span_app.
Qed.

Lemma startswith_app p s : startswith p (p ++ s) = true.
Proof. induction p as [|x p IH]; simpl; [done|]. by rewrite N.eqb_refl. Qed.

Lemma contains_app_r needle a b :
  contains needle b = true → contains needle (a ++ b) = true.
Proof.
  intros Hb. induction a as [|x a IH]; simpl; [done|].
  rewrite IH. apply orb_true_r.
Qed.

Lemma contains_infix needle a b : contains needle (a ++ needle ++ b) = true.
Proof.
  apply contains_app_r. destruct needle as [|x n]; simpl.
  - by destruct b.
  - by rewrite N.eqb_refl, startswith_app.
Qed.

Lemma startswith_true p s : startswith p s = true → ∃ t, s = p ++ t.
Proof.
  revert s; induction p as [|x p IH]; intros s; simpl; [by eexists|].
  destruct s as [|y s]; [done|]. intros [Hxy Hp]%andb_true_iff.
  apply N.eqb_eq in Hxy as ->. destruct (IH _ Hp) as [t ->]. by eexists.
Qed.

Lemma contains_true needle hay :
  contains needle hay = true → ∃ a b, hay = a ++ needle ++ b.
Proof.
  induction hay as [|x hay IH]; simpl.
  - rewrite orb_false_r. intros [t Ht]%startswith_true.
    exists [], t. done.
  - intros [Hp|Hc]%orb_true_iff.
    + apply startswith_true in Hp as [t Ht]. by exists [], t.
    + destruct (IH Hc) as (a & b & ->). by exists (x :: a), b.
Qed.

(** [rfind_split] cuts at the last occurrence. *)
Lemma rfind_split_app c a b :
  c ∉ b → rfind_split c (a ++ c :: b) = Some (a, b).
Proof.
  intros Hb.
  assert (rfind_split c b = None) as Hnone.
  { induction b as [|x b IH]; simpl; [done|].
    rewrite IH by set_solver.
    destruct (N.eqb_spec x c) as [Hxc|]; [subst x; set_solver|done]. }
  induction a as [|x a IH]; simpl.
  - by rewrite Hnone, N.eqb_refl.
  - by rewrite IH.
Qed.

Lemma rfind_split_None c s : c ∉ s → rfind_split c s = None.
Proof.
  induction s as [|x s IH]; simpl; [done|]. intros Hs.
  rewrite IH by set_solver.
  destruct (N.eqb_spec x c) as [Hxc|]; [subst x; set_solver|done].
Qed.

Lemma rfind_split_Some c s a b :
  rfind_split c s = Some (a, b) → s = a ++ c :: b ∧ c ∉ b.
Proof.
  revert a b; induction s as [|x s IH]; intros a b; simpl; [done|].
  destruct (rfind_split c s) as [[a' b']|] eqn:Hs.
  - intros [= <- <-]. destruct (IH _ _ eq_refl) as [-> ?]. done.
  - destruct (N.eqb_spec x c) as [Hxc|]; [subst x|done]. intros [= <- <-].
    split; [done|]. intros Hin.
    assert (∀ t, c ∈ t → rfind_split c t ≠ None) as Hcontra.
    { intros t. induction t as [|y t IHt]; [by intros ?%elem_of_nil|].
      intros [Hcy|Hin']%elem_of_cons; simpl.
      - subst y. destruct (rfind_split c t) as [[??]|]; [done|].
        by rewrite N.eqb_refl.
      - specialize (IHt Hin'). by destruct (rfind_split c t) as [[??]|]. }
    by apply (Hcontra s).
Qed.

End text_facts.

(** ** The matcher on the pattern of the rewriter *)

Section regex_facts.
Import Gallery Tag.
Implicit Types (s p a b : text) (c : char) (g : gmap nat text).

Lemma exec_lits p s g k :
  exec (lits p) s g k = match strip p s with Some s' => k s' g | None => None end.
Proof.
  revert s; induction p as [|c p IH]; intros s; [done|].
  destruct p as [|c' p].
  - simpl. destruct s as [|x s]; [done|]. rewrite N.eqb_sym.
    by destruct (N.eqb c x).
  - change (lits (c :: c' :: p)) with (Seq (Lit c) (lits (c' :: p))).
    cbn [exec]. destruct s as [|x s]; [done|].
    cbn [strip]. rewrite N.eqb_sym. destruct (N.eqb c x); [|done]. apply IH.
Qed.

Lemma exec_lits_seq p r s g k :
  exec (Seq (lits p) r) s g k =
  match strip p s with Some s' => exec r s' g k | None => None end.
Proof. cbn [exec]. by rewrite exec_lits. Qed.

(** When the continuation refuses every text that starts within the class,
    the greedy repetition keeps all it took. *)
Lemma plus_greedy_commit f s k :
  (∀ c t, f c = true → k (c :: t) = None) →
  plus_greedy f s k =
  match span f s with ([], _) => None | (_, b) => k b end.
Proof.
  intros Hk. induction s as [|c s IH]; simpl; [done|].
  destruct (f c) eqn:Hc; [|done]. rewrite IH.
  destruct (span f s) as [a b] eqn:Hs.
  apply span_spec in Hs as (-> & Ha & Hb). destruct a as [|x a]; [done|].
  destruct (k b) eqn:Hkb; [done|]. simpl.
  apply Hk. by inversion Ha.
Qed.

Lemma plus_greedy_None f a b k :
  (∀ a1 a2, a = a1 ++ a2 → a1 ≠ [] → k (a2 ++ b) = None) →
  (∀ c t, b = c :: t → f c = false) →
  plus_greedy f (a ++ b) k = None.
Proof.
  intros Hk Hb. induction a as [|c a IH]; simpl.
  - destruct b as [|c t]; simpl; [done|]. by rewrite (Hb c t).
  - destruct (f c); [|done]. rewrite IH.
    + apply (Hk [c] a); done.
    + intros a1 a2 -> Ha1. apply (Hk (c :: a1) a2); done.
Qed.

Lemma plus_greedy_unique f a1 a2 b k :
  Forall (λ c, f c = true) a1 → a1 ≠ [] →
  (∀ c t, b = c :: t → f c = false) →
  (∀ a1' a2', a1 ++ a2 = a1' ++ a2' → a1' ≠ [] → a2' ≠ a2 →
              k (a2' ++ b) = None) →
  plus_greedy f ((a1 ++ a2) ++ b) k = k (a2 ++ b).
Proof.
  intros Ha1 Hne Hb Hk. induction Ha1 as [|c a1 Hc Ha1 IH]; [done|].
  simpl. rewrite Hc. destruct a1 as [|c' a1].
  - simpl in *. rewrite plus_greedy_None; [done| |done].
    intros x y -> Hx. apply (Hk (c :: x) y); [done..|].
    intros Hy. apply (f_equal length) in Hy. rewrite length_app in Hy.
    destruct x; [done|simpl in Hy; lia].
  - rewrite IH; [|done|].
    + destruct (k (a2 ++ b)) eqn:Hk2; [done|].
      apply (Hk [c] ((c' :: a1) ++ a2)); [done..|].
      intros Hy. apply (f_equal length) in Hy. rewrite length_app in Hy.
      simpl in Hy; lia.
    + intros x y Hxy Hx Hy. apply (Hk (c :: x) y); [|done..].
      by rewrite <- app_comm_cons, Hxy.
Qed.

(** The lazy repetition stops at the first character out of the class, when
    the continuation refuses every text that starts within it. *)
Lemma star_lazy_commit f s k :
  (∀ c t, f c = true → k (c :: t) = None) →
  star_lazy f s k = k (span f s).2.
Proof.
  intros Hk. induction s as [|c s IH]; simpl.
  - by destruct (k []).
  - destruct (f c) eqn:Hc.
    + rewrite (Hk c s Hc), IH. by destruct (span f s).
    + simpl. by destruct (k (c :: s)).
Qed.

Lemma take_strip p s s' : strip p s = Some s' → take (length s - length s') s = p.
Proof.
  intros ->%strip_Some. rewrite length_app.
  replace (length p + length s' - length s') with (length p) by lia.
  by rewrite take_app_length.
Qed.

Lemma exec_alts s g k :
  exec (Seq (Lit dot) (Group 2 ext_re)) s g k =
  first_some (λ e, match strip (dot :: e) s with
                   | Some s' => k s' (<[2 := e]> g)
                   | None => None
                   end) image_exts.
Proof.
  destruct s as [|x s]; [done|].
  cbn [exec first_some image_exts strip]. rewrite (N.eqb_sym dot x).
  destruct (N.eqb x dot); [|done].
  unfold ext_re. cbn [exec]. rewrite !exec_lits.
  repeat
    (match goal with
     | |- context [strip ?p ?t] =>
         let H := fresh in
         destruct (strip p t) as [?|] eqn:H;
         [rewrite (take_strip _ _ _ H);
          match goal with
          | |- context [k ?u ?h] => destruct (k u h); [done|]
          end|]
     end; try done).
Qed.

Lemma take_app_sub a b : take (length (a ++ b) - length b) (a ++ b) = a.
Proof.
  rewrite length_app.
  replace (length a + length b - length b) with (length a) by lia.
  by rewrite take_app_length.
Qed.

Lemma strip_app_split p1 p2 s :
  strip (p1 ++ p2) s =
  match strip p1 s with Some s' => strip p2 s' | None => None end.
Proof.
  revert s; induction p1 as [|x p1 IH]; intros s; simpl; [done|].
  destruct s as [|y s]; [done|]. destruct (N.eqb x y); [apply IH|done].
Qed.

Lemma isspace_not_s c : isspace c = true → N.eqb 115 c = false.
Proof.
  intros Hc. destruct (N.eqb_spec 115 c) as [<-|]; [|done].
  vm_compute in Hc. done.
Qed.

Lemma not_dq_false c : not_dq c = false → c = dq.
Proof. unfold not_dq. by intros ?%negb_false_iff%N.eqb_eq. Qed.
Lemma not_gt_false c : not_gt c = false → c = gt.
Proof. unfold not_gt. by intros ?%negb_false_iff%N.eqb_eq. Qed.

(** The end of the pattern: the closing quote, the lazy rest, the [>]. *)
Lemma exec_tail s g :
  exec (Seq (Lit dq) (Seq (Group 3 rest_re) (Lit gt))) s g
       (λ s1 g1, Some (g1, s1)) =
  match s with
  | q :: t =>
      if N.eqb q dq then
        match span not_gt t with
        | (rest, _ :: t') => Some (<[3 := rest]> g, t')
        | (_, []) => None
        end
      else None
  | [] => None
  end.
Proof.
  destruct s as [|q t]; [done|]. cbn [exec]. destruct (N.eqb q dq); [|done].
  change rest_re with (StarLazy not_gt). cbn [exec]. rewrite star_lazy_commit.
  - destruct (span not_gt t) as [rest t6] eqn:Hs. cbn [snd].
    destruct t6 as [|x t7]; [done|].
    apply span_spec in Hs as (-> & _ & Hx).
    rewrite (not_gt_false x (Hx _ _ eq_refl)), N.eqb_refl.
    by rewrite (take_app_sub rest (gt :: t7)).
  - intros c u Hc. unfold not_gt in Hc. apply negb_true_iff in Hc.
    by rewrite Hc.
Qed.

Lemma first_some_None {A B} (f : A → option B) l :
  (∀ x, x ∈ l → f x = None) → first_some f l = None.
Proof.
  induction l as [|x l IH]; [done|]. intros Hf. simpl.
  rewrite (Hf x) by set_solver. apply IH. intros y Hy. apply Hf. set_solver.
Qed.

Lemma first_some_is_Some {A B} (f : A → option B) l r :
  first_some f l = Some r → ∃ x, x ∈ l ∧ f x = Some r.
Proof.
  induction l as [|x l IH]; [done|]. simpl.
  destruct (f x) as [r'|] eqn:Hx.
  - intros [= <-]. exists x. split; [set_solver|done].
  - intros (y & Hy & Hfy)%IH. exists y. split; [set_solver|done].
Qed.

(** Where a character occurs first is determined. *)
Lemma first_occurrence c (x y b t : text) :
  c ∉ x → c ∉ y → x ++ b = y ++ c :: t →
  (∀ d u, b = d :: u → d = c) → x = y ∧ b = c :: t.
Proof.
  revert y; induction x as [|a x IH]; intros y Hx Hy Heq Hb; simpl in *.
  - destruct y as [|a' y]; [done|]. simpl in Heq.
    specialize (Hb a' _ Heq). set_solver.
  - destruct y as [|a' y]; simpl in Heq; simplify_eq; [set_solver|].
    destruct (IH y) as [-> ->]; [set_solver..|done|done|done].
Qed.

Lemma image_exts_no_dq e : e ∈ image_exts → dq ∉ dot :: e.
Proof.
  unfold image_exts. rewrite !elem_of_cons, elem_of_nil.
  intros [->|[->|[->|[->|[->|[->|[]]]]]]]; vm_compute; set_solver.
Qed.

Lemma image_exts_suffix e e' (X Y : text) :
  e ∈ image_exts → e' ∈ image_exts → X ++ dot :: e = Y ++ dot :: e' → e = e'.
Proof.
  unfold image_exts. rewrite !elem_of_cons, !elem_of_nil.
  intros He He' Heq. apply (f_equal (@rev char)) in Heq. rewrite !rev_app_distr in Heq.
  destruct He as [->|[->|[->|[->|[->|[->|[]]]]]]];
  destruct He' as [->|[->|[->|[->|[->|[->|[]]]]]]];
  first [done | by vm_compute in Heq; simplify_eq].
Qed.

Lemma plus_greedy_ext f s k k' :
  (∀ t, k t = k' t) → plus_greedy f s k = plus_greedy f s k'.
Proof.
  intros Hk. induction s as [|c s IH]; simpl; [done|].
  by rewrite IH, Hk.
Qed.

Lemma has_ext_intro X e : X ≠ [] → has_ext (X ++ dot :: e) e = true.
Proof.
  intros HX. unfold has_ext. apply bool_decide_eq_true.
  rewrite length_app. simpl. split.
  - destruct X; [done|simpl; lia].
  - replace (length X + S (length e) - S (length e)) with (length X) by lia.
    by rewrite drop_app_length.
Qed.

Lemma has_ext_elim body e :
  has_ext body e = true → ∃ X, X ≠ [] ∧ body = X ++ dot :: e.
Proof.
  unfold has_ext. intros [Hlen Hdrop]%bool_decide_eq_true.
  exists (take (length body - S (length e)) body). split.
  - intros Hnil%(f_equal length). rewrite length_take in Hnil. simpl in Hnil. lia.
  - by rewrite <- Hdrop, take_drop.
Qed.

Lemma ext_of_Some body e :
  ext_of body = Some e ↔
  e ∈ image_exts ∧ ∃ X, X ≠ [] ∧ body = X ++ dot :: e.
Proof.
  unfold ext_of. split.
  - intros Hf. pose proof (find_some _ _ Hf) as [Hin He].
    split; [by apply list_elem_of_In|by apply has_ext_elim].
  - intros (He & X & HX & ->).
    destruct (find (has_ext (X ++ dot :: e)) image_exts) as [e'|] eqn:Hf.
    + pose proof (find_some _ _ Hf) as [Hin He'].
      apply has_ext_elim in He' as (Y & _ & HY).
      f_equal. symmetry. eapply image_exts_suffix; [done| |done].
      by apply list_elem_of_In.
    + eapply find_none in Hf; [|by apply list_elem_of_In].
      by rewrite has_ext_intro in Hf.
Qed.

Lemma ext_of_None body e X :
  ext_of body = None → e ∈ image_exts → X ≠ [] → body ≠ X ++ dot :: e.
Proof.
  intros Hn He HX ->.
  assert (ext_of (X ++ dot :: e) = Some e) as Hs by (apply ext_of_Some; eauto).
  congruence.
Qed.

Lemma after_path_Some sG a2 b r :
  dq ∉ a2 → (∀ d u, b = d :: u → d = dq) →
  after_path sG (a2 ++ b) = Some r →
  ∃ e t4, e ∈ image_exts ∧ a2 = dot :: e ∧ b = dq :: t4.
Proof.
  intros Ha2 Hb (e & He & Hf)%first_some_is_Some.
  destruct (strip (dot :: e) (a2 ++ b)) as [s'|] eqn:Hs; [|done].
  apply strip_Some in Hs. destruct s' as [|q t]; [done|].
  destruct (N.eqb_spec q dq) as [->|]; [|done].
  destruct (first_occurrence dq a2 (dot :: e) b t) as [-> ->];
    [done|by apply image_exts_no_dq|done|done|]. eauto.
Qed.

Lemma after_path_ext sG e t4 :
  e ∈ image_exts →
  after_path sG ((dot :: e) ++ dq :: t4) =
  match span not_gt t4 with
  | (rest, _ :: t') =>
      Some (<[3 := rest]>
              (<[1 := take (length sG - length (dq :: t4)) sG]>
                 (<[2 := e]> ∅)), t')
  | (_, []) => None
  end.
Proof.
  unfold image_exts. rewrite !elem_of_cons, elem_of_nil.
  intros [->|[->|[->|[->|[->|[->|[]]]]]]].
  all: unfold after_path; cbn [first_some image_exts].
  all: destruct (span not_gt t4) as [rest [|x t']] eqn:Hs.
  all: vm_compute strip; change (N.eqb 34 dq) with true; cbv iota.
  all: rewrite ?Hs; reflexivity.
Qed.

Lemma first_some_ext {A B} (f f' : A → option B) l :
  (∀ x, f x = f' x) → first_some f l = first_some f' l.
Proof. intros Hf. induction l as [|x l IH]; simpl; [done|]. by rewrite Hf, IH. Qed.

Lemma exec_path_re sG :
  exec (Seq (Group 1 path_re) tail_re) sG ∅ (λ s1 g1, Some (g1, s1)) =
  match strip (txt "images/") sG with
  | Some t3 => plus_greedy not_dq t3 (after_path sG)
  | None => None
  end.
Proof.
  change (exec (Seq (Group 1 path_re) tail_re) sG ∅ (λ s1 g1, Some (g1, s1)))
    with (exec (lits (txt "images/")) sG ∅
            (λ s1 g1, plus_greedy not_dq s1
               (λ s2, exec (Seq (Lit dot) (Group 2 ext_re)) s2 g1
                  (λ s3 g3, exec tail_re s3
                     (<[1 := take (length sG - length s3) sG]> g3)
                     (λ s4 g4, Some (g4, s4)))))).
  rewrite exec_lits.
  destruct (strip (txt "images/") sG) as [t3|]; [|done].
  apply plus_greedy_ext. intros t.
  rewrite exec_alts. apply first_some_ext. intros e.
  destruct (strip (dot :: e) t) as [s'|]; [|done].
  unfold tail_re. rewrite exec_tail. destruct s' as [|q u]; [done|].
  destruct (N.eqb q dq); [|done]. by destruct (span not_gt u) as [? [|??]].
Qed.

Lemma plus_greedy_path sG t3 :
  plus_greedy not_dq t3 (after_path sG) =
  match span not_dq t3 with
  | (body, q :: t4) =>
      match ext_of body with
      | Some e =>
          match span not_gt t4 with
          | (rest, _ :: t5) =>
              Some (<[3 := rest]>
                      (<[1 := take (length sG - length (dq :: t4)) sG]>
                         (<[2 := e]> ∅)), t5)
          | (_, []) => None
          end
      | None => None
      end
  | (_, []) => None
  end.
Proof.
  destruct (span not_dq t3) as [body t4'] eqn:Hs.
  apply span_spec in Hs as (-> & Hbody & Hhd).
  assert (dq ∉ body) as Hnq.
  { intros Hin. rewrite Forall_forall in Hbody. by specialize (Hbody _ Hin). }
  assert (∀ d u, t4' = d :: u → d = dq) as Hhd'.
  { intros d u Hd. apply not_dq_false. eauto. }
  assert (∀ a1 a2, body = a1 ++ a2 → dq ∉ a2) as Hsub.
  { intros a1 a2 -> Hin. apply Hnq. set_solver. }
  destruct t4' as [|q t4].
  { apply plus_greedy_None; [|done]. intros a1 a2 Hb Ha1.
    destruct (after_path sG (a2 ++ [])) as [r|] eqn:Hr; [|done].
    apply after_path_Some in Hr as (e & t & _ & _ & ?); eauto. done. }
  assert (q = dq) as -> by eauto.
  destruct (ext_of body) as [e|] eqn:He.
  - apply ext_of_Some in He as (He & X & HX & ->).
    rewrite plus_greedy_unique; [by apply after_path_ext| | done | done |].
    + apply Forall_app in Hbody. tauto.
    + intros a1' a2' Heq Ha1' Hne.
      destruct (after_path sG (a2' ++ dq :: t4)) as [r|] eqn:Hr; [|done].
      apply after_path_Some in Hr as (e' & t & He' & -> & _); [|by eauto|done].
      destruct Hne. f_equal. symmetry. by eapply image_exts_suffix.
  - apply plus_greedy_None; [|done]. intros a1 a2 Hb Ha1.
    destruct (after_path sG (a2 ++ dq :: t4)) as [r|] eqn:Hr; [|done].
    apply after_path_Some in Hr as (e' & t & He' & -> & _); [|by eauto|done].
    by destruct (ext_of_None _ e' a1 He).
Qed.

Lemma exec_Lit_cons c x t g k :
  exec (Lit c) (x :: t) g k = if N.eqb x c then k t g else None.
Proof. done. Qed.

(** The matcher on [pattern] computes [match_at]. *)
Lemma re_match_pattern s : re_match pattern s = match_at s.
Proof.
  unfold re_match, match_at.
  change (exec pattern s ∅ (λ s1 g1, Some (g1, s1))) with
    (exec (lits (txt "<img")) s ∅
       (λ s1 g1, plus_greedy isspace s1
          (λ s2, exec (lits (txt "src=")) s2 g1
             (λ s3 g3, exec (Lit dq) s3 g3
                (λ s4 g4, exec (Seq (Group 1 path_re) tail_re) s4 g4
                             (λ s5 g5, Some (g5, s5))))))).
  rewrite exec_lits. destruct (strip (txt "<img") s) as [t1|] eqn:H1; [|done].
  rewrite plus_greedy_commit.
  2:{ intros c t Hc. rewrite exec_lits.
      change (strip (txt "src=") (c :: t))
        with (if N.eqb 115 c then strip (txt "rc=") t else None).
      by rewrite isspace_not_s. }
  destruct (span isspace t1) as [[|w ws] t2] eqn:H2; [done|].
  rewrite exec_lits.
  change (html "src='images/") with (txt "src=" ++ dq :: txt "images/").
  rewrite strip_app_split.
  destruct (strip (txt "src=") t2) as [[|x t]|] eqn:H3; [done| |done].
  rewrite exec_Lit_cons. cbn [strip]. rewrite (N.eqb_sym dq x).
  destruct (N.eqb_spec x dq) as [->|]; [|done].
  rewrite exec_path_re.
  destruct (strip (txt "images/") t) as [t3|] eqn:H4; [|done].
  rewrite plus_greedy_path.
  destruct (span not_dq t3) as [body [|q t4]] eqn:H5; [done|].
  destruct (ext_of body) as [e|]; [|done].
  destruct (span not_gt t4) as [rest [|y t5]]; [done|].
  do 2 f_equal. unfold tag_groups. do 2 f_equal.
  apply strip_Some in H4 as ->. apply span_spec in H5 as (-> & _ & _).
  f_equal. rewrite app_assoc.
  change (length (dq :: t4)) with (length (q :: t4)). apply take_app_sub.
Qed.

End regex_facts.

(** ** Tags *)

Section tag_facts.
Import Gallery Tag.
Implicit Types (s p a b : text) (c : char) (g : gmap nat text).

Lemma Forall_not_dq s : Forall (λ c, not_dq c = true) s ↔ dq ∉ s.
Proof.
  rewrite Forall_forall. unfold not_dq. split.
  - intros H Hin. specialize (H _ Hin). done.
  - intros H c Hc. apply negb_true_iff. destruct (N.eqb_spec c dq); naive_solver.
Qed.

Lemma Forall_not_gt s : Forall (λ c, not_gt c = true) s ↔ gt ∉ s.
Proof.
  rewrite Forall_forall. unfold not_gt. split.
  - intros H Hin. specialize (H _ Hin). done.
  - intros H c Hc. apply negb_true_iff. destruct (N.eqb_spec c gt); naive_solver.
Qed.

(** A tag with the parts the pattern asks for is matched, whatever follows
    it. *)
Lemma match_at_tag ws body e rest r :
  tag_parts ws body e rest →
  match_at (tag ws body rest ++ r) = Some (tag_match ws body e rest, r).
Proof.
  intros (Hws & Hsp & Hbody & He & Hrest). unfold match_at, tag.
  rewrite <- !app_assoc, strip_app.
  rewrite (span_app isspace ws); [|done|].
  2:{ intros c t [= <- _]. done. }
  destruct ws as [|w ws]; [done|].
  rewrite strip_app.
  rewrite (span_app not_dq body); [|by apply Forall_not_dq|].
  2:{ intros c t [= <- _]. done. }
  cbn [app]. rewrite He.
  rewrite (span_app not_gt rest); [|by apply Forall_not_gt|].
  2:{ intros c t [= <- _]. done. }
  cbn [app]. do 2 f_equal. unfold tag_match, tag. f_equal.
  rewrite <- (take_app_sub
    (txt "<img" ++ (w :: ws) ++ html "src='images/" ++ body ++ [dq] ++ rest ++ [gt])
    r) at 1.
  by rewrite <- !app_assoc.
Qed.

Lemma match_at_inv s m r :
  match_at s = Some (m, r) →
  ∃ ws body e rest,
    tag_parts ws body e rest ∧ m = tag_match ws body e rest ∧
    s = tag ws body rest ++ r.
Proof.
  unfold match_at. intros Hm.
  destruct (strip (txt "<img") s) as [t1|] eqn:H1; [|done].
  destruct (span isspace t1) as [ws t2] eqn:H2.
  destruct ws as [|w ws]; [done|].
  destruct (strip (html "src='images/") t2) as [t3|] eqn:H3; [|done].
  destruct (span not_dq t3) as [body [|q t4]] eqn:H4; [done|].
  destruct (ext_of body) as [e|] eqn:He; [|done].
  destruct (span not_gt t4) as [rest [|x t5]] eqn:H5; [done|].
  apply strip_Some in H1. apply strip_Some in H3.
  apply span_spec in H2 as (H2 & Hws & _).
  apply span_spec in H4 as (H4 & Hbody & Hq).
  apply span_spec in H5 as (H5 & Hrest & Hx).
  assert (q = dq) as -> by (apply not_dq_false; eauto).
  assert (x = gt) as -> by (apply not_gt_false; eauto).
  assert (s = tag (w :: ws) body rest ++ t5) as Hs.
  { unfold tag. rewrite H1, H2, H3, H4, H5. by rewrite <- !app_assoc. }
  injection Hm as <- <-.
  exists (w :: ws), body, e, rest. split; [|split; [|done]].
  - split; [done|]. by rewrite <- Forall_not_dq, <- Forall_not_gt.
  - unfold tag_match. f_equal. rewrite Hs at 1 2. apply take_app_sub.
Qed.

End tag_facts.

(** ** The scan of [re.sub] *)

Section scan_facts.
Import Gallery Tag.
Implicit Types (s p a b : text) (c : char) (g : gmap nat text).

Lemma tag_length ws body rest : 0 < length (tag ws body rest).
Proof. unfold tag. rewrite length_app. simpl. lia. Qed.

Lemma match_at_shorter s m r : match_at s = Some (m, r) → length r < length s.
Proof.
  intros (ws & body & e & rest & _ & _ & ->)%match_at_inv.
  rewrite length_app. pose proof (tag_length ws body rest). lia.
Qed.

Lemma scan_fuel_enough n n' s :
  length s ≤ n → length s ≤ n' → scan_fuel n s = scan_fuel n' s.
Proof.
  revert n' s; induction n as [|n IH]; intros n' s Hn Hn'.
  - destruct s; [|simpl in Hn; lia]. by destruct n'.
  - destruct n' as [|n'].
    { destruct s; [done|simpl in Hn'; lia]. }
    destruct s as [|c s]; [done|]. simpl.
    destruct (re_match pattern (c :: s)) as [[m r]|] eqn:Hm.
    + rewrite re_match_pattern in Hm. apply match_at_shorter in Hm.
      simpl in *. f_equal. apply IH; lia.
    + simpl in *. f_equal. apply IH; lia.
Qed.

Lemma scan_nil : scan [] = [].
Proof. done. Qed.

Lemma scan_hit s m r : match_at s = Some (m, r) → scan s = Hit m :: scan r.
Proof.
  intros Hm. pose proof (match_at_shorter _ _ _ Hm) as Hlen.
  unfold scan. destruct s as [|c s]; [simpl in Hlen; lia|].
  simpl. rewrite re_match_pattern, Hm. f_equal.
  apply scan_fuel_enough; simpl in *; lia.
Qed.

Lemma scan_keep c s :
  match_at (c :: s) = None → scan (c :: s) = Keep c :: scan s.
Proof. intros Hm. unfold scan. simpl. by rewrite re_match_pattern, Hm. Qed.

Lemma re_sub_nil : re_sub [] = [].
Proof. done. Qed.

Lemma re_sub_hit s m r :
  match_at s = Some (m, r) → re_sub s = replace_img m ++ re_sub r.
Proof. intros Hm. unfold re_sub. by rewrite (scan_hit _ _ _ Hm). Qed.

Lemma re_sub_keep c s :
  match_at (c :: s) = None → re_sub (c :: s) = c :: re_sub s.
Proof. intros Hm. unfold re_sub. by rewrite (scan_keep _ _ Hm). Qed.

Lemma finditer_hit s m r :
  match_at s = Some (m, r) → finditer s = m :: finditer r.
Proof. intros Hm. unfold finditer. by rewrite (scan_hit _ _ _ Hm). Qed.

Lemma finditer_keep c s :
  match_at (c :: s) = None → finditer (c :: s) = finditer s.
Proof. intros Hm. unfold finditer. by rewrite (scan_keep _ _ Hm). Qed.

(** Induction along the scan: over a copied character, and over a tag. *)
Lemma scan_ind (P : text → Prop) :
  P [] →
  (∀ c s, match_at (c :: s) = None → P s → P (c :: s)) →
  (∀ ws body e rest r,
     tag_parts ws body e rest → P r → P (tag ws body rest ++ r)) →
  ∀ s, P s.
Proof.
  intros Hnil Hkeep Hhit s.
  induction s as [s IH] using (induction_ltof1 _ (@length char)).
  unfold ltof in IH. destruct s as [|c s]; [done|].
  destruct (match_at (c :: s)) as [[m r]|] eqn:Hm.
  - pose proof (match_at_shorter _ _ _ Hm) as Hlen.
    apply match_at_inv in Hm as (ws & body & e & rest & Hp & _ & ->).
    apply (Hhit _ _ e); [done|]. by apply IH.
  - apply Hkeep; [done|]. apply IH. simpl. lia.
Qed.

End scan_facts.

(** ** The callback on a matched tag *)

Section replace_facts.
Import Gallery Tag.
Implicit Types (s p a b : text) (c : char) (g : gmap nat text).

Lemma rfind_split_is_Some c s : c ∈ s → is_Some (rfind_split c s).
Proof.
  induction s as [|y s IH]; [by intros ?%elem_of_nil|].
  intros [Hcy|Hin]%elem_of_cons; simpl.
  - subst y. destruct (rfind_split c s) as [[??]|]; [done|].
    by rewrite N.eqb_refl.
  - destruct (IH Hin) as [[??] ->]. done.
Qed.

Lemma image_exts_plain e :
  e ∈ image_exts → (slash ∉ dot :: e) ∧ (dot ∉ e) ∧ (gt ∉ e).
Proof.
  unfold image_exts. rewrite !elem_of_cons, elem_of_nil.
  intros [->|[->|[->|[->|[->|[->|[]]]]]]]; split_and!; compute_done.
Qed.

(** The path of a matched tag: a directory that starts with [images], a
    slash, a stem, a dot and the extension. *)
Lemma path_split body e :
  ext_of body = Some e →
  ∃ d stem,
    txt "images/" ++ body = (txt "images" ++ d) ++ slash :: stem ++ dot :: e ∧
    (slash ∉ stem) ∧ (d = [] ∨ ∃ d', d = slash :: d').
Proof.
  intros (He & X & HX & ->)%ext_of_Some.
  destruct (rfind_split_is_Some slash (txt "images/" ++ X)) as [[dir stem] Hs].
  { set_solver. }
  apply rfind_split_Some in Hs as [Hs Hstem].
  assert (∃ d, dir = txt "images" ++ d ∧ (d = [] ∨ ∃ d', d = slash :: d'))
    as (d & -> & Hd).
  { pose proof Hs as Hs'.
    destruct dir as [|d1 [|d2 [|d3 [|d4 [|d5 [|d6 [|d7 dir]]]]]]];
      vm_compute in Hs'; simplify_eq.
    - exists []. split; [done|by left].
    - exists (slash :: dir). split; [done|right; by eexists]. }
  exists d, stem. split; [|done].
  rewrite app_assoc, Hs. by rewrite <- !app_assoc.
Qed.

Lemma group_tag_match ws body e rest :
  group (tag_match ws body e rest) 0 = tag ws body rest ∧
  group (tag_match ws body e rest) 1 = txt "images/" ++ body ∧
  group (tag_match ws body e rest) 2 = e ∧
  group (tag_match ws body e rest) 3 = rest.
Proof. done. Qed.

(** What the callback returns on a matched tag. *)
Lemma replace_img_tag ws body e rest d stem :
  txt "images/" ++ body = (txt "images" ++ d) ++ slash :: stem ++ dot :: e →
  slash ∉ stem → e ∈ image_exts →
  replace_img (tag_match ws body e rest) =
  if contains (txt "/thumbnails/") (txt "images/" ++ body)
     || contains (txt "data-fullres=") rest
  then tag ws body rest
  else rewritten (txt "images" ++ d) stem body rest.
Proof.
  intros Hpath Hstem He. unfold replace_img.
  destruct (group_tag_match ws body e rest) as (-> & -> & _ & ->).
  destruct (contains (txt "/thumbnails/") _); [done|]. simpl orb.
  destruct (image_exts_plain e He) as (Hs & Hd & _).
  unfold rsplit1. rewrite Hpath, rfind_split_app.
  2:{ rewrite elem_of_app. intros [?|?]; done. }
  rewrite rfind_split_app by done. cbn [hd].
  destruct (contains (txt "data-fullres=") rest); [done|]. cbn [negb].
  unfold rewritten. rewrite <- Hpath.
  destruct (contains (txt "loading=") rest); cbn [negb];
    rewrite <- ?app_assoc; repeat f_equal.
Qed.

(** A rewritten tag is again a tag the pattern matches, and one the callback
    leaves as it is -- provided the path holds no [>], which would end the
    rest of the new tag early. *)
Lemma replace_img_stable ws body e rest :
  tag_parts ws body e rest → gt ∉ body →
  ∃ ws' body' e' rest',
    tag_parts ws' body' e' rest' ∧
    replace_img (tag_match ws body e rest) = tag ws' body' rest' ∧
    replace_img (tag_match ws' body' e' rest') = tag ws' body' rest'.
Proof.
  intros Hp Hgt. pose proof Hp as (Hws & Hsp & Hdq & He & Hrest).
  destruct (path_split body e He) as (d & stem & Hpath & Hstem & Hd).
  pose proof He as [Hin _]%ext_of_Some.
  rewrite (replace_img_tag ws body e rest d stem) by done.
  destruct (contains (txt "/thumbnails/") (txt "images/" ++ body)
            || contains (txt "data-fullres=") rest) eqn:Hc.
  { exists ws, body, e, rest. split; [done|]. split; [done|].
    by rewrite (replace_img_tag ws body e rest d stem), Hc by done. }
  set (pre := match d with [] => [] | _ :: d' => d' ++ [slash] end).
  set (loading := if contains (txt "loading=") rest then []
                  else html " loading='lazy'").
  set (body' := pre ++ txt "thumbnails/" ++ stem ++ txt ".jpg").
  set (rest' := html " data-fullres='images/" ++ body ++ [dq] ++ rest ++ loading).
  assert (txt "images/" ++ body' =
          (txt "images" ++ d ++ txt "/thumbnails") ++ slash :: stem ++ dot :: txt "jpg")
    as Hpath'.
  { unfold body', pre. destruct Hd as [->|[d' ->]]; [done|].
    rewrite <- !app_assoc. done. }
  assert ((dq ∉ d) ∧ (dq ∉ stem)) as [Hdq1 Hdq2].
  { assert (dq ∉ txt "images/" ++ body) as Hn.
    { rewrite elem_of_app. intros [Hi|?]; [|done]. by vm_compute in Hi; set_solver. }
    rewrite Hpath in Hn. rewrite !elem_of_app, !elem_of_cons, !elem_of_app in Hn.
    naive_solver. }
  assert (gt ∉ loading) as Hl.
  { unfold loading.
    destruct (contains (txt "loading=") rest); [apply not_elem_of_nil|compute_done]. }
  exists [32%N], body', (txt "jpg"), rest'.
  assert (tag_parts [32%N] body' (txt "jpg") rest') as Hp'.
  { split; [done|]. split; [by repeat constructor|]. split; [|split].
    - unfold body', pre. rewrite !elem_of_app.
      intros [Hi|[Hi|[Hi|Hi]]];
        [|by vm_compute in Hi; set_solver|done|by vm_compute in Hi; set_solver].
      destruct Hd as [->|[d' ->]]; [set_solver|]. set_solver.
    - apply ext_of_Some. split; [compute_done|].
      exists (pre ++ txt "thumbnails/" ++ stem). split.
      + intros Hnil%(f_equal length). rewrite !length_app in Hnil. simpl in Hnil. lia.
      + unfold body'. rewrite <- !app_assoc. done.
    - unfold rest'. rewrite !elem_of_app.
      intros [Hi|[Hi|[Hi|[Hi|Hi]]]];
        [by vm_compute in Hi; set_solver|done|by vm_compute in Hi; set_solver|done|done]. }
  split; [done|]. split.
  - unfold rewritten, tag, rest', body', pre. fold loading.
    destruct Hd as [->|[d' ->]]; rewrite <- ?app_assoc; done.
  - rewrite (replace_img_tag _ _ _ _ (d ++ txt "/thumbnails") stem);
      [|by rewrite Hpath', <- !app_assoc|done|compute_done].
    replace (contains (txt "/thumbnails/") (txt "images/" ++ body')) with true; [done|].
    symmetry. rewrite Hpath'.
    replace ((txt "images" ++ d ++ txt "/thumbnails") ++ slash :: stem ++ dot :: txt "jpg")
      with ((txt "images" ++ d) ++ txt "/thumbnails/" ++ (stem ++ dot :: txt "jpg")).
    + apply contains_infix.
    + rewrite <- !app_assoc. done.
Qed.

End replace_facts.

(** ** A second pass over a rewritten document *)

Section gap_facts.
Import Gallery Tag.
Implicit Types (s p a b : text) (c : char) (g : gmap nat text).

Lemma strip_app_pre p pre c T t :
  strip p (pre ++ c :: T) = Some t → c ∉ p →
  ∃ pre', pre = p ++ pre' ∧ t = pre' ++ c :: T.
Proof.
  revert pre; induction p as [|x p IH]; intros pre; simpl.
  - intros [= <-] _. by exists pre.
  - destruct pre as [|y pre]; simpl.
    + destruct (N.eqb_spec x c) as [->|]; [|done]. set_solver.
    + destruct (N.eqb_spec x y) as [->|]; [|done]. intros Hs Hc.
      destruct (IH pre Hs) as (pre' & -> & ->); [set_solver|]. by exists pre'.
Qed.

Lemma span_app_pre f a c T w t :
  span f (a ++ c :: T) = (w, t) → f c = false →
  ∃ a2, a = w ++ a2 ∧ t = a2 ++ c :: T ∧ Forall (λ c, f c = true) w.
Proof.
  revert w; induction a as [|x a IH]; intros w; simpl.
  - intros Hs Hc. rewrite Hc in Hs. injection Hs as <- <-. by exists [].
  - destruct (f x) eqn:Hx.
    + destruct (span f (a ++ c :: T)) as [w' t'] eqn:Hs'. intros [= <- <-] Hc.
      destruct (IH w' eq_refl Hc) as (a2 & -> & -> & Hw). exists a2.
      split; [done|]. split; [done|]. by constructor.
    + intros [= <- <-] _. by exists (x :: a).
Qed.

Lemma span_elem f s c : c ∈ s → f c = false → (span f s).2 ≠ [].
Proof.
  intros Hin Hc. destruct (span f s) as [w t] eqn:Hs.
  apply span_spec in Hs as (-> & Hw & _). simpl. intros ->.
  rewrite app_nil_r in Hin. rewrite Forall_forall in Hw.
  specialize (Hw _ Hin). congruence.
Qed.

(** A text that ends in [=] has none of the extensions. *)
Lemma ext_of_eq_sign b1 ws : ext_of (b1 ++ txt "<img" ++ ws ++ txt "src=") = None.
Proof.
  destruct (ext_of _) as [e|] eqn:He; [|done].
  apply ext_of_Some in He as (He & X & _ & Heq).
  apply (f_equal (@rev char)) in Heq.
  rewrite !app_assoc, !rev_app_distr in Heq.
  revert He. unfold image_exts. rewrite !elem_of_cons, elem_of_nil.
  intros [->|[->|[->|[->|[->|[->|[]]]]]]]; vm_compute in Heq; simplify_eq.
Qed.

(** An attempt that starts before a tag and succeeds has read its opening,
    its path and the closing quote before it reaches the tag. *)
Lemma match_at_before_tag pre ws T :
  pre ≠ [] → Forall (λ c, isspace c = true) ws →
  is_Some (match_at (pre ++ txt "<img" ++ ws ++ html "src='" ++ T)) →
  ∃ w body e pre4,
    pre = txt "<img" ++ w ++ html "src='images/" ++ body ++ dq :: pre4 ∧
    w ≠ [] ∧ Forall (λ c, isspace c = true) w ∧ (dq ∉ body) ∧
    ext_of body = Some e.
Proof.
  intros Hpre Hws [[m r] Hm]. unfold match_at in Hm.
  destruct pre as [|c pre]; [done|].
  change ((c :: pre) ++ txt "<img" ++ ws ++ html "src='" ++ T)
    with (c :: pre ++ lt :: txt "img" ++ ws ++ html "src='" ++ T) in Hm.
  change (txt "<img") with (lt :: txt "img") in Hm. cbn [strip] in Hm.
  destruct (N.eqb_spec lt c) as [<-|]; [|done].
  destruct (strip _ _) as [t1|] eqn:H1 in Hm; [|done].
  apply strip_app_pre in H1 as (pre1 & -> & ->); [|compute_done].
  destruct (span isspace _) as [w t2] eqn:H2 in Hm.
  apply span_app_pre in H2 as (pre2 & -> & -> & Hw); [|done].
  destruct w as [|w0 w]; [done|].
  destruct (strip _ _) as [t3|] eqn:H3 in Hm; [|done].
  apply strip_app_pre in H3 as (pre3 & -> & ->); [|compute_done].
  destruct (decide (dq ∈ pre3)) as [Hin|Hnin].
  - apply list_elem_of_split_l in Hin as (body & pre4 & -> & Hbody).
    rewrite <- app_assoc in Hm. rewrite (span_app not_dq body) in Hm.
    2:{ by apply Forall_not_dq. }
    2:{ by intros ? ? [= <- _]. }
    cbn [app] in Hm. destruct (ext_of body) as [e|] eqn:He; [|done].
    exists (w0 :: w), body, e, pre4. split; [|done].
    change (txt "<img") with (lt :: txt "img"). by rewrite <- ?app_assoc.
  - exfalso.
    replace (pre3 ++ lt :: txt "img" ++ ws ++ html "src='" ++ T)
      with ((pre3 ++ txt "<img" ++ ws ++ txt "src=") ++ dq :: T) in Hm
      by (by rewrite <- !app_assoc).
    rewrite (span_app not_dq) in Hm.
    + by rewrite ext_of_eq_sign in Hm.
    + apply Forall_not_dq. rewrite !elem_of_app.
      intros [?|[Hi|[Hi|Hi]]];
        [done|by vm_compute in Hi; set_solver| |by vm_compute in Hi; set_solver].
      rewrite Forall_forall in Hws. by specialize (Hws _ Hi).
    + by intros ? ? [= <- _].
Qed.

(** Such an attempt succeeds on whatever follows, as long as a [>] comes. *)
Lemma match_at_open w body e pre4 Y :
  w ≠ [] → Forall (λ c, isspace c = true) w → dq ∉ body →
  ext_of body = Some e → gt ∈ Y →
  is_Some (match_at ((txt "<img" ++ w ++ html "src='images/" ++ body ++
                      dq :: pre4) ++ Y)).
Proof.
  intros Hw Hsp Hbody He HY.
  destruct (span not_gt (pre4 ++ Y)) as [rest t] eqn:Hs.
  pose proof (span_elem not_gt (pre4 ++ Y) gt) as Hne.
  rewrite Hs in Hne. apply span_spec in Hs as (Heq & Hrest & Hhd).
  destruct t as [|x t]; [destruct Hne; [set_solver|done|done]|].
  assert (x = gt) as -> by (apply not_gt_false; eauto).
  replace ((txt "<img" ++ w ++ html "src='images/" ++ body ++ dq :: pre4) ++ Y)
    with (tag w body rest ++ t).
  - rewrite (match_at_tag w body e rest t); [done|].
    split; [done|]. split; [done|]. split; [done|]. split; [done|].
    by apply Forall_not_gt.
  - unfold tag. rewrite <- !app_assoc. do 4 f_equal. simpl. f_equal.
    done.
Qed.


(** An attempt that fails before a tag still fails when the tag has been
    rewritten and the text after it has changed. *)
Lemma match_at_gap pre ws body e rest r r' :
  pre ≠ [] → tag_parts ws body e rest → (gt ∉ body) →
  match_at (pre ++ tag ws body rest ++ r) = None →
  match_at (pre ++ replace_img (tag_match ws body e rest) ++ r') = None.
Proof.
  intros Hpre Hp Hgt Hnone.
  destruct (replace_img_stable ws body e rest Hp Hgt)
    as (ws' & body' & e' & rest' & Hp' & -> & _).
  destruct (match_at (pre ++ tag ws' body' rest' ++ r')) as [mr|] eqn:Hm; [|done].
  exfalso.
  destruct (match_at_before_tag pre ws'
              (txt "images/" ++ body' ++ [dq] ++ rest' ++ [gt] ++ r'))
    as (w & b & e0 & pre4 & -> & Hw & Hsp & Hb & He0).
  - done.
  - apply Hp'.
  - exists mr. rewrite <- Hm. f_equal. unfold tag. by rewrite <- !app_assoc.
  - destruct (match_at_open w b e0 pre4 (tag ws body rest ++ r))
      as [x Hx]; [done..| |congruence].
    unfold tag. rewrite !elem_of_app. set_solver.
Qed.

Lemma finditer_nil : finditer [] = [].
Proof. done. Qed.

(** The safe documents: no path a tag is matched with holds a [>]. *)
Lemma re_sub_gap pre s :
  pre ≠ [] → Forall (λ m, gt ∉ group m 1) (finditer s) →
  match_at (pre ++ s) = None → match_at (pre ++ re_sub s) = None.
Proof.
  revert pre. induction s as [|c s Hc IH|ws body e rest r Hp IH] using scan_ind;
    intros pre Hpre Hsafe Hnone.
  - done.
  - rewrite (re_sub_keep _ _ Hc). rewrite (finditer_keep _ _ Hc) in Hsafe.
    rewrite (cons_middle c pre), app_assoc in *. apply IH; [|done|done].
    by destruct pre.
  - pose proof (match_at_tag ws body e rest r Hp) as Hm.
    rewrite (re_sub_hit _ _ _ Hm). rewrite (finditer_hit _ _ _ Hm) in Hsafe.
    apply Forall_cons in Hsafe as [Hgt Hsafe].
    destruct (group_tag_match ws body e rest) as (_ & Hg1 & _).
    rewrite Hg1 in Hgt.
    apply (match_at_gap pre ws body e rest r); [done|done| |done].
    intros Hin. apply Hgt. set_solver.
Qed.

(** On a safe document a second substitution changes nothing. *)
Lemma re_sub_idempotent s :
  Forall (λ m, gt ∉ group m 1) (finditer s) → re_sub (re_sub s) = re_sub s.
Proof.
  induction s as [|c s Hc IH|ws body e rest r Hp IH] using scan_ind;
    intros Hsafe.
  - done.
  - rewrite (finditer_keep _ _ Hc) in Hsafe.
    rewrite (re_sub_keep _ _ Hc).
    rewrite re_sub_keep, IH; [done|done|].
    apply (re_sub_gap [c] s); done.
  - pose proof (match_at_tag ws body e rest r Hp) as Hm.
    rewrite (re_sub_hit _ _ _ Hm). rewrite (finditer_hit _ _ _ Hm) in Hsafe.
    apply Forall_cons in Hsafe as [Hgt Hsafe].
    destruct (group_tag_match ws body e rest) as (_ & Hg1 & _).
    rewrite Hg1 in Hgt.
    destruct (replace_img_stable ws body e rest Hp)
      as (ws' & body' & e' & rest' & Hp' & -> & Hst).
    { intros Hin. apply Hgt. set_solver. }
    rewrite (re_sub_hit _ _ _ (match_at_tag ws' body' e' rest' _ Hp')).
    by rewrite Hst, IH.
Qed.

End gap_facts.

(** ** A run of the rewriter *)

Section run_facts.
Import Gallery Tag Run.
Implicit Types (w : world) (f : text) (fs : list text).

Lemma update_unfold p w :
  update_gallery_html p w =
  match files w !! p with
  | None => (w, inl (FileNotFoundError p))
  | Some Directory => (w, inl (IsADirectoryError p))
  | Some (Regular None _ _) => (w, inl (UnicodeDecodeError p))
  | Some (Regular (Some t) _ writable) =>
      if bool_decide (re_sub t ≠ t) then
        if writable then
          (World (<[p := Regular (Some (re_sub t)) (clock w) true]> (files w))
                 (S (clock w)) (stdout w), inr true)
        else (w, inl (PermissionError p))
      else (w, inr false)
  end.
Proof.
  unfold update_gallery_html, mbind, M_bind, read_text, write_text, mret, M_ret.
  destruct (files w !! p) as [[|[t|] mt wr]|] eqn:Hp; try done.
  destruct (bool_decide (re_sub t ≠ t)); [|done].
  rewrite Hp. by destruct wr.
Qed.

Lemma main_loop_cons f fs n w :
  main_loop (f :: fs) n w =
  match files w !! [f] with
  | None => main_loop fs n (put_line (line_not_found f) w)
  | Some _ =>
      match update_gallery_html [f] w with
      | (w1, inr true) => main_loop fs (S n) (put_line (line_updated f) w1)
      | (w1, inr false) => main_loop fs n (put_line (line_no_change f) w1)
      | (w1, inl e) => (w1, inl e)
      end
  end.
Proof.
  cbn [main_loop]. unfold mbind, M_bind, exists_, print, put_line.
  destruct (files w !! [f]) as [nd|] eqn:Hf.
  - rewrite bool_decide_eq_true_2 by eauto.
    destruct (update_gallery_html [f] w) as [w1 [e|[|]]]; done.
  - rewrite bool_decide_eq_false_2; [done|]. by intros [? ?].
Qed.

(** What [fault], [changes] and [report] say of a file depends on that file
    only. *)
Lemma file_agree w w' f :
  files w' !! [f] = files w !! [f] →
  fault w' f = fault w f ∧ changes w' f = changes w f ∧
  report w' f = report w f.
Proof. unfold report, fault, changes. by intros ->. Qed.

Lemma filter_agree {A} (P Q : A → Prop) `{!∀ x, Decision (P x)}
    `{!∀ x, Decision (Q x)} (l : list A) :
  (∀ x, x ∈ l → P x ↔ Q x) → filter P l = filter Q l.
Proof.
  induction l as [|x l IH]; [done|]. intros HPQ. rewrite !filter_cons.
  rewrite IH by (intros y Hy; apply HPQ; set_solver).
  destruct (decide (P x)) as [HP|HP], (decide (Q x)) as [HQ|HQ]; try done.
  - destruct HQ. apply HPQ; [set_solver|done].
  - destruct HP. apply HPQ; [set_solver|done].
Qed.

(** One file without a fault: its line is printed, and no other file is
    touched. *)
Lemma main_loop_step f fs n w :
  fault w f = None →
  ∃ w1, main_loop (f :: fs) n w =
          main_loop fs (if changes w f then S n else n) w1 ∧
        stdout w1 = stdout w ++ [report w f] ∧
        ∀ g, g ≠ f → files w1 !! [g] = files w !! [g].
Proof.
  intros Hf. rewrite main_loop_cons, update_unfold.
  unfold report, fault, changes in *.
  destruct (files w !! [f]) as [[|[t|] mt wr]|] eqn:Hw; try done.
  - destruct (bool_decide (re_sub t ≠ t)) eqn:Hc.
    + destruct wr; [|done]. eexists. split; [done|]. split; [done|].
      intros g Hg. simpl. rewrite lookup_insert_ne; [done|congruence].
    + eexists. split; [done|]. split; [done|]. done.
  - eexists. split; [done|]. split; [done|]. done.
Qed.

Lemma main_loop_ok fs n w :
  NoDup fs → (∀ g, g ∈ fs → fault w g = None) →
  ∃ w', main_loop fs n w = (w', inr (n + length (filter (λ g, changes w g = true) fs))) ∧
        stdout w' = stdout w ++ (report w <$> fs).
Proof.
  revert n w; induction fs as [|f fs IH]; intros n w Hnd Hok.
  - exists w. cbn. rewrite Nat.add_0_r, app_nil_r. done.
  - apply NoDup_cons in Hnd as [Hf Hnd].
    destruct (main_loop_step f fs n w) as (w1 & -> & Hout & Hfr).
    { apply Hok. set_solver. }
    assert (∀ g, g ∈ fs → files w1 !! [g] = files w !! [g]) as Hsame.
    { intros g Hg. apply Hfr. set_solver. }
    destruct (IH (if changes w f then S n else n) w1 Hnd) as (w' & -> & Hout').
    { intros g Hg. destruct (file_agree w w1 g (Hsame g Hg)) as (-> & _).
      apply Hok. set_solver. }
    exists w'. split.
    + do 2 f_equal. rewrite filter_cons.
      replace (filter (λ g, changes w1 g = true) fs)
        with (filter (λ g, changes w g = true) fs).
      * destruct (decide (changes w f = true)) as [Hc|Hc].
        -- rewrite Hc. simpl. lia.
        -- apply not_true_is_false in Hc. by rewrite Hc.
      * apply filter_agree. intros g Hg.
        by destruct (file_agree w w1 g (Hsame g Hg)) as (_ & -> & _).
    + rewrite Hout', Hout, <- app_assoc. simpl. do 2 f_equal.
      apply Forall_fmap_ext, Forall_forall. intros g Hg.
      by destruct (file_agree w w1 g (Hsame g Hg)) as (_ & _ & ->).
Qed.

Lemma main_loop_raises pre f post n w e :
  NoDup (pre ++ f :: post) → (∀ g, g ∈ pre → fault w g = None) →
  fault w f = Some e →
  ∃ w', main_loop (pre ++ f :: post) n w = (w', inl e) ∧
        stdout w' = stdout w ++ (report w <$> pre) ∧
        ∀ g, g ∈ post → files w' !! [g] = files w !! [g].
Proof.
  revert n w; induction pre as [|p pre IH]; intros n w Hnd Hok Hf.
  - exists w. cbn [app fmap list_fmap]. rewrite main_loop_cons, update_unfold, app_nil_r.
    unfold fault in Hf.
    destruct (files w !! [f]) as [[|[t|] mt wr]|]; try done.
    + by simplify_eq.
    + destruct (bool_decide (re_sub t ≠ t)), wr; simpl in Hf; by simplify_eq.
    + by simplify_eq.
  - simpl in Hnd. apply NoDup_cons in Hnd as [Hp Hnd].
    destruct (main_loop_step p (pre ++ f :: post) n w) as (w1 & Heq & Hout & Hfr).
    { apply Hok. set_solver. }
    cbn [app]. rewrite Heq.
    assert (∀ g, g ∈ pre ++ f :: post → files w1 !! [g] = files w !! [g]) as Hsame.
    { intros g Hg. apply Hfr. set_solver. }
    destruct (IH (if changes w p then S n else n) w1 Hnd) as (w' & -> & Hout' & Hpost).
    { intros g Hg. destruct (file_agree w w1 g) as (-> & _); [apply Hsame; set_solver|].
      apply Hok. set_solver. }
    { destruct (file_agree w w1 f) as (-> & _); [apply Hsame; set_solver|done]. }
    exists w'. split; [done|]. split.
    + rewrite Hout', Hout, <- app_assoc. simpl. do 2 f_equal.
      apply Forall_fmap_ext, Forall_forall. intros g Hg.
      destruct (file_agree w w1 g) as (_ & _ & ->); [apply Hsame; set_solver|done].
    + intros g Hg. rewrite Hpost by done. apply Hsame. set_solver.
Qed.

End run_facts.

(** ** The HTML rewriter: the claims *)

Section gallery_claims.
Import Gallery Tag Run.

(** C1, as amended.  For a tag the pattern matches whose path holds no
    [/thumbnails/]: the path is a directory, a slash, a stem, a dot and one
    of the six extensions.  When the rest of the tag holds no
    [data-fullres=], the callback returns the tag with [src] set to
    directory + [/thumbnails/] + stem + [.jpg], a [data-fullres] attribute
    that carries the original path, the rest of the tag as it was, and
    [loading=lazy] added unless the rest holds [loading=].  When the rest
    already holds [data-fullres=], the callback returns the tag unchanged:
    no second [data-fullres], and [src] is not rewritten either. *)
Theorem replace_img_matched s m r :
  re_match pattern s = Some (m, r) →
  contains (txt "/thumbnails/") (group m 1) = false →
  ∃ dir stem,
    group m 1 = dir ++ slash :: stem ++ dot :: group m 2 ∧
    (slash ∉ stem) ∧ group m 2 ∈ image_exts ∧
    replace_img m =
      if contains (txt "data-fullres=") (group m 3) then group m 0
      else html "<img src='" ++ dir ++ txt "/thumbnails/" ++ stem ++
           txt ".jpg" ++ html "' data-fullres='" ++ group m 1 ++ [dq] ++
           group m 3 ++
           (if contains (txt "loading=") (group m 3) then []
            else html " loading='lazy'") ++ [gt].
Proof.
  rewrite re_match_pattern.
  intros (ws & body & e & rest & Hp & -> & ->)%match_at_inv Hth.
  destruct (group_tag_match ws body e rest) as (H0 & H1 & H2 & H3).
  rewrite H0, H1, H2, H3. rewrite H1 in Hth. clear H0 H1 H2 H3.
  destruct Hp as (_ & _ & _ & He & _).
  destruct (path_split body e He) as (d & stem & Hpath & Hstem & _).
  pose proof He as [Hin _]%ext_of_Some.
  exists (txt "images" ++ d), stem. split; [done|]. split; [done|].
  split; [done|].
  rewrite (replace_img_tag ws body e rest d stem), Hth by done. simpl orb.
  destruct (contains (txt "data-fullres=") rest); [done|].
  unfold rewritten. rewrite <- !app_assoc. done.
Qed.

Lemma replace_img_matched_witness :
  ∃ dir stem,
    txt "images/a/b.jpg" = dir ++ slash :: stem ++ dot :: txt "jpg" ∧
    (slash ∉ stem) ∧ txt "jpg" ∈ image_exts ∧
    replace_img (tag_match [32%N] (txt "a/b.jpg") (txt "jpg") (html " alt='x'")) =
      html "<img src='" ++ dir ++ txt "/thumbnails/" ++ stem ++
      txt ".jpg" ++ html "' data-fullres='" ++ txt "images/a/b.jpg" ++ [dq] ++
      html " alt='x'" ++ html " loading='lazy'" ++ [gt].
Proof.
  apply (replace_img_matched (html "<img src='images/a/b.jpg' alt='x'>")
           (tag_match [32%N] (txt "a/b.jpg") (txt "jpg") (html " alt='x'")) []);
    vm_compute; reflexivity.
Defined.

(** C1 as stated fails: a matched tag under [images/], without a thumbnails
    segment, that already has [data-fullres] is returned as it is, with its
    [src] still the original path. *)
Lemma data_fullres_tag_unchanged :
  let doc := html "<img src='images/a/b.jpg' data-fullres='images/a/b.jpg'>" in
  ∃ m, re_match pattern doc = Some (m, []) ∧
       contains (txt "/thumbnails/") (group m 1) = false ∧
       replace_img m = doc ∧
       startswith (html "<img src='images/a/thumbnails/b.jpg'") (replace_img m)
         = false ∧
       re_sub doc = doc.
Proof.
  eexists. split; [vm_compute; reflexivity|]. vm_compute. done.
Qed.




(** C5, as amended.  Take a file the rewriter can read and write, in which
    no path of a matched tag holds a [>].  The first call leaves in it the
    substituted text; a second call then finds nothing to change, reports
    no change, and leaves the whole world as it was: the file is not
    written and its modification time stays.  (With a [>] inside a matched
    path a second pass can find a tag the first one read over.) *)
Theorem update_gallery_html_twice w p t mt :
  files w !! p = Some (Regular (Some t) mt true) →
  Forall (λ m, gt ∉ group m 1) (finditer t) →
  ∃ w1 changed mt1,
    update_gallery_html p w = (w1, inr changed) ∧
    files w1 !! p = Some (Regular (Some (re_sub t)) mt1 true) ∧
    re_sub (re_sub t) = re_sub t ∧
    update_gallery_html p w1 = (w1, inr false).
Proof.
  intros Hp Hsafe. pose proof (re_sub_idempotent t Hsafe) as Hidem.
  rewrite update_unfold, Hp.
  destruct (bool_decide (re_sub t ≠ t)) eqn:Hc.
  - eexists _, true, (clock w). split; [done|]. cbn [files].
    rewrite lookup_insert_eq. split; [done|]. split; [done|].
    rewrite update_unfold. cbn [files]. rewrite lookup_insert_eq.
    rewrite bool_decide_eq_false_2; [done|]. intros Hne. by apply Hne.
  - apply bool_decide_eq_false in Hc. apply dec_stable in Hc.
    exists w, false, mt. split; [done|]. rewrite Hc. split; [done|].
    split; [done|]. rewrite update_unfold, Hp.
    rewrite bool_decide_eq_false_2; [done|]. intros Hne. by apply Hne.
Qed.

Lemma update_gallery_html_twice_witness :
  let w := World {[ [txt "index.html"] :=
                      Regular (Some (html "<p><img src='images/a/b.png'></p>")) 0 true ]}
                 1 [] in
  ∃ w1 changed mt1,
    update_gallery_html [txt "index.html"] w = (w1, inr changed) ∧
    files w1 !! [txt "index.html"] =
      Some (Regular (Some (re_sub (html "<p><img src='images/a/b.png'></p>")))
                    mt1 true) ∧
    re_sub (re_sub (html "<p><img src='images/a/b.png'></p>")) =
      re_sub (html "<p><img src='images/a/b.png'></p>") ∧
    update_gallery_html [txt "index.html"] w1 = (w1, inr false).
Proof.
  intros w. apply (update_gallery_html_twice w _ _ 0).
  - vm_compute. reflexivity.
  - compute_done.
Defined.

(** C5 as stated fails: with a [>] inside the path of a matched tag, the
    second pass rewrites a tag that the first pass had read as part of the
    rest of another, so the second run changes the file again. *)
Lemma second_pass_changes :
  let doc := html "<img src='images/a>b/c.jpg' <img src='images/q.jpg'>" in
  let w := World {[ [txt "index.html"] := Regular (Some doc) 0 true ]} 1 [] in
  re_sub (re_sub doc) ≠ re_sub doc ∧
  ∃ w1 w2,
    update_gallery_html [txt "index.html"] w = (w1, inr true) ∧
    update_gallery_html [txt "index.html"] w1 = (w2, inr true) ∧
    files w2 !! [txt "index.html"] ≠ files w1 !! [txt "index.html"].
Proof.
  split; [by vm_compute|].
  eexists _, _. split; [vm_compute; reflexivity|].
  split; [vm_compute; reflexivity|]. by vm_compute.
Qed.

Lemma gallery_files_NoDup : NoDup gallery_files.
Proof. compute_done. Qed.

Lemma main_unfold w :
  main w =
  match main_loop gallery_files 0 (put_line line_rule (put_line line_banner w)) with
  | (w1, inr updated) =>
      (put_line line_lightbox (put_line line_faster
         (put_line (line_summary updated) (put_line line_rule w1))), inr ())
  | (w1, inl e) => (w1, inl e)
  end.
Proof.
  unfold main, mbind, M_bind, print, put_line. cbn [files clock stdout].
  by destruct (main_loop gallery_files 0 _) as [w1 [e|n]].
Qed.

(** C2, as amended.  The rewriter has no exception handler.  A configured
    file that is missing is reported and skipped.  When no configured file
    raises (none is a directory, or not UTF-8, or unwritable while it has to
    be rewritten), the run completes: it prints one line per configured
    file and then the summary with the number of files rewritten.  When a
    configured file raises, the exception leaves [main]: the lines of the
    files before it have been printed, no summary is printed, and the
    files after it are left as they were. *)
Theorem main_outcome w :
  ((∀ g, g ∈ gallery_files → fault w g = None) →
   ∃ w', main w = (w', inr ()) ∧
         stdout w' =
           stdout w ++ [line_banner; line_rule] ++
           (report w <$> gallery_files) ++
           [line_rule;
            line_summary (length (filter (λ g, changes w g = true) gallery_files));
            line_faster; line_lightbox]) ∧
  (∀ pre f post e,
     gallery_files = pre ++ f :: post →
     (∀ g, g ∈ pre → fault w g = None) → fault w f = Some e →
     ∃ w', main w = (w', inl e) ∧
           stdout w' = stdout w ++ [line_banner; line_rule] ++ (report w <$> pre) ∧
           ∀ g, g ∈ post → files w' !! [g] = files w !! [g]).
Proof.
  set (w0 := put_line line_rule (put_line line_banner w)).
  split.
  - intros Hok.
    destruct (main_loop_ok gallery_files 0 w0 gallery_files_NoDup)
      as (w1 & Hrun & Hout); [done|].
    rewrite main_unfold. fold w0. rewrite Hrun. eexists. split; [done|].
    cbn [stdout put_line]. rewrite Hout. unfold w0. cbn [stdout put_line].
    rewrite <- !app_assoc. done.
  - intros pre f post e Hfiles Hok Hf.
    destruct (main_loop_raises pre f post 0 w0 e)
      as (w1 & Hrun & Hout & Hpost); [|done..|].
    { rewrite <- Hfiles. apply gallery_files_NoDup. }
    rewrite main_unfold. fold w0. rewrite Hfiles, Hrun.
    exists w1. split; [done|]. split; [|done].
    rewrite Hout. unfold w0. cbn [stdout put_line].
    rewrite <- !app_assoc. done.
Qed.

Lemma main_outcome_witness :
  let w := World {[ [txt "index.html"] :=
                      Regular (Some (html "<img src='images/a/b.png'>")) 0 true ]}
                 1 [] in
  ∃ w', main w = (w', inr ()) ∧
        stdout w' =
          stdout w ++ [line_banner; line_rule] ++
          (report w <$> gallery_files) ++
          [line_rule;
           line_summary (length (filter (λ g, changes w g = true) gallery_files));
           line_faster; line_lightbox].
Proof.
  intros w. apply (proj1 (main_outcome w)).
  intros g Hg. unfold gallery_files in Hg.
  repeat (apply elem_of_cons in Hg as [->|Hg]; [by vm_compute|]).
  by apply elem_of_nil in Hg.
Defined.

(** C2 as stated fails: when the first configured name is a directory,
    opening it raises, the exception leaves [main], the summary is not
    printed and the page after it is not processed. *)
Lemma main_aborts_on_directory :
  let page := Regular (Some (html "<img src='images/a/b.png'>")) 0 true in
  let w := World {[ [txt "index.html"] := Directory;
                    [txt "adlad.html"] := page ]} 1 [] in
  ∃ w', main w = (w', inl (IsADirectoryError [txt "index.html"])) ∧
        stdout w' = [line_banner; line_rule] ∧
        files w' !! [txt "adlad.html"] = Some page.
Proof. eexists. split; [vm_compute; reflexivity|]. by vm_compute. Qed.

End gallery_claims.

(** ** The size of a thumbnail *)

Section size_facts.
Import Thumbs.
Local Open Scope Z_scope.




End size_facts.

(** ** Images and [create_thumbnail] *)

Section image_facts.
Import Thumbs Batch.
Local Open Scope Z_scope.
Context `{Pillow}.

Lemma split_alpha img :
  im_mode img = RGBA →
  split img !! 3%nat =
    Some (Image L (im_size img) ((λ px, [nth 3 px 0]) <$> im_data img) []).
Proof. unfold split. by intros ->. Qed.

Lemma to_rgb_mode img : im_mode (to_rgb img) = RGB.
Proof.
  unfold to_rgb. destruct (decide (im_mode img = RGBA)) as [Ha|Ha].
  - by rewrite (split_alpha img Ha).
  - destruct (decide (im_mode img ≠ RGB)) as [Hr|Hr]; [done|].
    by apply dec_stable in Hr.
Qed.

Lemma to_rgb_size img : im_size (to_rgb img) = im_size img.
Proof.
  unfold to_rgb. destruct (decide (im_mode img = RGBA)) as [Ha|Ha].
  - by rewrite (split_alpha img Ha).
  - by destruct (decide (im_mode img ≠ RGB)).
Qed.

Lemma thumbnail_mode img size : im_mode (thumbnail img size) = im_mode img.
Proof.
  unfold thumbnail. destruct (preserve_aspect_ratio size (im_size img)); [|done].
  by destruct (decide _).
Qed.


Lemma prepared_mode img : im_mode (prepared img) = RGB.
Proof. unfold prepared. by rewrite thumbnail_mode, to_rgb_mode. Qed.

End image_facts.

Section create_facts.
Import Thumbs Batch.
Local Open Scope Z_scope.
Context `{Pillow}.

(** [create_thumbnail] step by step. *)
Lemma create_thumbnail_unfold src dst w :
  create_thumbnail src dst MAX_SIZE QUALITY w =
  match fs w !! src with
  | Some (File (Picture _ img) _) =>
      match fs w !! dst, fs w !! parent dst with
      | Some (Dir _), _ =>
          (put_line (LError src (IsADirectoryError dst)) w, inr false)
      | _, Some (Dir es) =>
          let m := <[dst := File (Picture JPEG (prepared img))
                                 (jpeg_size (prepared img) QUALITY true)]>
                     (<[parent dst := Dir (add_entry (name dst) es)]> (fs w)) in
          match m !! src with
          | None =>
              (World m (stdout w ++ [LError src (FileNotFoundError src)]),
               inr false)
          | Some nd =>
              (World m (stdout w ++
                 [LCreated (name src);
                  LSizes (match nd with File _ s => s | Dir _ => 4096%positive end)
                         (jpeg_size (prepared img) QUALITY true)]), inr true)
          end
      | _, Some (File _ _) =>
          (put_line (LError src (NotADirectoryError dst)) w, inr false)
      | _, None =>
          (put_line (LError src (FileNotFoundError dst)) w, inr false)
      end
  | Some (File Corrupt _) => (put_line (LError src (ImageError src)) w, inr false)
  | Some (Dir _) => (put_line (LError src (IsADirectoryError src)) w, inr false)
  | None => (put_line (LError src (FileNotFoundError src)) w, inr false)
  end.
Proof.
  unfold create_thumbnail, try_except, mbind, M_bind, image_open, print,
    mret, M_ret, put_line.
  destruct (fs w !! src) as [[es|[fmt img|] sz]|] eqn:Hsrc; try done.
  fold (prepared img). unfold image_save.
  rewrite bool_decide_eq_true_2 by (right; apply prepared_mode).
  destruct (fs w !! dst) as [[es|d sz']|] eqn:Hdst,
           (fs w !! parent dst) as [[es'|d' sz'']|] eqn:Hpar; try done;
    unfold getsize; cbn [fs stdout];
    (match goal with
     | |- context [(<[?d := ?x]> ?m) !! src] =>
         destruct ((<[d := x]> m) !! src) as [[?|??]|]
     end);
    cbn [fs stdout]; rewrite ?lookup_insert_eq; cbn [fs stdout];
    by rewrite <- ?app_assoc.
Qed.

End create_facts.

(** ** One directory *)

Section batch_facts.
Import Thumbs Batch.
Context `{Pillow}.
Implicit Types (m : gmap path node) (d : path) (nm : text) (w : world).

Lemma parent_dest d nm : parent (dest d nm) = thumbs_of d.
Proof. unfold parent, dest. apply removelast_last. Qed.

Lemma name_dest d nm : name (dest d nm) = stem nm ++ txt ".jpg".
Proof. unfold name, dest. apply last_last. Qed.

Lemma name_entry d nm : name (d ++ [nm]) = nm.
Proof. unfold name. apply last_last. Qed.

Lemma entry_ne_dest d nm nm' : d ++ [nm] ≠ dest d nm'.
Proof.
  intros Heq%(f_equal length). unfold dest, thumbs_of in Heq.
  rewrite !length_app in Heq. simpl in Heq. lia.
Qed.

Lemma thumbs_ne_dest d nm : thumbs_of d ≠ dest d nm.
Proof.
  intros Heq%(f_equal length). unfold dest in Heq.
  rewrite !length_app in Heq. simpl in Heq. lia.
Qed.

(** [create_thumbnail] always returns. *)
Lemma create_thumbnail_returns src dst w :
  ∃ w' ok, create_thumbnail src dst MAX_SIZE QUALITY w = (w', inr ok).
Proof.
  rewrite create_thumbnail_unfold.
  destruct (fs w !! src) as [[?|[??|] ?]|]; try by eexists _, _.
  destruct (fs w !! dst) as [[?|??]|], (fs w !! parent dst) as [[?|??]|];
    try by eexists _, _.
  all: cbv zeta; match goal with
       | |- context [match ?x with Some _ => _ | None => _ end] => destruct x
       end; by eexists _, _.
Qed.

(** [create_thumbnail] on a selected entry of a directory whose thumbnails
    directory exists. *)
Lemma create_thumbnail_entry d nm w es :
  fs w !! thumbs_of d = Some (Dir es) →
  selected (fs w) d nm = true →
  create_thumbnail (d ++ [nm]) (dest d nm) MAX_SIZE QUALITY w =
  match entry_result (fs w) d nm with
  | inr (out, size) =>
      (World (<[dest d nm := File (Picture JPEG out) (jpeg_size out QUALITY true)]>
                (<[thumbs_of d := Dir (add_entry (name (dest d nm)) es)]> (fs w)))
             (stdout w ++ [LCreated nm; LSizes size (jpeg_size out QUALITY true)]),
       inr true)
  | inl e => (put_line (LError (d ++ [nm]) e) w, inr false)
  end.
Proof.
  intros Htd [_ Hreg]%andb_true_iff.
  rewrite create_thumbnail_unfold, parent_dest, Htd. unfold entry_result.
  destruct (fs w !! (d ++ [nm])) as [[?|[fmt img|] sz]|] eqn:Hsrc; try done.
  destruct (fs w !! dest d nm) as [[?|??]|] eqn:Hdst; simpl; try done.
  all: rewrite lookup_insert_ne by (symmetry; apply entry_ne_dest).
  all: rewrite lookup_insert_ne by congruence.
  all: by rewrite Hsrc, name_entry.
Qed.

(** A thumbnail written leaves every entry of the directory as it was for
    the loop. *)
Lemma write_same_view m d nm0 nd es es' :
  m !! thumbs_of d = Some (Dir es) →
  is_dir (m !! dest d nm0) = false →
  let m' := <[dest d nm0 := File nd.1 nd.2]> (<[thumbs_of d := Dir es']> m) in
  ∀ nm, selected m' d nm = selected m d nm ∧
        entry_result m' d nm = entry_result m d nm.
Proof.
  intros Htd Hdst m' nm.
  assert (m' !! (d ++ [nm]) = m !! (d ++ [nm]) ∨
          (d ++ [nm] = thumbs_of d ∧ m' !! (d ++ [nm]) = Some (Dir es'))) as Hsrc.
  { unfold m'. rewrite lookup_insert_ne by (symmetry; apply entry_ne_dest).
    destruct (decide (thumbs_of d = d ++ [nm])) as [Heq|Hne].
    - right. by rewrite <- Heq, lookup_insert_eq.
    - left. by rewrite lookup_insert_ne. }
  assert (is_dir (m' !! dest d nm) = is_dir (m !! dest d nm)) as Hd.
  { unfold m'. destruct (decide (dest d nm0 = dest d nm)) as [Heq|Hne].
    - by rewrite <- Heq, lookup_insert_eq, Hdst.
    - rewrite lookup_insert_ne by done.
      by rewrite lookup_insert_ne by apply thumbs_ne_dest. }
  unfold selected, entry_result. rewrite Hd.
  destruct Hsrc as [->|[Heq ->]]; [done|]. by rewrite Heq, Htd.
Qed.

Lemma same_view_entry m m' d nm :
  selected m' d nm = selected m d nm →
  entry_result m' d nm = entry_result m d nm →
  entry_lines m' d nm = entry_lines m d nm ∧
  entry_ok m' d nm = entry_ok m d nm ∧
  entry_write m' d nm = entry_write m d nm.
Proof. unfold entry_lines, entry_ok, entry_write. by intros -> ->. Qed.

Lemma after_writes_agree ws m m' p :
  m !! p = m' !! p → after_writes ws m !! p = after_writes ws m' !! p.
Proof.
  revert m m'; induction ws as [|[q nd] ws IH]; intros m m' Hp; [done|].
  apply IH. simpl. destruct (decide (q = p)) as [->|Hne].
  - by rewrite !lookup_insert_eq.
  - by rewrite !lookup_insert_ne.
Qed.

Lemma process_entries_cons d nm rest n w :
  process_entries d (thumbs_of d) (nm :: rest) n w =
  if selected (fs w) d nm then
    match create_thumbnail (d ++ [nm]) (dest d nm) MAX_SIZE QUALITY w with
    | (w1, inr ok) =>
        process_entries d (thumbs_of d) rest (if ok then S n else n) w1
    | (w1, inl e) => (w1, inl e)
    end
  else process_entries d (thumbs_of d) rest n w.
Proof.
  cbn [process_entries]. unfold mbind, M_bind, selected, is_file, mret, M_ret.
  destruct (bool_decide (suffix nm ∈ extensions)); [|done]. cbn [andb].
  destruct (fs w !! (d ++ [nm])) as [[?|??]|]; try done.
Qed.

Lemma entry_unselected m d nm :
  selected m d nm = false →
  entry_lines m d nm = [] ∧ entry_ok m d nm = false ∧ entry_write m d nm = None.
Proof. unfold entry_lines, entry_ok, entry_write. by intros ->. Qed.

Lemma entry_failed m d nm e :
  selected m d nm = true → entry_result m d nm = inl e →
  entry_lines m d nm = [LError (d ++ [nm]) e] ∧ entry_ok m d nm = false ∧
  entry_write m d nm = None.
Proof. unfold entry_lines, entry_ok, entry_write. by intros -> ->. Qed.

Lemma entry_made m d nm out size :
  selected m d nm = true → entry_result m d nm = inr (out, size) →
  entry_lines m d nm = [LCreated nm; LSizes size (jpeg_size out QUALITY true)] ∧
  entry_ok m d nm = true ∧
  entry_write m d nm =
    Some (dest d nm, File (Picture JPEG out) (jpeg_size out QUALITY true)).
Proof. unfold entry_lines, entry_ok, entry_write. by intros -> ->. Qed.

Lemma omap_agree {A B} (f g : A → option B) (l : list A) :
  (∀ x, f x = g x) → omap f l = omap g l.
Proof.
  intros Hfg. induction l as [|x l IH]; [done|]. cbn. by rewrite Hfg, IH.
Qed.

(** The loop over a listing: it returns, with the number of thumbnails made
    added to its counter; the lines of the entries are printed in order;
    what is written is what the entries write, one after the other. *)
Lemma process_entries_spec d entries n w es :
  fs w !! thumbs_of d = Some (Dir es) →
  ∃ w' es',
    process_entries d (thumbs_of d) entries n w =
      (w', inr (n + length (filter (λ nm, entry_ok (fs w) d nm = true) entries))) ∧
    stdout w' = stdout w ++ concat (entry_lines (fs w) d <$> entries) ∧
    fs w' !! thumbs_of d = Some (Dir es') ∧
    ∀ p, p ≠ thumbs_of d →
         fs w' !! p = after_writes (writes (fs w) d entries) (fs w) !! p.
Proof.
  revert n w es; induction entries as [|nm rest IH]; intros n w es Htd.
  { exists w, es. cbn. by rewrite Nat.add_0_r, app_nil_r. }
  rewrite process_entries_cons. rewrite filter_cons. cbn [fmap list_fmap concat].
  unfold writes. cbn [omap list_omap]. fold (writes (fs w) d rest).
  destruct (selected (fs w) d nm) eqn:Hsel.
  2:{ destruct (entry_unselected _ _ _ Hsel) as (-> & -> & ->).
      destruct (IH n w es Htd) as (w' & es' & -> & Hout & Htd' & Hfs).
      exists w', es'. rewrite decide_False by done. done. }
  rewrite (create_thumbnail_entry d nm w es Htd Hsel).
  destruct (entry_result (fs w) d nm) as [e|[out size]] eqn:Hres.
  - destruct (entry_failed _ _ _ _ Hsel Hres) as (-> & -> & ->).
    destruct (IH n (put_line (LError (d ++ [nm]) e) w) es Htd)
      as (w' & es' & -> & Hout & Htd' & Hfs).
    exists w', es'. rewrite decide_False by done. split; [done|].
    split; [|done]. rewrite Hout. cbn [put_line stdout fs].
    by rewrite <- app_assoc.
  - destruct (entry_made _ _ _ _ _ Hsel Hres) as (-> & -> & ->).
    set (nd := File (Picture JPEG out) (jpeg_size out QUALITY true)).
    set (m1 := <[dest d nm := nd]>
                 (<[thumbs_of d := Dir (add_entry (name (dest d nm)) es)]> (fs w))).
    assert (is_dir (fs w !! dest d nm) = false) as Hnd.
    { unfold entry_result in Hres.
      destruct (fs w !! (d ++ [nm])) as [[?|[??|] ?]|]; try done.
      by destruct (is_dir (fs w !! dest d nm)). }
    pose proof (write_same_view (fs w) d nm (Picture JPEG out, jpeg_size out QUALITY true)
                  es (add_entry (name (dest d nm)) es) Htd Hnd) as Hview.
    cbn [fst snd] in Hview. fold nd m1 in Hview.
    match goal with |- context [process_entries _ _ _ _ ?w1] =>
      destruct (IH (S n) w1 (add_entry (name (dest d nm)) es))
        as (w' & es' & -> & Hout & Htd' & Hfs) end.
    { cbn [fs]. unfold m1.
      rewrite lookup_insert_ne by (symmetry; apply thumbs_ne_dest).
      by rewrite lookup_insert_eq. }
    cbn [fs stdout] in *. fold m1 in Hfs, Hout |- *.
    assert (∀ x, entry_lines m1 d x = entry_lines (fs w) d x ∧
                 entry_ok m1 d x = entry_ok (fs w) d x ∧
                 entry_write m1 d x = entry_write (fs w) d x) as Hsame.
    { intros x. destruct (Hview x). by apply same_view_entry. }
    exists w', es'. rewrite decide_True by done. split; [|split; [|split]].
    + do 2 f_equal. cbn [length].
      replace (filter (λ x, entry_ok m1 d x = true) rest)
        with (filter (λ x, entry_ok (fs w) d x = true) rest); [lia|].
      apply filter_agree. intros x _. by destruct (Hsame x) as (_ & -> & _).
    + rewrite Hout, <- app_assoc. cbn [app]. do 4 f_equal.
      apply Forall_fmap_ext, Forall_forall. intros x _.
      by destruct (Hsame x) as (-> & _).
    + done.
    + intros p Hp. rewrite (Hfs p Hp). cbn [after_writes foldl fst snd].
      fold (after_writes (writes (fs w) d rest) (<[dest d nm := nd]> (fs w))).
      replace (writes m1 d rest) with (writes (fs w) d rest).
      2:{ unfold writes. apply omap_agree. intros x.
          by destruct (Hsame x) as (_ & _ & ->). }
      apply after_writes_agree. unfold m1.
      destruct (decide (dest d nm = p)) as [->|Hne].
      * by rewrite !lookup_insert_eq.
      * rewrite !(lookup_insert_ne _ (dest d nm)) by done.
        by rewrite lookup_insert_ne.
Qed.

Lemma parent_thumbs d : parent (thumbs_of d) = d.
Proof. unfold parent, thumbs_of. apply removelast_last. Qed.

Lemma name_thumbs d : name (thumbs_of d) = txt "thumbnails".
Proof. unfold name, thumbs_of. apply last_last. Qed.

Lemma thumbs_ne d : thumbs_of d ≠ d.
Proof.
  intros Heq%(f_equal length). unfold thumbs_of in Heq.
  rewrite length_app in Heq. simpl in Heq. lia.
Qed.

Lemma dest_ne d nm : dest d nm ≠ d.
Proof.
  intros Heq%(f_equal length). unfold dest, thumbs_of in Heq.
  rewrite !length_app in Heq. simpl in Heq. lia.
Qed.

Lemma entry_ne d nm : d ++ [nm] ≠ d.
Proof.
  intros Heq%(f_equal length). rewrite length_app in Heq. simpl in Heq. lia.
Qed.

Lemma thumbnails_unselected m d : selected m d (txt "thumbnails") = false.
Proof. done. Qed.

(** The thumbnails directory just made leaves every entry as it was for the
    loop. *)
Lemma mkdir_same_view m d (es' : list text) :
  m !! thumbs_of d = None →
  let m' := <[thumbs_of d := Dir []]> (<[d := Dir es']> m) in
  ∀ nm, entry_lines m' d nm = entry_lines m d nm ∧
        entry_ok m' d nm = entry_ok m d nm ∧
        entry_write m' d nm = entry_write m d nm.
Proof.
  intros Htd m' nm.
  destruct (decide (d ++ [nm] = thumbs_of d)) as [Heq|Hne].
  - assert (selected m' d nm = false ∧ selected m d nm = false) as [H1 H2].
    { unfold selected, m'. rewrite Heq, lookup_insert_eq, Htd.
      by rewrite !andb_false_r. }
    destruct (entry_unselected _ _ _ H1) as (-> & -> & ->).
    by destruct (entry_unselected _ _ _ H2) as (-> & -> & ->).
  - apply same_view_entry.
    + unfold selected, m'. rewrite lookup_insert_ne by done.
      by rewrite lookup_insert_ne by (symmetry; apply entry_ne).
    + unfold entry_result, m'. rewrite (lookup_insert_ne _ _ (d ++ [nm])) by done.
      rewrite (lookup_insert_ne _ _ (d ++ [nm])) by (symmetry; apply entry_ne).
      rewrite (lookup_insert_ne _ _ (dest d nm)) by apply thumbs_ne_dest.
      by rewrite (lookup_insert_ne _ _ (dest d nm)) by (symmetry; apply dest_ne).
Qed.

Lemma add_entry_thumbnails m d entries :
  let l := add_entry (txt "thumbnails") entries in
  concat (entry_lines m d <$> l) = concat (entry_lines m d <$> entries) ∧
  filter (λ nm, entry_ok m d nm = true) l =
    filter (λ nm, entry_ok m d nm = true) entries ∧
  writes m d l = writes m d entries.
Proof.
  unfold add_entry. destruct (bool_decide _); [done|]. cbn zeta.
  destruct (entry_unselected m d (txt "thumbnails") eq_refl) as (Hl & Hok & Hw).
  unfold writes. rewrite fmap_app, concat_app, filter_app, omap_app.
  cbn [fmap list_fmap concat omap list_omap].
  rewrite Hl, Hw, filter_cons, decide_False by (by rewrite Hok).
  by rewrite filter_nil, !app_nil_r.
Qed.

Lemma process_directory_unfold d w :
  process_directory d w =
  match fs w !! d with
  | None => (put_line (LDirNotFound d) w, inr ())
  | Some _ =>
      match mkdir_exist_ok (thumbs_of d) w with
      | (w1, inl e) => (w1, inl e)
      | (w1, inr _) =>
          let w2 := put_line LDashes (put_line (LProcessing d) w1) in
          match iterdir d w2 with
          | (w3, inl e) => (w3, inl e)
          | (w3, inr entries) =>
              match process_entries d (thumbs_of d) entries 0 w3 with
              | (w4, inl e) => (w4, inl e)
              | (w4, inr processed) =>
                  (put_line (LProcessed processed (name d)) w4, inr ())
              end
          end
      end
  end.
Proof.
  unfold process_directory, mbind, M_bind, exists_, print, put_line.
  destruct (fs w !! d) as [nd|] eqn:Hd.
  - rewrite bool_decide_eq_true_2 by eauto. cbn [negb].
    fold (thumbs_of d).
    destruct (mkdir_exist_ok (thumbs_of d) w) as [w1 [e|[]]]; [done|].
    cbn zeta. destruct (iterdir d _) as [w3 [e|entries]]; [done|].
    by destruct (process_entries d (thumbs_of d) entries 0 w3) as [w4 [e|n]].
  - rewrite bool_decide_eq_false_2; [done|]. by intros [??].
Qed.

(** A directory whose thumbnails directory exists or can be made: the run
    returns; it prints the header, the lines of the entries in the order of
    the listing, and the count of thumbnails made; outside the thumbnails
    directory it writes what the entries write. *)
Lemma process_directory_spec d w entries :
  fs w !! d = Some (Dir entries) →
  is_regular (fs w !! thumbs_of d) = false →
  ∃ w',
    process_directory d w = (w', inr ()) ∧
    stdout w' =
      stdout w ++ [LProcessing d; LDashes] ++
      concat (entry_lines (fs w) d <$> entries) ++
      [LProcessed (length (filter (λ nm, entry_ok (fs w) d nm = true) entries))
                  (name d)] ∧
    ∀ p, p ≠ thumbs_of d → p ≠ d →
         fs w' !! p = after_writes (writes (fs w) d entries) (fs w) !! p.
Proof.
  intros Hd Htd. rewrite process_directory_unfold, Hd.
  unfold mkdir_exist_ok, iterdir. rewrite parent_thumbs, Hd.
  destruct (fs w !! thumbs_of d) as [[es|??]|] eqn:Ht; [|done|].
  - cbn zeta. cbn [put_line fs]. rewrite Hd.
    match goal with |- context [process_entries _ _ _ _ ?w1] =>
      destruct (process_entries_spec d entries 0 w1 es Ht)
        as (w' & es' & -> & Hout & _ & Hfs) end.
    eexists. split; [done|]. cbn [put_line stdout fs] in *.
    split; [|by intros p Hp _; apply Hfs].
    rewrite Hout, <- !app_assoc. done.
  - cbn zeta. cbn [put_line fs stdout].
    rewrite lookup_insert_ne by apply thumbs_ne. rewrite lookup_insert_eq.
    set (l := add_entry (name (thumbs_of d)) entries).
    set (m1 := <[thumbs_of d := Dir []]> (<[d := Dir l]> (fs w))).
    match goal with |- context [process_entries _ _ _ _ ?w1] =>
      destruct (process_entries_spec d l 0 w1 [])
        as (w' & es' & -> & Hout & _ & Hfs) end.
    { cbn [put_line fs]. apply lookup_insert_eq. }
    cbn [put_line fs stdout] in *. fold m1 in Hout, Hfs.
    pose proof (mkdir_same_view (fs w) d l Ht) as Hview.
    cbn zeta in Hview. fold m1 in Hview.
    assert (concat (entry_lines m1 d <$> l) = concat (entry_lines (fs w) d <$> entries) ∧
            filter (λ nm, entry_ok m1 d nm = true) l =
              filter (λ nm, entry_ok (fs w) d nm = true) entries ∧
            writes m1 d l = writes (fs w) d entries) as (Hl & Hf & Hw).
    { unfold l. rewrite name_thumbs.
      destruct (add_entry_thumbnails m1 d entries) as (-> & -> & ->).
      split; [|split].
      - f_equal. apply Forall_fmap_ext, Forall_forall. intros x _.
        by destruct (Hview x) as (-> & _).
      - apply filter_agree. intros x _. by destruct (Hview x) as (_ & -> & _).
      - apply omap_agree. intros x. by destruct (Hview x) as (_ & _ & ->). }
    eexists. split; [done|]. cbn [put_line stdout fs]. split.
    + rewrite Hout, Hl, Hf, <- !app_assoc. done.
    + intros p Hp Hpd. rewrite (Hfs p Hp), Hw. apply after_writes_agree.
      unfold m1. by rewrite !lookup_insert_ne.
Qed.

(** A name made of a non-empty stem and one of the six extensions is cut
    by pathlib into that stem and that extension. *)
Lemma stem_suffix_ext s e :
  s ≠ [] → e ∈ extensions → suffix (s ++ e) = e ∧ stem (s ++ e) = s.
Proof.
  intros Hs He.
  assert (∃ e', e = dot :: e' ∧ (dot ∉ e') ∧ e' ≠ []) as (e' & -> & Hd & He').
  { revert He. unfold extensions. rewrite !elem_of_cons, elem_of_nil.
    intros [->|[->|[->|[->|[->|[->|[]]]]]]];
      (eexists; split; [reflexivity|]; split; [compute_done|done]). }
  unfold suffix, stem. rewrite rfind_split_app by done.
  by rewrite bool_decide_eq_true_2.
Qed.

Lemma after_writes_app ws1 ws2 m :
  after_writes (ws1 ++ ws2) m = after_writes ws2 (after_writes ws1 m).
Proof. unfold after_writes. apply foldl_app. Qed.

Lemma after_writes_cons q nd ws m :
  after_writes ((q, nd) :: ws) m = after_writes ws (<[q := nd]> m).
Proof. done. Qed.

Lemma after_writes_other ws m p :
  (∀ nd, (p, nd) ∉ ws) → after_writes ws m !! p = m !! p.
Proof.
  revert m; induction ws as [|[q nd] ws IH]; intros m Hp; [done|].
  rewrite after_writes_cons, IH.
  - rewrite lookup_insert_ne; [done|]. intros ->. apply (Hp nd). set_solver.
  - intros nd' Hin. apply (Hp nd'). set_solver.
Qed.

(** The last file written to a path is the one found there. *)
Lemma after_writes_last ws1 ws2 m p nd :
  (∀ nd', (p, nd') ∉ ws2) →
  after_writes (ws1 ++ (p, nd) :: ws2) m !! p = Some nd.
Proof.
  intros Hp. rewrite after_writes_app, after_writes_cons.
  rewrite after_writes_other by done. apply lookup_insert_eq.
Qed.

(** Every path written holds one of the files written to it. *)
Lemma after_writes_written ws m p nd :
  (p, nd) ∈ ws → ∃ nd', (p, nd') ∈ ws ∧ after_writes ws m !! p = Some nd'.
Proof.
  revert m; induction ws as [|[q x] ws IH] using rev_ind; intros m Hin.
  { by apply elem_of_nil in Hin. }
  rewrite after_writes_app, after_writes_cons.
  change (after_writes [] ?x) with x.
  destruct (decide (q = p)) as [->|Hne].
  - exists x. split; [set_solver|]. apply lookup_insert_eq.
  - rewrite lookup_insert_ne by done.
    apply elem_of_app in Hin as [Hin|Hin]; [|set_solver].
    destruct (IH m Hin) as (nd' & Hin' & Hl). exists nd'. split; [set_solver|done].
Qed.

Lemma writes_elem m d entries p nd :
  (p, nd) ∈ writes m d entries →
  ∃ nm out size,
    nm ∈ entries ∧ entry_ok m d nm = true ∧ p = dest d nm ∧
    entry_result m d nm = inr (out, size) ∧
    nd = File (Picture JPEG out) (jpeg_size out QUALITY true).
Proof.
  unfold writes. intros (nm & Hnm & Hw)%list_elem_of_omap.
  unfold entry_write in Hw.
  destruct (selected m d nm) eqn:Hsel; [|done].
  destruct (entry_result m d nm) as [e|[out size]] eqn:Hres; [done|].
  injection Hw as <- <-. exists nm, out, size. unfold entry_ok.
  by rewrite Hsel, Hres.
Qed.

Lemma entry_ok_write m d nm :
  entry_ok m d nm = true →
  ∃ out size, entry_result m d nm = inr (out, size) ∧
    entry_write m d nm =
      Some (dest d nm, File (Picture JPEG out) (jpeg_size out QUALITY true)).
Proof.
  unfold entry_ok, entry_write. destruct (selected m d nm); [|done].
  destruct (entry_result m d nm) as [e|[out size]]; [done|].
  intros _. by exists out, size.
Qed.

Lemma dirs_loop_cons d rest n w w' :
  is_Some (fs w !! d) → process_directory d w = (w', inr ()) →
  main_loop (d :: rest) n w = main_loop rest (S n) w'.
Proof.
  intros Hd Hrun. cbn [main_loop]. unfold mbind, M_bind, exists_.
  by rewrite bool_decide_eq_true_2, Hrun by done.
Qed.

End batch_facts.

(** ** The thumbnail generator: the claims *)

Section thumbs_claims.
Import Thumbs Batch.
Context `{Pillow}.

(** C9.  In a directory that exists, whose thumbnails directory exists or
    can be made, take a file the loop selects whose thumbnail creation
    raises [e].  The run of the directory returns all the same.  It prints
    the error line that names the file and [e]; the file is not counted;
    the entries after it are processed as if nothing had happened: each
    selected one gets its own line, of success or of error.  And [main]
    goes on with the directories that follow. *)
Theorem failing_file_is_local d w l1 bad l2 e rest n :
  fs w !! d = Some (Dir (l1 ++ bad :: l2)) →
  is_regular (fs w !! thumbs_of d) = false →
  selected (fs w) d bad = true →
  entry_result (fs w) d bad = inl e →
  let made l := length (filter (λ nm, entry_ok (fs w) d nm = true) l) in
  ∃ w',
    process_directory d w = (w', inr ()) ∧
    stdout w' =
      stdout w ++ [LProcessing d; LDashes] ++
      concat (entry_lines (fs w) d <$> l1) ++ [LError (d ++ [bad]) e] ++
      concat (entry_lines (fs w) d <$> l2) ++
      [LProcessed (made l1 + made l2) (name d)] ∧
    (∀ nm, nm ∈ l2 → selected (fs w) d nm = true →
       LCreated nm ∈ stdout w' ∨ ∃ e', LError (d ++ [nm]) e' ∈ stdout w') ∧
    main_loop (d :: rest) n w = main_loop rest (S n) w'.
Proof.
  intros Hd Htd Hsel Hres made.
  destruct (process_directory_spec d w _ Hd Htd) as (w' & Hrun & Hout & _).
  destruct (entry_failed _ _ _ _ Hsel Hres) as (Hl & Hok & _).
  assert (stdout w' =
      stdout w ++ [LProcessing d; LDashes] ++
      concat (entry_lines (fs w) d <$> l1) ++ [LError (d ++ [bad]) e] ++
      concat (entry_lines (fs w) d <$> l2) ++
      [LProcessed (made l1 + made l2) (name d)]) as Hout'.
  { rewrite Hout, fmap_app, concat_app, filter_app, length_app.
    cbn [fmap list_fmap concat]. rewrite Hl, filter_cons.
    rewrite decide_False by (by rewrite Hok). by rewrite <- !app_assoc. }
  exists w'. split; [done|]. split; [done|]. split.
  - intros nm Hnm Hs. rewrite Hout'.
    assert (∀ x, x ∈ entry_lines (fs w) d nm → x ∈ stdout w ++ [LProcessing d; LDashes] ++
      concat (entry_lines (fs w) d <$> l1) ++ [LError (d ++ [bad]) e] ++
      concat (entry_lines (fs w) d <$> l2) ++
      [LProcessed (made l1 + made l2) (name d)]) as Hin.
    { intros x Hx. rewrite !elem_of_app. do 4 right. left.
      apply list_elem_of_In, in_concat. exists (entry_lines (fs w) d nm).
      split; [|by apply list_elem_of_In].
      apply list_elem_of_In, list_elem_of_fmap. eauto. }
    unfold entry_lines in Hin. rewrite Hs in Hin.
    destruct (entry_result (fs w) d nm) as [e'|[out size]].
    + right. exists e'. apply Hin. set_solver.
    + left. apply Hin. set_solver.
  - apply dirs_loop_cons; [by rewrite Hd|done].
Qed.

(** C8.  In a directory that exists, whose thumbnails directory exists or
    can be made, take an entry whose name is a non-empty stem followed by
    one of the six extensions, and of which a thumbnail is made.  pathlib
    cuts the name into that stem and that extension, and after the run the
    file [thumbnails/<stem>.jpg] of the directory is a JPEG file. *)
Theorem thumbnail_named_stem_jpg d w entries s e :
  fs w !! d = Some (Dir entries) →
  is_regular (fs w !! thumbs_of d) = false →
  s ≠ [] → e ∈ extensions → s ++ e ∈ entries →
  entry_ok (fs w) d (s ++ e) = true →
  ∃ w' out size,
    process_directory d w = (w', inr ()) ∧
    suffix (s ++ e) = e ∧ stem (s ++ e) = s ∧
    dest d (s ++ e) = d ++ [txt "thumbnails"; s ++ txt ".jpg"] ∧
    fs w' !! (d ++ [txt "thumbnails"; s ++ txt ".jpg"]) =
      Some (File (Picture JPEG out) size).
Proof.
  intros Hd Htd Hs He Hin Hok.
  destruct (process_directory_spec d w _ Hd Htd) as (w' & Hrun & _ & Hfs).
  destruct (stem_suffix_ext s e Hs He) as [Hsuf Hstem].
  assert (dest d (s ++ e) = d ++ [txt "thumbnails"; s ++ txt ".jpg"]) as Hdest.
  { unfold dest, thumbs_of. by rewrite Hstem, <- app_assoc. }
  destruct (entry_ok_write _ _ _ Hok) as (out & size & _ & Hw).
  destruct (after_writes_written (writes (fs w) d entries) (fs w)
              (dest d (s ++ e))
              (File (Picture JPEG out) (jpeg_size out QUALITY true)))
    as (nd' & Hin' & Hlook).
  { unfold writes. apply list_elem_of_omap. eauto. }
  apply writes_elem in Hin' as (nm' & out' & size' & _ & _ & _ & _ & ->).
  exists w', out', (jpeg_size out' QUALITY true).
  split; [done|]. split; [done|]. split; [done|]. split; [done|].
  rewrite <- Hdest, Hfs; [done|..].
  - symmetry. apply thumbs_ne_dest.
  - apply dest_ne.
Qed.

(** C10.  Two entries of one directory with the same stem and different
    extensions have the same destination.  When a thumbnail is made of
    both, and of no entry of that stem after them, the run prints the two
    lines of success for each and no warning, and what is left at the
    destination is the thumbnail of the one that comes later in the
    listing. *)
Theorem same_stem_overwrites d w l1 l2 l3 s e1 e2 fmt img size :
  fs w !! d = Some (Dir (l1 ++ (s ++ e1) :: l2 ++ (s ++ e2) :: l3)) →
  is_regular (fs w !! thumbs_of d) = false →
  s ≠ [] → e1 ∈ extensions → e2 ∈ extensions → e1 ≠ e2 →
  entry_ok (fs w) d (s ++ e1) = true → entry_ok (fs w) d (s ++ e2) = true →
  fs w !! (d ++ [s ++ e2]) = Some (File (Picture fmt img) size) →
  (∀ nm, nm ∈ l3 → entry_ok (fs w) d nm = true → stem nm ≠ s) →
  ∃ w',
    process_directory d w = (w', inr ()) ∧
    dest d (s ++ e1) = d ++ [txt "thumbnails"; s ++ txt ".jpg"] ∧
    dest d (s ++ e2) = d ++ [txt "thumbnails"; s ++ txt ".jpg"] ∧
    fs w' !! (d ++ [txt "thumbnails"; s ++ txt ".jpg"]) =
      Some (File (Picture JPEG (prepared img))
                 (jpeg_size (prepared img) QUALITY true)) ∧
    (∃ size1 new1, entry_lines (fs w) d (s ++ e1) =
                     [LCreated (s ++ e1); LSizes size1 new1]) ∧
    entry_lines (fs w) d (s ++ e2) =
      [LCreated (s ++ e2);
       LSizes size (jpeg_size (prepared img) QUALITY true)] ∧
    stdout w' =
      stdout w ++ [LProcessing d; LDashes] ++
      concat (entry_lines (fs w) d <$> (l1 ++ (s ++ e1) :: l2 ++ (s ++ e2) :: l3)) ++
      [LProcessed (length (filter (λ nm, entry_ok (fs w) d nm = true)
                             (l1 ++ (s ++ e1) :: l2 ++ (s ++ e2) :: l3)))
                  (name d)].
Proof.
  intros Hd Htd Hs He1 He2 Hne Hok1 Hok2 Hsrc Hl3.
  destruct (process_directory_spec d w _ Hd Htd) as (w' & Hrun & Hout & Hfs).
  destruct (stem_suffix_ext s e1 Hs He1) as [_ Hstem1].
  destruct (stem_suffix_ext s e2 Hs He2) as [_ Hstem2].
  assert (∀ e, stem (s ++ e) = s →
            dest d (s ++ e) = d ++ [txt "thumbnails"; s ++ txt ".jpg"]) as Hdest.
  { intros e Hst. unfold dest, thumbs_of. by rewrite Hst, <- app_assoc. }
  destruct (entry_ok_write _ _ _ Hok1) as (out1 & size1 & Hres1 & _).
  destruct (entry_ok_write _ _ _ Hok2) as (out2 & size2 & Hres2 & Hw2).
  assert (out2 = prepared img ∧ size2 = size) as [-> ->].
  { unfold entry_result in Hres2. rewrite Hsrc in Hres2.
    destruct (is_dir _); [done|]. by injection Hres2 as <- <-. }
  assert (selected (fs w) d (s ++ e1) = true ∧ selected (fs w) d (s ++ e2) = true)
    as [Hsel1 Hsel2].
  { unfold entry_ok in Hok1, Hok2.
    by apply andb_true_iff in Hok1 as [-> _], Hok2 as [-> _]. }
  exists w'. split; [done|]. split; [by apply Hdest|]. split; [by apply Hdest|].
  split; [|split; [|split; [|done]]].
  - rewrite <- (Hdest e2 Hstem2), Hfs;
      [|symmetry; apply thumbs_ne_dest|apply dest_ne].
    unfold writes.
    change (l1 ++ (s ++ e1) :: l2 ++ (s ++ e2) :: l3)
      with (l1 ++ ((s ++ e1) :: l2) ++ (s ++ e2) :: l3).
    rewrite app_assoc, omap_app. cbn [omap list_omap].
    rewrite Hw2. apply after_writes_last.
    intros nd' (nm & out & sz & Hnm & Hok & Hdst & _)%writes_elem.
    apply (Hl3 nm Hnm Hok). unfold dest in Hdst.
    apply app_inj_tail in Hdst as [_ Hst].
    apply app_inv_tail in Hst. by rewrite <- Hst.
  - destruct (entry_made _ _ _ _ _ Hsel1 Hres1) as (-> & _). eauto.
  - by destruct (entry_made _ _ _ _ _ Hsel2 Hres2) as (-> & _).
Qed.

Local Open Scope Z_scope.


Lemma blend8_transparent fg : blend8 0 255 fg = 255.
Proof. unfold blend8. by rewrite !Z.mul_0_r. Qed.

Lemma blend8_opaque bg fg : 0 ≤ fg ≤ 255 → blend8 255 bg fg = fg.
Proof.
  intros Hfg. unfold blend8. rewrite Z.sub_diag, Z.mul_0_r, Z.add_0_l.
  rewrite !Z.shiftr_div_pow2 by lia. change (2 ^ 8) with 256.
  Z.to_euclidean_division_equations. lia.
Qed.

Lemma to_rgb_rgba_pixel img i r g b a :
  im_mode img = RGBA →
  length (im_data img) = Z.to_nat ((im_size img).1 * (im_size img).2) →
  im_data img !! i = Some [r; g; b; a] →
  im_data (to_rgb img) !! i =
    Some [blend8 a 255 r; blend8 a 255 g; blend8 a 255 b].
Proof.
  intros Hmode Hlen Hpx. unfold to_rgb. rewrite decide_True by done.
  rewrite (split_alpha img Hmode). cbv beta iota zeta.
  unfold paste, image_new. cbn [im_data im_size].
  etrans; [apply lookup_zip_with|]. rewrite lookup_replicate_2.
  2:{ rewrite <- Hlen. by eapply lookup_lt_Some. }
  cbn [mbind option_bind].
  rewrite (lookup_zip_with pair (im_data img)), Hpx.
  cbn [mbind option_bind]. rewrite list_lookup_fmap, Hpx. done.
Qed.

(** C6, as amended.  [create_thumbnail] composites on white only an image
    of mode RGBA.  For such an image with one pixel value per position, the
    image that is resized and saved has mode RGB, so no alpha band, and
    before the resize every pixel is the blend of white and the source
    colour through the alpha value: white where the source is fully
    transparent, the source colour where it is fully opaque.  An image of
    another mode that carries alpha is converted to RGB as well, by
    [convert], which drops the alpha band and composites nothing. *)
Theorem rgba_composited_on_white img :
  im_mode img = RGBA →
  length (im_data img) = Z.to_nat ((im_size img).1 * (im_size img).2) →
  im_mode (prepared img) = RGB ∧
  im_mode (to_rgb img) = RGB ∧ im_size (to_rgb img) = im_size img ∧
  ∀ i r g b a,
    im_data img !! i = Some [r; g; b; a] →
    im_data (to_rgb img) !! i =
      Some [blend8 a 255 r; blend8 a 255 g; blend8 a 255 b] ∧
    (a = 0 → im_data (to_rgb img) !! i = Some [255; 255; 255]) ∧
    (a = 255 → 0 ≤ r ≤ 255 → 0 ≤ g ≤ 255 → 0 ≤ b ≤ 255 →
     im_data (to_rgb img) !! i = Some [r; g; b]).
Proof.
  intros Hmode Hlen. split; [apply prepared_mode|].
  split; [apply to_rgb_mode|]. split; [apply to_rgb_size|].
  intros i r g b a Hpx.
  rewrite (to_rgb_rgba_pixel img i r g b a Hmode Hlen Hpx).
  split; [done|]. split.
  - intros ->. by rewrite !blend8_transparent.
  - intros -> Hr Hg Hb. by rewrite !blend8_opaque.
Qed.

End thumbs_claims.


Lemma failing_file_is_local_witness :
  let H := Batch.flat_codec in
  let w := Batch.demo_world in let d := Batch.demo_dir in
  let made l := length (filter (λ nm, Batch.entry_ok (Thumbs.fs w) d nm = true) l) in
  ∃ w',
    Thumbs.process_directory d w = (w', inr ()) ∧
    Thumbs.stdout w' =
      Thumbs.stdout w ++ [Thumbs.LProcessing d; Thumbs.LDashes] ++
      concat (Batch.entry_lines (Thumbs.fs w) d <$> [txt "a.png"]) ++
      [Thumbs.LError (d ++ [txt "bad.jpg"]) (ImageError (d ++ [txt "bad.jpg"]))] ++
      concat (Batch.entry_lines (Thumbs.fs w) d <$> [txt "a.jpg"; txt "notes.txt"]) ++
      [Thumbs.LProcessed (made [txt "a.png"] + made [txt "a.jpg"; txt "notes.txt"])
         (Thumbs.name d)] ∧
    (∀ nm, nm ∈ [txt "a.jpg"; txt "notes.txt"] →
       Batch.selected (Thumbs.fs w) d nm = true →
       Thumbs.LCreated nm ∈ Thumbs.stdout w' ∨
       ∃ e', Thumbs.LError (d ++ [nm]) e' ∈ Thumbs.stdout w') ∧
    Thumbs.main_loop (d :: []) 0 w = Thumbs.main_loop [] 1 w'.
Proof.
  intros H w d.
  apply (failing_file_is_local d w [txt "a.png"] (txt "bad.jpg")
           [txt "a.jpg"; txt "notes.txt"]); vm_compute; reflexivity.
Defined.

Lemma thumbnail_named_stem_jpg_witness :
  let H := Batch.flat_codec in
  let w := Batch.demo_world in let d := Batch.demo_dir in
  ∃ w' out size,
    Thumbs.process_directory d w = (w', inr ()) ∧
    Thumbs.suffix (txt "a" ++ txt ".png") = txt ".png" ∧
    Thumbs.stem (txt "a" ++ txt ".png") = txt "a" ∧
    Batch.dest d (txt "a" ++ txt ".png") =
      d ++ [txt "thumbnails"; txt "a" ++ txt ".jpg"] ∧
    Thumbs.fs w' !! (d ++ [txt "thumbnails"; txt "a" ++ txt ".jpg"]) =
      Some (Thumbs.File (Thumbs.Picture Thumbs.JPEG out) size).
Proof.
  intros H w d.
  apply (thumbnail_named_stem_jpg d w
           [txt "a.png"; txt "bad.jpg"; txt "a.jpg"; txt "notes.txt"]);
    first [ compute_done | vm_compute; reflexivity ].
Defined.

Lemma same_stem_overwrites_witness :
  let H := Batch.flat_codec in
  let w := Batch.demo_world in let d := Batch.demo_dir in
  let s := txt "a" in let e1 := txt ".png" in let e2 := txt ".jpg" in
  let img := Batch.demo_jpg in
  let entries := [] ++ (s ++ e1) :: [txt "bad.jpg"] ++ (s ++ e2) :: [txt "notes.txt"] in
  ∃ w',
    Thumbs.process_directory d w = (w', inr ()) ∧
    Batch.dest d (s ++ e1) = d ++ [txt "thumbnails"; s ++ txt ".jpg"] ∧
    Batch.dest d (s ++ e2) = d ++ [txt "thumbnails"; s ++ txt ".jpg"] ∧
    Thumbs.fs w' !! (d ++ [txt "thumbnails"; s ++ txt ".jpg"]) =
      Some (Thumbs.File (Thumbs.Picture Thumbs.JPEG (Batch.prepared img))
              (Thumbs.jpeg_size (Batch.prepared img) Thumbs.QUALITY true)) ∧
    (∃ size1 new1, Batch.entry_lines (Thumbs.fs w) d (s ++ e1) =
                     [Thumbs.LCreated (s ++ e1); Thumbs.LSizes size1 new1]) ∧
    Batch.entry_lines (Thumbs.fs w) d (s ++ e2) =
      [Thumbs.LCreated (s ++ e2);
       Thumbs.LSizes 900000
         (Thumbs.jpeg_size (Batch.prepared img) Thumbs.QUALITY true)] ∧
    Thumbs.stdout w' =
      Thumbs.stdout w ++ [Thumbs.LProcessing d; Thumbs.LDashes] ++
      concat (Batch.entry_lines (Thumbs.fs w) d <$> entries) ++
      [Thumbs.LProcessed
         (length (filter (λ nm, Batch.entry_ok (Thumbs.fs w) d nm = true) entries))
         (Thumbs.name d)].
Proof.
  intros H w d s e1 e2 img entries.
  apply (same_stem_overwrites d w [] [txt "bad.jpg"] [txt "notes.txt"]
           s e1 e2 Thumbs.JPEG img 900000).
  - vm_compute; reflexivity.
  - vm_compute; reflexivity.
  - done.
  - compute_done.
  - compute_done.
  - compute_done.
  - vm_compute; reflexivity.
  - vm_compute; reflexivity.
  - vm_compute; reflexivity.
  - intros nm Hnm. apply list_elem_of_singleton in Hnm as ->.
    vm_compute. done.
Defined.




Lemma rgba_composited_on_white_witness :
  let H := Batch.flat_codec in
  let img := Batch.demo_png in
  Thumbs.im_mode (Batch.prepared img) = Thumbs.RGB ∧
  Thumbs.im_mode (Thumbs.to_rgb img) = Thumbs.RGB ∧
  Thumbs.im_size (Thumbs.to_rgb img) = Thumbs.im_size img ∧
  ∀ i r g b a,
    Thumbs.im_data img !! i = Some [r; g; b; a] →
    Thumbs.im_data (Thumbs.to_rgb img) !! i =
      Some [Thumbs.blend8 a 255 r; Thumbs.blend8 a 255 g; Thumbs.blend8 a 255 b] ∧
    (a = 0%Z → Thumbs.im_data (Thumbs.to_rgb img) !! i = Some [255; 255; 255]%Z) ∧
    (a = 255%Z → (0 ≤ r ≤ 255)%Z → (0 ≤ g ≤ 255)%Z → (0 ≤ b ≤ 255)%Z →
     Thumbs.im_data (Thumbs.to_rgb img) !! i = Some [r; g; b]).
Proof.
  intros H img. apply (rgba_composited_on_white img); reflexivity.
Defined.

(** C6 as stated fails for a mode other than RGBA that carries alpha: a
    pixel of an LA image that is black and fully transparent comes out
    black, not white. *)
Lemma la_transparent_not_white :
  let img := Thumbs.Image Thumbs.LA (1, 1)%Z [[0; 0]%Z] [] in
  Thumbs.to_rgb img = Thumbs.Image Thumbs.RGB (1, 1)%Z [[0; 0; 0]%Z] [] ∧
  Thumbs.im_data (Thumbs.to_rgb img) !! 0%nat ≠ Some [255; 255; 255]%Z.
Proof. split; [reflexivity|]. by vm_compute. Qed.

(** C3: the code does not do what the claim says.  With one configured
    directory present and the seven others missing, the script prints no
    warning for the missing ones -- though [process_directory], called on a
    missing directory, would print it. *)
Lemma missing_directories_silent :
  let H := Batch.flat_codec in
  let sfb := [txt "images"; txt "sfb"] in
  let w := Thumbs.World {[ [txt "images"] := Thumbs.Dir [txt "sfb"];
                           sfb := Thumbs.Dir [] ]} [] in
  (∃ w', Thumbs.script w = (w', inr ()) ∧
         Thumbs.stdout w' =
           [Thumbs.LBanner; Thumbs.LRule; Thumbs.LProcessing sfb;
            Thumbs.LDashes; Thumbs.LProcessed 0 (txt "sfb"); Thumbs.LEndRule;
            Thumbs.LComplete 1; Thumbs.LNextSteps 0; Thumbs.LNextSteps 1;
            Thumbs.LNextSteps 2; Thumbs.LNextSteps 3]) ∧
  Thumbs.process_directory [txt "images"; txt "adlad"] w =
    (Thumbs.World (Thumbs.fs w)
       [Thumbs.LDirNotFound [txt "images"; txt "adlad"]], inr ()).
Proof.
  intros H sfb w. split.
  - eexists. split; [vm_compute; reflexivity|]. by vm_compute.
  - vm_compute. reflexivity.
Qed.

(** * Further properties

    Properties of the two scripts that the code shows beyond the ones
    above. *)

(** ** The HTML rewriter *)

Section gallery_more.
Import Gallery Tag Run Site.

(** X1.  What the pattern matches has one shape only: [<img], white space,
    [src=] and a quoted path, a rest without [>], and [>].  The path (group
    1) starts with [images/], holds no double quote, and ends in a dot and
    one of the six listed extensions (group 2) after at least one more
    character; the match (group 0) is a prefix of the input.  So a tag in
    capitals, or one whose first attribute is not [src], or whose path is
    not under [images/], is never handed to the callback. *)
Theorem pattern_match_shape s m r :
  re_match pattern s = Some (m, r) →
  ∃ ws x,
    s = group m 0 ++ r ∧
    group m 0 = txt "<img" ++ ws ++ html "src='" ++ group m 1 ++
                dq :: group m 3 ++ [gt] ∧
    ws ≠ [] ∧ Forall (λ c, isspace c = true) ws ∧
    group m 1 = txt "images/" ++ x ++ dot :: group m 2 ∧ x ≠ [] ∧
    group m 2 ∈ image_exts ∧ (dq ∉ group m 1) ∧ (gt ∉ group m 3).
Proof.
  rewrite re_match_pattern.
  intros (ws & body & e & rest & Hp & -> & ->)%match_at_inv.
  destruct (group_tag_match ws body e rest) as (-> & -> & -> & ->).
  destruct Hp as (Hws & Hsp & Hdq & He & Hrest).
  apply ext_of_Some in He as (He & x & Hx & ->).
  exists ws, x. split; [done|]. split.
  { unfold tag. rewrite <- !app_assoc. done. }
  do 5 (split; [done|]). split; [|done].
  rewrite elem_of_app. intros [Hi|Hi]; [|done]. by vm_compute in Hi; set_solver.
Qed.

Lemma pattern_match_shape_witness :
  ∃ ws x,
    html "<img src='images/a/b.png' alt='x'>tail" =
      html "<img src='images/a/b.png' alt='x'>" ++ txt "tail" ∧
    html "<img src='images/a/b.png' alt='x'>" =
      txt "<img" ++ ws ++ html "src='" ++ txt "images/a/b.png" ++
      dq :: html " alt='x'" ++ [gt] ∧
    ws ≠ [] ∧ Forall (λ c, isspace c = true) ws ∧
    txt "images/a/b.png" = txt "images/" ++ x ++ dot :: txt "png" ∧ x ≠ [] ∧
    txt "png" ∈ image_exts ∧ (dq ∉ txt "images/a/b.png") ∧
    (gt ∉ html " alt='x'").
Proof.
  apply (pattern_match_shape (html "<img src='images/a/b.png' alt='x'>tail")
           (tag_match [32%N] (txt "a/b.png") (txt "png") (html " alt='x'"))
           (txt "tail")).
  vm_compute. reflexivity.
Defined.

Lemma match_at_not_lt c s : c ≠ lt → match_at (c :: s) = None.
Proof.
  intros Hc. unfold match_at. cbn [strip txt fmap list_fmap list_ascii_of_string].
  change (N_of_ascii "<") with lt.
  destruct (N.eqb_spec lt c) as [Heq|]; [by subst|done].
Qed.

(** X2.  Text without [<] is copied as it is, and what follows it is
    rewritten as if it stood alone: the substitution finds the same
    matches and gives the same result for them. *)
Theorem re_sub_plain_prefix pre s :
  lt ∉ pre →
  re_sub (pre ++ s) = pre ++ re_sub s ∧ finditer (pre ++ s) = finditer s.
Proof.
  induction pre as [|c pre IH]; intros Hlt; [done|].
  apply not_elem_of_cons in Hlt as [Hc Hlt]. destruct (IH Hlt) as [IH1 IH2].
  assert (match_at (c :: pre ++ s) = None) as Hm by (apply match_at_not_lt; congruence).
  simpl. rewrite (re_sub_keep _ _ Hm), (finditer_keep _ _ Hm). by rewrite IH1, IH2.
Qed.

Lemma re_sub_plain_prefix_witness :
  re_sub (txt "a > b " ++ html "<img src='images/a/b.png'>") =
    txt "a > b " ++ re_sub (html "<img src='images/a/b.png'>") ∧
  finditer (txt "a > b " ++ html "<img src='images/a/b.png'>") =
    finditer (html "<img src='images/a/b.png'>").
Proof.
  apply (re_sub_plain_prefix (txt "a > b ") (html "<img src='images/a/b.png'>")).
  compute_done.
Defined.

Lemma skips_tag_match ws body e rest :
  skips (tag_match ws body e rest) =
  contains (txt "/thumbnails/") (txt "images/" ++ body)
  || contains (txt "data-fullres=") rest.
Proof.
  unfold skips. by destruct (group_tag_match ws body e rest) as (_ & -> & _ & ->).
Qed.

Lemma replace_img_skipped ws body e rest :
  tag_parts ws body e rest → skips (tag_match ws body e rest) = true →
  replace_img (tag_match ws body e rest) = tag ws body rest.
Proof.
  intros (_ & _ & _ & He & _) Hs. rewrite skips_tag_match in Hs.
  destruct (path_split body e He) as (d & stem & Hpath & Hstem & _).
  pose proof He as [Hin _]%ext_of_Some.
  by rewrite (replace_img_tag ws body e rest d stem), Hs.
Qed.

(** A tag that is rewritten is not a prefix-compatible copy of itself: the
    new [src] holds [/thumbnails/] where the old one did not. *)
Lemma replace_img_rewrites ws body e rest X r :
  tag_parts ws body e rest → skips (tag_match ws body e rest) = false →
  replace_img (tag_match ws body e rest) ++ X ≠ tag ws body rest ++ r.
Proof.
  intros (Hws & Hsp & Hdq & He & _) Hs. rewrite skips_tag_match in Hs.
  destruct (path_split body e He) as (d & stem & Hpath & Hstem & _).
  pose proof He as [Hin _]%ext_of_Some.
  rewrite (replace_img_tag ws body e rest d stem), Hs by done.
  apply orb_false_iff in Hs as [Hth _]. intros Heq.
  set (new := txt "images" ++ d ++ txt "/thumbnails/" ++ stem ++ txt ".jpg").
  assert (∃ Y, rewritten (txt "images" ++ d) stem body rest ++ X =
               txt "<img" ++ [32%N] ++ html "src='" ++ new ++ dq :: Y) as [Y HY].
  { eexists. unfold rewritten, new. rewrite <- !app_assoc. reflexivity. }
  assert (tag ws body rest ++ r =
          txt "<img" ++ ws ++ html "src='" ++ (txt "images/" ++ body) ++
          dq :: (rest ++ [gt] ++ r)) as HT.
  { unfold tag. rewrite <- !app_assoc. reflexivity. }
  rewrite HY, HT in Heq. clear HY HT.
  apply (app_inv_head (txt "<img")) in Heq.
  assert (∀ A c t, html "src='" ++ A = c :: t → isspace c = false) as Hsrc.
  { by intros A c t [= <- _]. }
  pose proof (span_app isspace [32%N] _ ltac:(by repeat constructor)
                (Hsrc (new ++ dq :: Y))) as H1.
  pose proof (span_app isspace ws _ Hsp
                (Hsrc ((txt "images/" ++ body) ++ dq :: rest ++ [gt] ++ r))) as H2.
  rewrite Heq, H2 in H1. apply (f_equal snd) in H1. cbn [snd] in H1.
  apply (app_inv_head (html "src='")) in H1.
  assert (dq ∉ txt "images/" ++ body) as Hn.
  { rewrite elem_of_app. intros [Hi|?]; [|done]. by vm_compute in Hi; set_solver. }
  assert (new = txt "images/" ++ body) as Hx.
  { eapply (first_occurrence dq _ _ (dq :: _)); [| exact Hn | symmetry; exact H1 | ].
    - rewrite Hpath in Hn.
      rewrite !elem_of_app, !elem_of_cons, !elem_of_app in Hn.
      unfold new. rewrite !elem_of_app.
      intros [Hi|[Hi|[Hi|[Hi|Hi]]]];
        [by vm_compute in Hi; set_solver|naive_solver
        |by vm_compute in Hi; set_solver|naive_solver
        |by vm_compute in Hi; set_solver].
    - by intros ?? [= <- _]. }
  rewrite <- Hx in Hth. unfold new in Hth.
  replace (txt "images" ++ d ++ txt "/thumbnails/" ++ stem ++ txt ".jpg")
    with ((txt "images" ++ d) ++ txt "/thumbnails/" ++ (stem ++ txt ".jpg")) in Hth
    by (by rewrite <- !app_assoc).
  by rewrite contains_infix in Hth.
Qed.

(** X3.  The substitution leaves a document as it is exactly when the
    callback skips every tag it is handed: each matched path already holds
    [/thumbnails/], or the tag already holds [data-fullres=].  A tag that
    is rewritten always makes the document differ. *)
Theorem re_sub_fixed_iff t :
  re_sub t = t ↔ Forall (λ m, skips m = true) (finditer t).
Proof.
  induction t as [| c s Hm IH | ws body e rest r Hp IH] using scan_ind.
  - split; [constructor|done].
  - rewrite (re_sub_keep _ _ Hm), (finditer_keep _ _ Hm), <- IH.
    split; [by intros [= ?]|by intros ->].
  - pose proof (match_at_tag _ _ _ _ r Hp) as Hm.
    rewrite (re_sub_hit _ _ _ Hm), (finditer_hit _ _ _ Hm), Forall_cons, <- IH.
    destruct (skips (tag_match ws body e rest)) eqn:Hs.
    + rewrite (replace_img_skipped _ _ _ _ Hp Hs). split.
      * intros ?%app_inv_head. done.
      * by intros [_ ->].
    + split; [|by intros [? _]].
      intros Heq. by apply replace_img_rewrites in Heq.
Qed.

(** X4.  A call of [update_gallery_html] prints nothing, creates and
    deletes no file, and touches no file but the one it is given.  When it
    raises, and when it returns [False], the world is as it was; when it
    returns [True], the file was writable and differs from its
    substitution, which it now holds, with the time of this write. *)
Theorem update_gallery_html_frame p w w' r :
  update_gallery_html p w = (w', r) →
  stdout w' = stdout w ∧
  dom (files w') = dom (files w) ∧
  (∀ q, q ≠ p → files w' !! q = files w !! q) ∧
  match r with
  | inr true =>
      ∃ t mt, files w !! p = Some (Regular (Some t) mt true) ∧ re_sub t ≠ t ∧
              files w' !! p = Some (Regular (Some (re_sub t)) (clock w) true) ∧
              clock w' = S (clock w)
  | inr false =>
      w' = w ∧ ∃ t mt wr, files w !! p = Some (Regular (Some t) mt wr) ∧
                          re_sub t = t
  | inl _ => w' = w
  end.
Proof.
  rewrite update_unfold. intros Hrun.
  destruct (files w !! p) as [[|[t|] mt wr]|] eqn:Hp; simplify_eq; try done.
  destruct (bool_decide (re_sub t ≠ t)) eqn:Hc.
  - apply bool_decide_eq_true in Hc. destruct wr; simplify_eq; [|done].
    cbn [stdout files clock]. split; [done|]. split.
    { apply dom_insert_lookup_L. by rewrite Hp. }
    split; [by intros q Hq; rewrite lookup_insert_ne|].
    exists t, mt. by rewrite lookup_insert_eq.
  - apply bool_decide_eq_false in Hc. apply dec_stable in Hc. simplify_eq.
    do 3 (split; [done|]). split; [done|]. eauto.
Qed.

Lemma update_gallery_html_frame_witness :
  let w := World {[ [txt "index.html"] :=
                      Regular (Some (html "<img src='images/a/b.png'>")) 0 true;
                    [txt "other.html"] :=
                      Regular (Some (html "<img src='images/c.jpg'>")) 0 true ]}
                 3 [] in
  ∃ w', update_gallery_html [txt "index.html"] w = (w', inr true) ∧
    stdout w' = stdout w ∧
    dom (files w') = dom (files w) ∧
    (∀ q, q ≠ [txt "index.html"] → files w' !! q = files w !! q) ∧
    ∃ t mt, files w !! [txt "index.html"] = Some (Regular (Some t) mt true) ∧
            re_sub t ≠ t ∧
            files w' !! [txt "index.html"] =
              Some (Regular (Some (re_sub t)) (clock w) true) ∧
            clock w' = S (clock w).
Proof.
  intros w. eexists. split; [vm_compute; reflexivity|].
  eapply (update_gallery_html_frame [txt "index.html"] w _ (inr true)).
  vm_compute. reflexivity.
Defined.

(** One file without a fault, and what the loop leaves of the files. *)
Lemma main_loop_step_files f fs n w :
  fault w f = None →
  ∃ w1 n1,
    main_loop (f :: fs) n w = main_loop fs n1 w1 ∧
    clock w ≤ clock w1 ∧ dom (files w1) = dom (files w) ∧
    (∀ p, p ≠ [f] → files w1 !! p = files w !! p) ∧
    (∀ t mt wr, files w !! [f] = Some (Regular (Some t) mt wr) →
       (re_sub t = t ∧ files w1 !! [f] = files w !! [f]) ∨
       (re_sub t ≠ t ∧
        files w1 !! [f] = Some (Regular (Some (re_sub t)) (clock w) true))).
Proof.
  intros Hf. rewrite main_loop_cons, update_unfold. unfold fault in Hf.
  destruct (files w !! [f]) as [[|[t|] mt wr]|] eqn:Hw; try done.
  - destruct (bool_decide (re_sub t ≠ t)) eqn:Hc.
    + destruct wr; [|done]. apply bool_decide_eq_true in Hc.
      eexists _, _. split; [done|]. cbn [put_line files clock].
      split; [lia|]. split; [apply dom_insert_lookup_L; by rewrite Hw|].
      split; [by intros p Hp; rewrite lookup_insert_ne|].
      intros t' mt' wr' [= <- <- <-]. right. by rewrite lookup_insert_eq.
    + apply bool_decide_eq_false in Hc. apply dec_stable in Hc.
      eexists _, _. split; [done|]. cbn [put_line files clock].
      do 3 (split; [done|]). intros t' mt' wr' [= <- <- <-]. by left.
  - eexists _, _. split; [done|]. cbn [put_line files clock].
    do 3 (split; [done|]). done.
Qed.

Lemma main_loop_files fs n w :
  NoDup fs → (∀ g, g ∈ fs → fault w g = None) →
  ∃ w' n',
    main_loop fs n w = (w', inr n') ∧
    clock w ≤ clock w' ∧ dom (files w') = dom (files w) ∧
    (∀ p, p ∉ (λ g, [g]) <$> fs → files w' !! p = files w !! p) ∧
    (∀ g t mt wr, g ∈ fs → files w !! [g] = Some (Regular (Some t) mt wr) →
       (re_sub t = t ∧ files w' !! [g] = files w !! [g]) ∨
       (re_sub t ≠ t ∧ ∃ mt',
          clock w ≤ mt' ∧
          files w' !! [g] = Some (Regular (Some (re_sub t)) mt' true))).
Proof.
  revert n w; induction fs as [|f fs IH]; intros n w Hnd Hok.
  { exists w, n. split; [done|]. do 3 (split; [done|]).
    by intros g ??? ?%elem_of_nil. }
  apply NoDup_cons in Hnd as [Hf Hnd].
  destruct (main_loop_step_files f fs n w) as (w1 & n1 & -> & Hck & Hdom & Hfr & Hpg).
  { apply Hok. set_solver. }
  assert (∀ g, g ∈ fs → files w1 !! [g] = files w !! [g]) as Hsame.
  { intros g Hg. apply Hfr. intros [= ->]. done. }
  destruct (IH n1 w1 Hnd) as (w' & n' & -> & Hck' & Hdom' & Hfr' & Hpg').
  { intros g Hg. destruct (file_agree w w1 g (Hsame g Hg)) as (-> & _).
    apply Hok. set_solver. }
  exists w', n'. split; [done|]. split; [lia|]. split; [congruence|]. split.
  - intros p Hp. rewrite fmap_cons, not_elem_of_cons in Hp. destruct Hp as [Hp1 Hp2].
    rewrite (Hfr' p Hp2). by apply Hfr.
  - intros g t mt wr Hg Hw. apply elem_of_cons in Hg as [->|Hg].
    + assert (files w' !! [f] = files w1 !! [f]) as ->.
      { apply Hfr'. intros (g & [= ->] & Hin)%list_elem_of_fmap. done. }
      destruct (Hpg t mt wr Hw) as [?|[? ?]]; [by left|right].
      split; [done|]. by exists (clock w).
    + rewrite <- (Hsame g Hg) in Hw.
      destruct (Hpg' g t mt wr Hg Hw) as [[? ->]|(? & mt' & ? & ->)].
      * left. by rewrite (Hsame g Hg).
      * right. split; [done|]. exists mt'. split; [lia|done].
Qed.

(** X5.  When no configured page raises, [main] returns having created
    and deleted no file and touched no path but the configured ones; a
    configured page that is there holds the substitution of what it held:
    the very same file, with its modification time, when the substitution
    changes nothing, and a file written during this run otherwise. *)
Theorem main_rewrites_pages w :
  (∀ g, g ∈ gallery_files → fault w g = None) →
  ∃ w',
    main w = (w', inr ()) ∧ dom (files w') = dom (files w) ∧
    (∀ p, p ∉ (λ g, [g]) <$> gallery_files → files w' !! p = files w !! p) ∧
    (∀ g t mt wr,
       g ∈ gallery_files → files w !! [g] = Some (Regular (Some t) mt wr) →
       (re_sub t = t ∧ files w' !! [g] = files w !! [g]) ∨
       (re_sub t ≠ t ∧ ∃ mt',
          clock w ≤ mt' ∧
          files w' !! [g] = Some (Regular (Some (re_sub t)) mt' true))).
Proof.
  intros Hok. rewrite main_unfold.
  destruct (main_loop_files gallery_files 0
              (put_line line_rule (put_line line_banner w)) gallery_files_NoDup)
    as (w1 & n1 & -> & Hck & Hdom & Hfr & Hpg); [done|].
  eexists. split; [done|]. cbn [put_line files clock] in *. done.
Qed.

Lemma main_rewrites_pages_witness :
  let w := World {[ [txt "index.html"] :=
                      Regular (Some (html "<img src='images/a/b.png'>")) 0 true;
                    [txt "adlad.html"] := Regular (Some (txt "<p>")) 1 false ]}
                 3 [] in
  ∃ w',
    main w = (w', inr ()) ∧ dom (files w') = dom (files w) ∧
    (∀ p, p ∉ (λ g, [g]) <$> gallery_files → files w' !! p = files w !! p) ∧
    (∀ g t mt wr,
       g ∈ gallery_files → files w !! [g] = Some (Regular (Some t) mt wr) →
       (re_sub t = t ∧ files w' !! [g] = files w !! [g]) ∨
       (re_sub t ≠ t ∧ ∃ mt',
          clock w ≤ mt' ∧
          files w' !! [g] = Some (Regular (Some (re_sub t)) mt' true))).
Proof.
  intros w. apply (main_rewrites_pages w).
  intros g Hg. unfold gallery_files in Hg.
  repeat (apply elem_of_cons in Hg as [->|Hg]; [by vm_compute|]).
  by apply elem_of_nil in Hg.
Defined.

(** The loop over pages that need no change: nothing is written. *)
Lemma main_loop_quiet fs n w :
  (∀ g, g ∈ fs → fault w g = None ∧ changes w g = false) →
  ∃ w', main_loop fs n w = (w', inr n) ∧
        files w' = files w ∧ clock w' = clock w ∧
        stdout w' = stdout w ++ (report w <$> fs).
Proof.
  revert w; induction fs as [|f fs IH]; intros w Hq.
  { exists w. by rewrite app_nil_r. }
  destruct (Hq f) as [Hf Hc]; [set_solver|].
  rewrite main_loop_cons, update_unfold. cbn [fmap list_fmap].
  unfold report. rewrite Hc. unfold fault, changes in Hf, Hc.
  destruct (files w !! [f]) as [[|[t|] mt wr]|] eqn:Hw; try done.
  - rewrite Hc.
    destruct (IH (put_line (line_no_change f) w)) as (w' & -> & Hfs & Hck & Hout).
    { intros g Hg. destruct (Hq g) as [? ?]; [set_solver|].
      by destruct (file_agree w (put_line (line_no_change f) w) g eq_refl)
        as (-> & -> & _). }
    exists w'. split; [done|]. split; [done|]. split; [done|].
    rewrite Hout. cbn [put_line stdout]. rewrite <- app_assoc. cbn [app].
    done.
  - destruct (IH (put_line (line_not_found f) w)) as (w' & -> & Hfs & Hck & Hout).
    { intros g Hg. destruct (Hq g) as [? ?]; [set_solver|].
      by destruct (file_agree w (put_line (line_not_found f) w) g eq_refl)
        as (-> & -> & _). }
    exists w'. split; [done|]. split; [done|]. split; [done|].
    rewrite Hout. cbn [put_line stdout]. rewrite <- app_assoc. cbn [app].
    done.
Qed.

(** X6.  The script run twice.  When no configured page raises and no
    matched path holds a [>], a second run of [main] after the first
    returns too, writes nothing (files and clock are as the first run left
    them), reports every page that is there as needing no change, and
    counts 0 updated files. *)
Theorem main_twice w :
  (∀ g, g ∈ gallery_files → fault w g = None) →
  (∀ g t mt wr,
     g ∈ gallery_files → files w !! [g] = Some (Regular (Some t) mt wr) →
     Forall (λ m, gt ∉ group m 1) (finditer t)) →
  ∃ w1 w2,
    main w = (w1, inr ()) ∧ main w1 = (w2, inr ()) ∧
    files w2 = files w1 ∧ clock w2 = clock w1 ∧
    stdout w2 =
      stdout w1 ++ [line_banner; line_rule] ++
      ((λ g, match files w !! [g] with
             | Some _ => line_no_change g
             | None => line_not_found g
             end) <$> gallery_files) ++
      [line_rule; line_summary 0; line_faster; line_lightbox].
Proof.
  intros Hok Hsafe. rewrite main_unfold.
  destruct (main_loop_files gallery_files 0
              (put_line line_rule (put_line line_banner w)) gallery_files_NoDup)
    as (w0 & n0 & -> & _ & Hdom & _ & Hpg); [done|].
  cbn [put_line files clock] in Hdom, Hpg.
  set (w1 := put_line line_lightbox (put_line line_faster
               (put_line (line_summary n0) (put_line line_rule w0)))).
  assert (∀ g, g ∈ gallery_files →
            fault w1 g = None ∧ changes w1 g = false ∧
            report w1 g = match files w !! [g] with
                          | Some _ => line_no_change g
                          | None => line_not_found g
                          end) as Hq.
  { intros g Hg. specialize (Hok g Hg). unfold fault in Hok.
    unfold fault, changes, report, changes.
    change (files w1) with (files w0).
    destruct (files w !! [g]) as [[|[t|] mt wr]|] eqn:Hw; try done.
    - pose proof (re_sub_idempotent t (Hsafe g t mt wr Hg Hw)) as Hidem.
      destruct (Hpg g t mt wr Hg Hw) as [[Hfix ->]|(_ & mt' & _ & ->)].
      + rewrite Hw, bool_decide_eq_false_2 by (by intros Hne; apply Hne). done.
      + rewrite bool_decide_eq_false_2 by (by intros Hne; apply Hne). done.
    - assert (files w0 !! [g] = None) as ->; [|done].
      apply not_elem_of_dom. rewrite Hdom. by apply not_elem_of_dom. }
  destruct (main_loop_quiet gallery_files 0
              (put_line line_rule (put_line line_banner w1)))
    as (w2 & Hrun & Hfs & Hck & Hout).
  { intros g Hg. destruct (Hq g Hg) as (? & ? & _).
    by destruct (file_agree w1 (put_line line_rule (put_line line_banner w1)) g
                   eq_refl) as (-> & -> & _). }
  eexists w1, _. split; [done|]. split; [by rewrite main_unfold, Hrun|].
  cbn [put_line files clock stdout] in *.
  split; [done|]. split; [done|].
  rewrite Hout, <- !app_assoc. cbn [app]. do 3 f_equal.
  f_equal. apply Forall_fmap_ext, Forall_forall. intros g Hg.
  destruct (Hq g Hg) as (_ & _ & <-).
  by destruct (file_agree w1 (put_line line_rule (put_line line_banner w1)) g
                 eq_refl) as (_ & _ & ->).
Qed.

Lemma main_twice_witness :
  let w := World {[ [txt "index.html"] :=
                      Regular (Some (html "<img src='images/a/b.png'>")) 0 true;
                    [txt "adlad.html"] := Regular (Some (txt "<p>")) 1 false ]}
                 3 [] in
  ∃ w1 w2,
    main w = (w1, inr ()) ∧ main w1 = (w2, inr ()) ∧
    files w2 = files w1 ∧ clock w2 = clock w1 ∧
    stdout w2 =
      stdout w1 ++ [line_banner; line_rule] ++
      ((λ g, match files w !! [g] with
             | Some _ => line_no_change g
             | None => line_not_found g
             end) <$> gallery_files) ++
      [line_rule; line_summary 0; line_faster; line_lightbox].
Proof.
  intros w. apply (main_twice w).
  - intros g Hg. unfold gallery_files in Hg.
    repeat (apply elem_of_cons in Hg as [->|Hg]; [by vm_compute|]).
    by apply elem_of_nil in Hg.
  - intros g t mt wr Hg Hw. unfold gallery_files in Hg.
    repeat (apply elem_of_cons in Hg as [->|Hg];
            [vm_compute in Hw; try discriminate;
             injection Hw as <- _ _; compute_done|]).
    by apply elem_of_nil in Hg.
Defined.

Lemma main_loop_app l1 l2 n w :
  main_loop (l1 ++ l2) n w =
  match main_loop l1 n w with
  | (w1, inr n1) => main_loop l2 n1 w1
  | (w1, inl e) => (w1, inl e)
  end.
Proof.
  revert n w; induction l1 as [|f l1 IH]; intros n w; [done|].
  cbn [app]. rewrite !main_loop_cons.
  destruct (files w !! [f]); [|apply IH].
  destruct (update_gallery_html [f] w) as [w1 [e|[]]]; [done|apply IH..].
Qed.

Lemma main_loop_fault f fs n w e :
  fault w f = Some e → main_loop (f :: fs) n w = (w, inl e).
Proof.
  intros Hf. rewrite main_loop_cons, update_unfold. unfold fault in Hf.
  destruct (files w !! [f]) as [[|[t|] mt wr]|]; try done.
  - by simplify_eq.
  - destruct (bool_decide (re_sub t ≠ t)), wr; simpl in Hf; by simplify_eq.
  - by simplify_eq.
Qed.

(** X7.  Nothing is rolled back.  When a configured page raises, [main]
    ends with that exception, and the pages before it stay rewritten: each
    holds the substitution of what it held, written during this run when
    it differs; no other path has changed and no file was created or
    deleted. *)
Theorem main_abort_keeps_earlier_pages w pre f post e :
  gallery_files = pre ++ f :: post →
  (∀ g, g ∈ pre → fault w g = None) → fault w f = Some e →
  ∃ w',
    main w = (w', inl e) ∧ dom (files w') = dom (files w) ∧
    (∀ p, p ∉ (λ g, [g]) <$> pre → files w' !! p = files w !! p) ∧
    (∀ g t mt wr,
       g ∈ pre → files w !! [g] = Some (Regular (Some t) mt wr) →
       (re_sub t = t ∧ files w' !! [g] = files w !! [g]) ∨
       (re_sub t ≠ t ∧ ∃ mt',
          clock w ≤ mt' ∧
          files w' !! [g] = Some (Regular (Some (re_sub t)) mt' true))).
Proof.
  intros Hfiles Hok Hf.
  pose proof gallery_files_NoDup as Hnd. rewrite Hfiles in Hnd.
  apply NoDup_app in Hnd as (Hpre & Hdisj & _).
  destruct (main_loop_files pre 0 (put_line line_rule (put_line line_banner w)) Hpre)
    as (w1 & n1 & Hrun & Hck & Hdom & Hfr & Hpg); [done|].
  cbn [put_line files clock] in *.
  assert (fault w1 f = Some e) as Hf1.
  { destruct (file_agree w w1 f) as (-> & _); [|done].
    apply Hfr. intros (g & [= ->] & Hin)%list_elem_of_fmap.
    apply (Hdisj _ Hin). set_solver. }
  exists w1. split; [|done].
  rewrite main_unfold, Hfiles, main_loop_app, Hrun.
  by rewrite (main_loop_fault f post n1 w1 e Hf1).
Qed.

Lemma main_abort_keeps_earlier_pages_witness :
  let w := World {[ [txt "index.html"] :=
                      Regular (Some (html "<img src='images/a/b.png'>")) 0 true;
                    [txt "headshots.html"] := Directory ]}
                 3 [] in
  ∃ w',
    main w = (w', inl (IsADirectoryError [txt "headshots.html"])) ∧
    dom (files w') = dom (files w) ∧
    (∀ p, p ∉ (λ g, [g]) <$> [txt "index.html"; txt "lifeIsADream.html"] →
          files w' !! p = files w !! p) ∧
    (∀ g t mt wr,
       g ∈ [txt "index.html"; txt "lifeIsADream.html"] →
       files w !! [g] = Some (Regular (Some t) mt wr) →
       (re_sub t = t ∧ files w' !! [g] = files w !! [g]) ∨
       (re_sub t ≠ t ∧ ∃ mt',
          clock w ≤ mt' ∧
          files w' !! [g] = Some (Regular (Some (re_sub t)) mt' true))).
Proof.
  intros w.
  apply (main_abort_keeps_earlier_pages w
           [txt "index.html"; txt "lifeIsADream.html"] (txt "headshots.html")
           [txt "adlad.html"; txt "stupidBird.html"; txt "multiself.html";
            txt "not-sightly.html"]).
  - reflexivity.
  - intros g Hg.
    repeat (apply elem_of_cons in Hg as [->|Hg]; [by vm_compute|]).
    by apply elem_of_nil in Hg.
  - vm_compute. reflexivity.
Defined.

End gallery_more.

(** ** The two scripts together *)

Section both_scripts.
Import Gallery Tag Site Thumbs Batch.

Lemma render_cons x p : p ≠ [] → render (x :: p) = x ++ slash :: render p.
Proof. by destruct p. Qed.

Lemma render_snoc p x : p ≠ [] → render (p ++ [x]) = render p ++ slash :: x.
Proof.
  induction p as [|y p IH]; [done|]. intros _. destruct p as [|z p]; [done|].
  change ((y :: z :: p) ++ [x]) with (y :: (z :: p) ++ [x]).
  rewrite !render_cons by done. rewrite IH by done.
  by rewrite <- app_assoc.
Qed.

Lemma render_no_dq p : p ≠ [] → Forall (λ c, dq ∉ c) p → dq ∉ render p.
Proof.
  induction p as [|y p IH]; [done|]. intros _ [Hy Hp]%Forall_cons.
  destruct p as [|z p]; [done|]. rewrite render_cons by done.
  rewrite elem_of_app, elem_of_cons. intros [?|[?|?]]; [done|done|].
  by apply IH.
Qed.

(** The name of an entry the generator selects is a non-empty stem, a dot,
    and one of the six spellings the pattern of the rewriter lists. *)
Lemma suffix_extension nm :
  suffix nm ∈ extensions →
  ∃ e, e ∈ image_exts ∧ suffix nm = dot :: e ∧ nm = stem nm ++ dot :: e ∧
       stem nm ≠ [].
Proof.
  unfold suffix, stem. intros Hs.
  destruct (rfind_split dot nm) as [[a b]|] eqn:Hr.
  2:{ exfalso. revert Hs. compute_done. }
  apply rfind_split_Some in Hr as [-> _].
  destruct (bool_decide (a ≠ [] ∧ b ≠ [])) eqn:Hab.
  2:{ exfalso. revert Hs. compute_done. }
  apply bool_decide_eq_true in Hab as [Ha Hb].
  exists b. split; [|done].
  unfold extensions in Hs. unfold image_exts.
  repeat (apply elem_of_cons in Hs as [Hs|Hs];
          [injection Hs as ->; compute_done|]).
  by apply elem_of_nil in Hs.
Qed.

(** X8.  The two scripts agree on where a thumbnail is.  For a file
    [nm] that the generator selects in a directory under [images], the
    rewriter replaces the [src] that names this file (in a tag it does not
    skip) by the path, written with slashes, of the very file the generator
    writes for it: [thumbnails/<stem>.jpg] in that directory. *)
Theorem rewritten_src_is_thumbnail_path ds nm rest r :
  suffix nm ∈ extensions → slash ∉ nm →
  Forall (λ c, dq ∉ c) (txt "images" :: ds ++ [nm]) →
  contains (txt "/thumbnails/") (render (txt "images" :: ds ++ [nm])) = false →
  contains (txt "data-fullres=") rest = false → gt ∉ rest →
  re_sub (html "<img src='" ++ render (txt "images" :: ds ++ [nm]) ++
          dq :: rest ++ gt :: r) =
    html "<img src='" ++ render (dest (txt "images" :: ds) nm) ++
    html "' data-fullres='" ++ render (txt "images" :: ds ++ [nm]) ++
    dq :: rest ++
    (if contains (txt "loading=") rest then [] else html " loading='lazy'") ++
    gt :: re_sub r.
Proof.
  intros Hsuf Hsl Hdq Hth Hdf Hgt.
  set (d := txt "images" :: ds).
  change (txt "images" :: ds ++ [nm]) with (d ++ [nm]) in *.
  set (src := render (d ++ [nm])) in *.
  destruct (suffix_extension nm Hsuf) as (e & He & _ & Hnm & Hstem).
  set (d' := match ds with [] => [] | _ => slash :: render ds end).
  assert (render d = txt "images" ++ d') as Hd.
  { unfold d, d'. destruct ds; [by rewrite app_nil_r|by rewrite render_cons]. }
  set (body := match d' with [] => [] | _ :: t => t ++ [slash] end ++ nm).
  assert (src = txt "images/" ++ body) as Hsrc.
  { unfold src. rewrite render_snoc by done. rewrite Hd. unfold body, d'.
    destruct ds; [done|]. by rewrite <- !app_assoc. }
  assert (txt "images/" ++ body =
          (txt "images" ++ d') ++ slash :: stem nm ++ dot :: e) as Hpath.
  { rewrite <- Hsrc. unfold src. rewrite render_snoc by done.
    by rewrite Hd, <- Hnm. }
  assert (dq ∉ src) as Hq by (by apply render_no_dq; [destruct ds|]).
  assert (slash ∉ stem nm) as Hss.
  { intros Hi. apply Hsl. rewrite Hnm. apply elem_of_app. by left. }
  assert (tag_parts [32%N] body e rest) as Hp.
  { split; [done|]. split; [by repeat constructor|]. split; [|split; [|done]].
    - intros Hi. apply Hq. rewrite Hsrc. apply elem_of_app. by right.
    - apply ext_of_Some. split; [done|].
      exists (match d' with [] => [] | _ :: t => t ++ [slash] end ++ stem nm).
      split; [|unfold body; by rewrite Hnm at 1; rewrite <- app_assoc].
      intros Hnil%app_eq_nil. naive_solver. }
  assert (html "<img src='" ++ src ++ dq :: rest ++ gt :: r =
          tag [32%N] body rest ++ r) as ->.
  { rewrite Hsrc. unfold tag. rewrite <- !app_assoc. done. }
  rewrite (re_sub_hit _ _ _ (match_at_tag _ _ _ _ r Hp)).
  rewrite (replace_img_tag _ _ _ _ d' (stem nm)) by done.
  rewrite <- Hsrc, Hth, Hdf. cbn [orb]. unfold rewritten.
  unfold dest, thumbs_of. rewrite <- app_assoc.
  change ([txt "thumbnails"] ++ [stem nm ++ txt ".jpg"])
    with ([txt "thumbnails"; stem nm ++ txt ".jpg"]).
  replace (d ++ [txt "thumbnails"; stem nm ++ txt ".jpg"])
    with ((d ++ [txt "thumbnails"]) ++ [stem nm ++ txt ".jpg"])
    by (by rewrite <- app_assoc).
  rewrite (render_snoc (d ++ _)), (render_snoc d) by done. rewrite Hd, Hsrc.
  repeat (rewrite <- ?app_assoc, <- ?app_comm_cons). reflexivity.
Qed.

Lemma rewritten_src_is_thumbnail_path_witness :
  re_sub (html "<img src='" ++
          render (txt "images" :: [txt "la vida"] ++ [txt "x.y.PNG"]) ++
          dq :: html " alt='x'" ++ gt :: txt "<p>") =
    html "<img src='" ++
    render (dest (txt "images" :: [txt "la vida"]) (txt "x.y.PNG")) ++
    html "' data-fullres='" ++
    render (txt "images" :: [txt "la vida"] ++ [txt "x.y.PNG"]) ++
    dq :: html " alt='x'" ++ html " loading='lazy'" ++ gt :: re_sub (txt "<p>").
Proof.
  apply (rewritten_src_is_thumbnail_path [txt "la vida"] (txt "x.y.PNG")
           (html " alt='x'") (txt "<p>")).
  - compute_done.
  - compute_done.
  - repeat (apply Forall_cons; split; [compute_done|]). by apply Forall_nil.
  - vm_compute. reflexivity.
  - vm_compute. reflexivity.
  - compute_done.
Defined.

End both_scripts.

(** ** The thumbnail generator: sizes and pixels *)

Section arithmetic_more.
Import Thumbs Batch.
Local Open Scope Z_scope.


Lemma blend8_between a bg fg :
  0 ≤ a ≤ 255 → 0 ≤ bg ≤ 255 → 0 ≤ fg ≤ 255 →
  Z.min bg fg ≤ blend8 a bg fg ≤ Z.max bg fg.
Proof.
  intros Ha Hbg Hfg. unfold blend8.
  set (t := bg * (255 - a) + fg * a + 128).
  assert (255 * Z.min bg fg + 128 ≤ t ≤ 255 * Z.max bg fg + 128) as Ht.
  { unfold t. nia. }
  clearbody t. rewrite !Z.shiftr_div_pow2 by lia. change (2 ^ 8) with 256.
  Z.to_euclidean_division_equations. lia.
Qed.

End arithmetic_more.

Section image_more.
Import Thumbs Batch Whole.
Local Open Scope Z_scope.
Context `{Pillow}.

(** After a thumbnail is saved, the source is still there: it is the file
    it was, unless it is the destination itself. *)
Lemma saved_source_lookup (m : gmap path node) src dst nd es d0 s0 es0 :
  m !! src = Some (File d0 s0) → m !! parent dst = Some (Dir es0) →
  (<[dst := nd]> (<[parent dst := Dir es]> m)) !! src =
  Some (if decide (src = dst) then nd else File d0 s0).
Proof.
  intros Hsrc Hpar. destruct (decide (src = dst)) as [->|Hne].
  { apply lookup_insert_eq. }
  rewrite lookup_insert_ne by done. rewrite lookup_insert_ne; [done|].
  intros Heq. rewrite Heq, Hsrc in Hpar. done.
Qed.

(** X9.  [create_thumbnail] never raises.  It returns [True] exactly when
    the source is a file Pillow can decode, the destination is no
    directory, and the directory of the destination is there.  Then the
    destination holds the JPEG file of the prepared image, only the
    destination and the listing of its directory have changed, and the two
    lines of success are printed; the size printed as the original one is
    read after the thumbnail is saved, so it is that of the source unless
    the source is the destination itself.  Otherwise the file system is as
    it was and one line is printed, that of the error. *)
Theorem create_thumbnail_outcome src dst w :
  ∃ w' ok,
    create_thumbnail src dst MAX_SIZE QUALITY w = (w', inr ok) ∧
    ok = match fs w !! src with
         | Some (File (Picture _ _) _) =>
             negb (is_dir (fs w !! dst)) && is_dir (fs w !! parent dst)
         | _ => false
         end ∧
    if ok then
      ∃ fmt img size,
        fs w !! src = Some (File (Picture fmt img) size) ∧
        fs w' !! dst =
          Some (File (Picture JPEG (prepared img))
                     (jpeg_size (prepared img) QUALITY true)) ∧
        (∀ p, p ≠ dst → p ≠ parent dst → fs w' !! p = fs w !! p) ∧
        stdout w' =
          stdout w ++
          [LCreated (name src);
           LSizes (if decide (src = dst)
                   then jpeg_size (prepared img) QUALITY true else size)
                  (jpeg_size (prepared img) QUALITY true)]
    else fs w' = fs w ∧ ∃ e, stdout w' = stdout w ++ [LError src e].
Proof.
  rewrite create_thumbnail_unfold.
  destruct (fs w !! src) as [[?|[fmt img|] sz]|] eqn:Hsrc;
    try by (eexists _, false; split; [done|]; split; [done|]; cbn; eauto).
  destruct (fs w !! dst) as [[?|??]|] eqn:Hdst,
           (fs w !! parent dst) as [[es|??]|] eqn:Hpar;
    try by (eexists _, false; split; [done|]; split; [done|]; cbn; eauto).
  - cbv zeta. rewrite (saved_source_lookup _ _ _ _ _ _ _ _ Hsrc Hpar).
    eexists _, true. split; [done|]. split; [done|].
    exists fmt, img, sz. cbn [fs stdout].
    split; [done|]. split; [by rewrite lookup_insert_eq|]. split.
    + intros p Hp Hp'. by rewrite !lookup_insert_ne.
    + by destruct (decide (src = dst)).
  - cbv zeta. rewrite (saved_source_lookup _ _ _ _ _ _ _ _ Hsrc Hpar).
    eexists _, true. split; [done|]. split; [done|].
    exists fmt, img, sz. cbn [fs stdout].
    split; [done|]. split; [by rewrite lookup_insert_eq|]. split.
    + intros p Hp Hp'. by rewrite !lookup_insert_ne.
    + by destruct (decide (src = dst)).
Qed.


(** X11.  Where an RGBA image is composited on white, every band of a
    pixel lies between the colour of the source and white: transparency
    lightens a pixel and never darkens it. *)
Theorem composite_never_darker img i r g b a :
  im_mode img = RGBA →
  length (im_data img) = Z.to_nat ((im_size img).1 * (im_size img).2) →
  im_data img !! i = Some [r; g; b; a] →
  0 ≤ a ≤ 255 → 0 ≤ r ≤ 255 → 0 ≤ g ≤ 255 → 0 ≤ b ≤ 255 →
  ∃ r' g' b',
    im_data (to_rgb img) !! i = Some [r'; g'; b'] ∧
    r ≤ r' ≤ 255 ∧ g ≤ g' ≤ 255 ∧ b ≤ b' ≤ 255.
Proof.
  intros Hmode Hlen Hpx Ha Hr Hg Hb.
  rewrite (to_rgb_rgba_pixel img i r g b a Hmode Hlen Hpx).
  eexists _, _, _. split; [done|].
  pose proof (blend8_between a 255 r Ha ltac:(lia) Hr).
  pose proof (blend8_between a 255 g Ha ltac:(lia) Hg).
  pose proof (blend8_between a 255 b Ha ltac:(lia) Hb). lia.
Qed.

(** X12.  Whatever the mode of the source, an image with one pixel per
    position and 8-bit values in its bands and palette is brought to an RGB
    image of the same size with, again, one pixel per position and three
    8-bit values in each. *)
Theorem to_rgb_well_formed img :
  well_formed img →
  well_formed (to_rgb img) ∧ im_mode (to_rgb img) = RGB ∧
  im_size (to_rgb img) = im_size img.
Proof.
  intros (Hlen & Hpx & Hpal). split; [|split; [apply to_rgb_mode|apply to_rgb_size]].
  unfold to_rgb. destruct (decide (im_mode img = RGBA)) as [Ha|Ha].
  { rewrite (split_alpha img Ha). unfold paste, image_new, well_formed.
    cbn [im_data im_size im_mode im_palette bands].
    split; [|split; [|done]].
    - rewrite length_zip_with, length_replicate, length_zip_with, length_fmap. lia.
    - apply Forall_lookup. intros i x Hx.
      apply lookup_zip_with_Some in Hx as (bg & [px al] & -> & Hbg & Hsm).
      apply lookup_replicate in Hbg as [-> _].
      apply lookup_zip_with_Some in Hsm as (px' & al' & [= <- <-] & Hpx' & Hal).
      rewrite list_lookup_fmap, Hpx' in Hal. injection Hal as <-.
      rewrite Forall_lookup in Hpx. destruct (Hpx _ _ Hpx') as [Hl Hv].
      rewrite Ha in Hl. cbn [fst snd hd].
      destruct px as [|r [|g [|b [|a [|]]]]]; try done. cbn [nth zip_with].
      apply Forall_cons in Hv as [Hr Hv]. apply Forall_cons in Hv as [Hg Hv].
      apply Forall_cons in Hv as [Hb Hv]. apply Forall_cons in Hv as [Hal _].
      split; [done|].
      pose proof (blend8_between a 255 r Hal ltac:(lia) Hr).
      pose proof (blend8_between a 255 g Hal ltac:(lia) Hg).
      pose proof (blend8_between a 255 b Hal ltac:(lia) Hb).
      repeat (apply Forall_cons; split; [lia|]). by apply Forall_nil. }
  destruct (decide (im_mode img ≠ RGB)) as [Hr|Hr].
  2:{ done. }
  unfold convert_rgb, well_formed. cbn [im_data im_size im_mode im_palette bands].
  split; [by rewrite length_fmap|]. split; [|done].
  apply Forall_fmap. eapply Forall_impl; [exact Hpx|].
  intros px [Hl Hv]. cbn beta.
  destruct (im_mode img) eqn:Hm; try done.
  - destruct px as [|l px]; [done|]. apply Forall_cons in Hv as [Hv _].
    cbn [hd]. split; [done|].
    repeat (apply Forall_cons; split; [done|]). by apply Forall_nil.
  - destruct px as [|l px]; [done|]. apply Forall_cons in Hv as [Hv _].
    cbn [hd]. split; [done|].
    repeat (apply Forall_cons; split; [done|]). by apply Forall_nil.
  - assert (∀ n, let c := nth n (im_palette img) (0, 0, 0) in
                 (0 ≤ c.1.1 ≤ 255 ∧ 0 ≤ c.1.2 ≤ 255) ∧ 0 ≤ c.2 ≤ 255) as Hn.
    { intros n c. unfold c.
      destruct (nth_in_or_default n (im_palette img) (0, 0, 0)) as [Hin| ->].
      - rewrite Forall_forall in Hpal. apply Hpal. by apply list_elem_of_In.
      - cbn. lia. }
    unfold compose. cbn beta iota.
    match goal with
    | |- context [nth ?n (im_palette img) ?c] =>
        specialize (Hn n); cbv zeta in Hn;
        destruct (nth n (im_palette img) c) as [[r g] b]
    end. cbn [fst snd] in Hn.
    split; [reflexivity|].
    repeat (apply Forall_cons; split; [lia|]). by apply Forall_nil.
Qed.

End image_more.

(** ** The thumbnail generator: directories and runs *)

Section generator_runs.
Import Thumbs Batch Whole.
Context `{Pillow}.
Implicit Types (m : gmap path node) (d p : path) (nm : text) (w : world).

Lemma world_eta w : World (fs w) (stdout w) = w.
Proof. by destruct w. Qed.

(** The loop over a listing, exactly. *)
Lemma process_entries_run d entries n w es :
  fs w !! thumbs_of d = Some (Dir es) →
  process_entries d (thumbs_of d) entries n w =
    (World (<[thumbs_of d := Dir (listing_after (writes (fs w) d entries) es)]>
              (after_writes (writes (fs w) d entries) (fs w)))
           (stdout w ++ concat (entry_lines (fs w) d <$> entries)),
     inr (n + length (filter (λ nm, entry_ok (fs w) d nm = true) entries))).
Proof.
  revert n w es; induction entries as [|nm rest IH]; intros n w es Htd.
  { cbn. rewrite insert_id, app_nil_r, Nat.add_0_r, world_eta by done. done. }
  rewrite process_entries_cons. rewrite filter_cons. cbn [fmap list_fmap concat].
  unfold writes. cbn [omap list_omap]. fold (writes (fs w) d rest).
  destruct (selected (fs w) d nm) eqn:Hsel.
  2:{ destruct (entry_unselected _ _ _ Hsel) as (-> & -> & ->).
      rewrite (IH n w es Htd), decide_False by done. done. }
  rewrite (create_thumbnail_entry d nm w es Htd Hsel).
  destruct (entry_result (fs w) d nm) as [e|[out size]] eqn:Hres.
  - destruct (entry_failed _ _ _ _ Hsel Hres) as (-> & -> & ->).
    rewrite (IH n (put_line (LError (d ++ [nm]) e) w) es Htd).
    rewrite decide_False by done. cbn [put_line stdout fs].
    by rewrite <- app_assoc.
  - destruct (entry_made _ _ _ _ _ Hsel Hres) as (-> & -> & ->).
    set (nd := File (Picture JPEG out) (jpeg_size out QUALITY true)).
    set (es1 := add_entry (name (dest d nm)) es).
    set (m1 := <[dest d nm := nd]> (<[thumbs_of d := Dir es1]> (fs w))).
    assert (is_dir (fs w !! dest d nm) = false) as Hnd.
    { unfold entry_result in Hres.
      destruct (fs w !! (d ++ [nm])) as [[?|[??|] ?]|]; try done.
      by destruct (is_dir (fs w !! dest d nm)). }
    pose proof (write_same_view (fs w) d nm (Picture JPEG out, jpeg_size out QUALITY true)
                  es es1 Htd Hnd) as Hview.
    cbn [fst snd] in Hview. fold nd m1 in Hview.
    assert (∀ x, entry_lines m1 d x = entry_lines (fs w) d x ∧
                 entry_ok m1 d x = entry_ok (fs w) d x ∧
                 entry_write m1 d x = entry_write (fs w) d x) as Hsame.
    { intros x. destruct (Hview x). by apply same_view_entry. }
    rewrite (IH _ _ es1).
    2:{ cbn [fs]. unfold m1.
        rewrite lookup_insert_ne by (symmetry; apply thumbs_ne_dest).
        by rewrite lookup_insert_eq. }
    cbn [fs stdout]. fold m1. rewrite decide_True by done.
    replace (writes m1 d rest) with (writes (fs w) d rest).
    2:{ unfold writes. apply omap_agree. intros x.
        by destruct (Hsame x) as (_ & _ & ->). }
    f_equal; [f_equal|].
    + cbn [listing_after foldl fst]. fold (listing_after (writes (fs w) d rest) es1).
      apply map_eq. intros p. destruct (decide (p = thumbs_of d)) as [->|Hp].
      { by rewrite !lookup_insert_eq. }
      rewrite !lookup_insert_ne by done. rewrite after_writes_cons.
      apply after_writes_agree. unfold m1.
      destruct (decide (dest d nm = p)) as [->|Hne].
      * by rewrite !lookup_insert_eq.
      * rewrite !(lookup_insert_ne _ (dest d nm)) by done.
        by rewrite lookup_insert_ne.
    + rewrite <- app_assoc. cbn [app]. do 4 f_equal.
      apply Forall_fmap_ext, Forall_forall. intros x _.
      by destruct (Hsame x) as (-> & _).
    + f_equal. cbn [length].
      replace (filter (λ x : text, entry_ok m1 d x = true) rest)
        with (filter (λ x : text, entry_ok (fs w) d x = true) rest); [lia|].
      apply filter_agree. intros x _. by destruct (Hsame x) as (_ & -> & _).
Qed.

(** A directory whose thumbnails directory exists or can be made: the run,
    exactly. *)
Lemma process_directory_run d w entries :
  fs w !! d = Some (Dir entries) →
  is_regular (fs w !! thumbs_of d) = false →
  process_directory d w =
    (World (fs_after (fs w) d entries) (stdout w ++ dir_lines (fs w) d), inr ()).
Proof.
  intros Hd Htd. rewrite process_directory_unfold, Hd.
  unfold fs_after, made_dir, old_listing, dir_lines. rewrite Hd.
  unfold mkdir_exist_ok, iterdir. rewrite parent_thumbs, Hd.
  destruct (fs w !! thumbs_of d) as [[es|??]|] eqn:Ht; [|done|].
  - cbn zeta. cbn [put_line fs]. rewrite Hd.
    rewrite (process_entries_run d entries 0 _ es) by done.
    unfold put_line. cbn [stdout fs]. by rewrite <- !app_assoc.
  - cbn zeta. cbn [put_line fs stdout].
    rewrite lookup_insert_ne by apply thumbs_ne. rewrite lookup_insert_eq.
    rewrite name_thumbs.
    set (l := add_entry (txt "thumbnails") entries).
    set (m1 := <[thumbs_of d := Dir []]> (<[d := Dir l]> (fs w))).
    rewrite (process_entries_run d l 0 _ []) by apply lookup_insert_eq.
    cbn [put_line fs stdout]. fold m1.
    pose proof (mkdir_same_view (fs w) d l Ht) as Hview.
    cbn zeta in Hview. fold m1 in Hview.
    assert (concat (entry_lines m1 d <$> l) = concat (entry_lines (fs w) d <$> entries) ∧
            filter (λ nm, entry_ok m1 d nm = true) l =
              filter (λ nm, entry_ok (fs w) d nm = true) entries ∧
            writes m1 d l = writes (fs w) d entries) as (Hl & Hf & Hw).
    { unfold l.
      destruct (add_entry_thumbnails m1 d entries) as (-> & -> & ->).
      split; [|split].
      - f_equal. apply Forall_fmap_ext, Forall_forall. intros x _.
        by destruct (Hview x) as (-> & _).
      - apply filter_agree. intros x _. by destruct (Hview x) as (_ & -> & _).
      - apply omap_agree. intros x. by destruct (Hview x) as (_ & _ & ->). }
    unfold put_line. cbn [stdout fs]. rewrite Hl, Hf, Hw, <- !app_assoc. done.
Qed.

Lemma parent_entry d nm : parent (d ++ [nm]) = d.
Proof. unfold parent. apply removelast_last. Qed.

Lemma parent_is_thumbs p d : parent p = thumbs_of d → ∃ x, p = thumbs_of d ++ [x].
Proof.
  unfold parent. intros Hp. destruct (decide (p = [])) as [->|Hne].
  { exfalso. symmetry in Hp. by apply app_eq_nil in Hp as [_ ?]. }
  exists (List.last p []). rewrite <- Hp.
  by apply app_removelast_last.
Qed.

Lemma written_parent m d entries p nd :
  (p, nd) ∈ writes m d entries → parent p = thumbs_of d.
Proof.
  intros (nm & out & size & _ & _ & -> & _)%writes_elem. apply parent_dest.
Qed.

Lemma made_dir_other m d entries p :
  p ≠ d → p ≠ thumbs_of d → made_dir m d entries !! p = m !! p.
Proof.
  intros Hd Ht. unfold made_dir. destruct (m !! thumbs_of d); [done|].
  by rewrite !lookup_insert_ne.
Qed.

(** What [process_directory] leaves untouched. *)
Lemma fs_after_frame m d entries p :
  p ≠ d → p ≠ thumbs_of d → parent p ≠ thumbs_of d →
  fs_after m d entries !! p = m !! p.
Proof.
  intros Hd Ht Hp. unfold fs_after. rewrite lookup_insert_ne by done.
  rewrite after_writes_other.
  - by apply made_dir_other.
  - intros nd Hin. by apply written_parent in Hin.
Qed.

Lemma fs_after_thumbs m d entries :
  fs_after m d entries !! thumbs_of d =
  Some (Dir (listing_after (writes m d entries) (old_listing m d))).
Proof. unfold fs_after. apply lookup_insert_eq. Qed.

Lemma fs_after_dir m d entries :
  m !! d = Some (Dir entries) →
  fs_after m d entries !! d =
  Some (Dir (match m !! thumbs_of d with
             | Some _ => entries
             | None => add_entry (txt "thumbnails") entries
             end)).
Proof.
  intros Hd. unfold fs_after. rewrite lookup_insert_ne by apply thumbs_ne.
  rewrite after_writes_other.
  - unfold made_dir. destruct (m !! thumbs_of d); [done|].
    rewrite lookup_insert_ne by apply thumbs_ne. apply lookup_insert_eq.
  - intros nd (nm & out & size & _ & _ & Hp & _)%writes_elem.
    symmetry in Hp. by apply dest_ne in Hp.
Qed.

(** Inside the thumbnails directory a path is as it was, or holds the JPEG
    file of an entry of which a thumbnail was made. *)
Lemma fs_after_thumbnail m d entries p :
  parent p = thumbs_of d →
  fs_after m d entries !! p = m !! p ∨
  ∃ nm out size,
    nm ∈ entries ∧ entry_ok m d nm = true ∧ p = dest d nm ∧
    entry_result m d nm = inr (out, size) ∧
    fs_after m d entries !! p =
      Some (File (Picture JPEG out) (jpeg_size out QUALITY true)).
Proof.
  intros Hp. destruct (parent_is_thumbs _ _ Hp) as [x ->].
  assert (thumbs_of d ++ [x] ≠ thumbs_of d) as Hne by apply entry_ne.
  assert (thumbs_of d ++ [x] ≠ d) as Hne'.
  { intros Heq%(f_equal length). unfold thumbs_of in Heq.
    rewrite !length_app in Heq. simpl in Heq. lia. }
  unfold fs_after. rewrite lookup_insert_ne by done.
  set (ws := writes m d entries).
  destruct (decide (thumbs_of d ++ [x] ∈ ws.*1)) as [Hin|Hout].
  - right. apply list_elem_of_fmap in Hin as ([q nd] & Hq & Hin). cbn in Hq. subst q.
    destruct (after_writes_written ws (made_dir m d entries) _ _ Hin)
      as (nd' & Hin' & ->).
    apply writes_elem in Hin' as (nm & out & size & ? & ? & ? & ? & ->).
    by exists nm, out, size.
  - left. rewrite after_writes_other.
    + by apply made_dir_other.
    + intros nd Hin. apply Hout. apply list_elem_of_fmap. by exists (thumbs_of d ++ [x], nd).
Qed.

Lemma entry_result_made m d nm out size :
  entry_result m d nm = inr (out, size) → is_dir (m !! dest d nm) = false.
Proof.
  unfold entry_result. destruct (m !! (d ++ [nm])) as [[?|[??|] ?]|]; try done.
  by destruct (is_dir (m !! dest d nm)).
Qed.

Lemma thumbs_has d : txt "thumbnails" ∈ thumbs_of d.
Proof. unfold thumbs_of. set_solver. Qed.

Lemma thumbs_inj d d2 : thumbs_of d2 = thumbs_of d → d2 = d.
Proof. unfold thumbs_of. by intros [? _]%app_inj_tail. Qed.

(** A run in [d] leaves the entries of [d], and those of a directory apart
    from it, as they were for the loop. *)
Lemma run_same_view m d entries d2 :
  m !! d = Some (Dir entries) → is_regular (m !! thumbs_of d) = false →
  d2 = d ∨ ((txt "thumbnails" ∉ d2) ∧ (txt "thumbnails" ∉ d)) →
  ∀ nm,
    entry_lines (fs_after m d entries) d2 nm = entry_lines m d2 nm ∧
    entry_ok (fs_after m d entries) d2 nm = entry_ok m d2 nm ∧
    entry_write (fs_after m d entries) d2 nm = entry_write m d2 nm.
Proof.
  intros Hd Htd Hd2 nm. set (m1 := fs_after m d entries).
  assert (d2 ≠ thumbs_of d) as Hd2t.
  { intros ->. destruct Hd2 as [Heq|[Hth _]].
    - by apply thumbs_ne in Heq.
    - apply Hth, thumbs_has. }
  assert (is_regular (m !! (d2 ++ [nm])) = true →
          m1 !! (d2 ++ [nm]) = m !! (d2 ++ [nm])) as Hsrc.
  { intros Hreg. apply fs_after_frame.
    - intros Heq. by rewrite Heq, Hd in Hreg.
    - intros Heq. by rewrite Heq, Htd in Hreg.
    - by rewrite parent_entry. }
  assert (selected m1 d2 nm = selected m d2 nm) as Hsel.
  { unfold selected. destruct (bool_decide (suffix nm ∈ extensions)) eqn:Hs; [|done].
    cbn [andb].
    destruct (decide (d2 ++ [nm] = d)) as [Heq|Hne].
    { unfold m1. by rewrite Heq, (fs_after_dir _ _ _ Hd), Hd. }
    destruct (decide (d2 ++ [nm] = thumbs_of d)) as [Heq|Hne'].
    { apply app_inj_tail in Heq as [_ ->]. done. }
    unfold m1. rewrite fs_after_frame; [done..|]. by rewrite parent_entry. }
  assert (is_dir (m1 !! dest d2 nm) = is_dir (m !! dest d2 nm)) as Hdst.
  { unfold m1. destruct (decide (d2 = d)) as [->|Hne].
    - destruct (fs_after_thumbnail m d entries (dest d nm) (parent_dest d nm))
        as [->|(nm' & out & size & _ & _ & Heq & Hres & ->)]; [done|].
      apply entry_result_made in Hres. by rewrite Heq, Hres.
    - destruct Hd2 as [?|[Hth2 Hth]]; [done|].
      rewrite fs_after_frame; [done|..].
      + intros Heq. apply Hth. rewrite <- Heq. unfold dest.
        apply elem_of_app. left. apply thumbs_has.
      + unfold dest. intros Heq. apply Hth.
        unfold thumbs_of in Heq at 2. apply app_inj_tail in Heq as [<- _].
        apply thumbs_has.
      + rewrite parent_dest. by intros ?%thumbs_inj. }
  unfold entry_lines, entry_ok, entry_write. rewrite Hsel.
  destruct (selected m d2 nm) eqn:Hs; [|done].
  assert (entry_result m1 d2 nm = entry_result m d2 nm) as ->; [|done].
  apply andb_true_iff in Hs as [_ Hreg].
  unfold entry_result. by rewrite Hdst, (Hsrc Hreg).
Qed.

Lemma dir_lines_agree m m' d :
  m' !! d = m !! d →
  (∀ nm, entry_lines m' d nm = entry_lines m d nm ∧
         entry_ok m' d nm = entry_ok m d nm ∧
         entry_write m' d nm = entry_write m d nm) →
  dir_lines m' d = dir_lines m d.
Proof.
  intros Hd Hview. unfold dir_lines. rewrite Hd.
  destruct (m !! d) as [[entries|]|]; [|done..].
  replace (entry_lines m' d <$> entries) with (entry_lines m d <$> entries).
  2:{ apply Forall_fmap_ext, Forall_forall. intros x _.
      by destruct (Hview x) as (-> & _). }
  replace (filter (λ nm : text, entry_ok m' d nm = true) entries)
    with (filter (λ nm : text, entry_ok m d nm = true) entries); [done|].
  apply filter_agree. intros x _. by destruct (Hview x) as (_ & -> & _).
Qed.

Lemma add_entry_elem x y (es : list text) : x ∈ es → x ∈ add_entry y es.
Proof. unfold add_entry. destruct (bool_decide _); set_solver. Qed.

Lemma add_entry_new y (es : list text) : y ∈ add_entry y es.
Proof.
  unfold add_entry. destruct (bool_decide _) eqn:Hy; [|set_solver].
  by apply bool_decide_eq_true in Hy.
Qed.

Lemma add_entry_id y (es : list text) : y ∈ es → add_entry y es = es.
Proof. intros Hy. unfold add_entry. by rewrite bool_decide_eq_true_2. Qed.

Lemma listing_after_elem ws es x : x ∈ es → x ∈ listing_after ws es.
Proof.
  revert es; induction ws as [|[q nd] ws IH]; intros es Hx; [done|].
  apply IH. by apply add_entry_elem.
Qed.

Lemma listing_after_names ws es p nd :
  (p, nd) ∈ ws → name p ∈ listing_after ws es.
Proof.
  revert es; induction ws as [|[q x] ws IH]; intros es Hin.
  { by apply elem_of_nil in Hin. }
  apply elem_of_cons in Hin as [[= <- <-]|Hin].
  - change (listing_after ((p, nd) :: ws) es)
      with (listing_after ws (add_entry (name p) es)).
    apply listing_after_elem, add_entry_new.
  - by apply IH.
Qed.

Lemma listing_after_id ws es :
  (∀ p nd, (p, nd) ∈ ws → name p ∈ es) → listing_after ws es = es.
Proof.
  revert es; induction ws as [|[q x] ws IH]; intros es Hin; [done|].
  cbn [listing_after foldl fst]. rewrite add_entry_id by (eapply Hin; left).
  apply IH. intros p nd Hp. eapply Hin. by right.
Qed.

Lemma after_writes_indep ws m m' p nd :
  (p, nd) ∈ ws → after_writes ws m !! p = after_writes ws m' !! p.
Proof.
  revert m m'; induction ws as [|[q x] ws IH]; intros m m' Hin.
  { by apply elem_of_nil in Hin. }
  rewrite !after_writes_cons. destruct (decide (q = p)) as [->|Hne].
  - apply after_writes_agree. by rewrite !lookup_insert_eq.
  - apply IH. apply elem_of_cons in Hin as [[= ? ?]|Hin]; [congruence|done].
Qed.

Lemma after_writes_twice ws m p :
  after_writes ws (after_writes ws m) !! p = after_writes ws m !! p.
Proof.
  destruct (decide (p ∈ ws.*1)) as [Hin|Hout].
  - apply list_elem_of_fmap in Hin as ([q nd] & Hq & Hin). cbn in Hq. subst q.
    by apply (after_writes_indep _ _ _ _ nd).
  - apply after_writes_other. intros nd Hin. apply Hout.
    apply list_elem_of_fmap. by exists (p, nd).
Qed.

(** The file system a run leaves is one a second run leaves as it is. *)
Lemma fs_after_again m d entries :
  m !! d = Some (Dir entries) → is_regular (m !! thumbs_of d) = false →
  ∃ entries1,
    fs_after m d entries !! d = Some (Dir entries1) ∧
    is_regular (fs_after m d entries !! thumbs_of d) = false ∧
    fs_after (fs_after m d entries) d entries1 = fs_after m d entries ∧
    dir_lines (fs_after m d entries) d = dir_lines m d.
Proof.
  intros Hd Htd. set (m1 := fs_after m d entries).
  pose proof (fs_after_dir _ _ _ Hd) as Hd1. fold m1 in Hd1.
  pose proof (fs_after_thumbs m d entries) as Ht1. fold m1 in Ht1.
  pose proof (run_same_view m d entries d Hd Htd (or_introl eq_refl)) as Hview.
  fold m1 in Hview.
  set (entries1 := match m !! thumbs_of d with
                   | Some _ => entries
                   | None => add_entry (txt "thumbnails") entries
                   end) in *.
  assert (concat (entry_lines m d <$> entries1) = concat (entry_lines m d <$> entries) ∧
          filter (λ nm, entry_ok m d nm = true) entries1 =
            filter (λ nm, entry_ok m d nm = true) entries ∧
          writes m d entries1 = writes m d entries) as (Hl & Hf & Hw).
  { unfold entries1. destruct (m !! thumbs_of d); [done|].
    apply add_entry_thumbnails. }
  exists entries1. split; [done|]. split; [by rewrite Ht1|]. split.
  - assert (writes m1 d entries1 = writes m d entries) as Hws.
    { rewrite <- Hw. apply omap_agree. intros x.
      by destruct (Hview x) as (_ & _ & ->). }
    unfold fs_after at 1. cbv zeta. rewrite Hws.
    unfold made_dir, old_listing. rewrite Ht1.
    set (ws := writes m d entries) in *.
    rewrite listing_after_id by (intros p nd Hp; by eapply listing_after_names).
    apply map_eq. intros p. destruct (decide (p = thumbs_of d)) as [->|Hp].
    { by rewrite lookup_insert_eq, Ht1. }
    rewrite lookup_insert_ne by done. unfold m1, fs_after. cbv zeta. fold ws.
    rewrite lookup_insert_ne by done.
    rewrite <- (after_writes_twice ws (made_dir m d entries) p).
    apply after_writes_agree. by rewrite lookup_insert_ne.
  - unfold dir_lines. rewrite Hd1, Hd, <- Hl, <- Hf.
    replace (entry_lines m1 d <$> entries1) with (entry_lines m d <$> entries1).
    2:{ apply Forall_fmap_ext, Forall_forall. intros x _.
        by destruct (Hview x) as (-> & _). }
    replace (filter (λ nm : text, entry_ok m1 d nm = true) entries1)
      with (filter (λ nm : text, entry_ok m d nm = true) entries1); [done|].
    apply filter_agree. intros x _. by destruct (Hview x) as (_ & -> & _).
Qed.

Lemma dirs_loop_skip d rest n w :
  fs w !! d = None → main_loop (d :: rest) n w = main_loop rest n w.
Proof.
  intros Hd. cbn [main_loop]. unfold mbind, M_bind, exists_.
  rewrite bool_decide_eq_false_2; [done|]. rewrite Hd. by intros [??].
Qed.

Lemma dirs_loop_raises d rest n w w' e :
  is_Some (fs w !! d) → process_directory d w = (w', inl e) →
  main_loop (d :: rest) n w = (w', inl e).
Proof.
  intros Hd Hrun. cbn [main_loop]. unfold mbind, M_bind, exists_.
  by rewrite bool_decide_eq_true_2, Hrun by done.
Qed.

Lemma dirs_loop_app l1 l2 n w :
  main_loop (l1 ++ l2) n w =
  match main_loop l1 n w with
  | (w1, inr n1) => main_loop l2 n1 w1
  | (w1, inl e) => (w1, inl e)
  end.
Proof.
  revert n w; induction l1 as [|d l1 IH]; intros n w; [done|].
  cbn [app main_loop]. unfold mbind, M_bind, exists_.
  destruct (bool_decide (is_Some (fs w !! d))); [|apply IH].
  destruct (process_directory d w) as [w1 [e|[]]]; [done|]. apply IH.
Qed.

Lemma generator_main_unfold w :
  main w =
  match main_loop IMAGE_DIRS 0 (put_line LRule (put_line LBanner w)) with
  | (w1, inr total) =>
      (put_line (LNextSteps 3) (put_line (LNextSteps 2) (put_line (LNextSteps 1)
         (put_line (LNextSteps 0) (put_line (LComplete total)
            (put_line LEndRule w1))))), inr ())
  | (w1, inl e) => (w1, inl e)
  end.
Proof.
  unfold main, mbind, M_bind, print, put_line. cbn [fs stdout].
  by destruct (main_loop IMAGE_DIRS 0 _) as [w1 [e|n]].
Qed.

(** A run in [d] leaves a directory apart from it as it was. *)
Lemma run_other_dir m d entries d2 :
  m !! d = Some (Dir entries) → is_regular (m !! thumbs_of d) = false →
  d2 ≠ d → txt "thumbnails" ∉ d2 → txt "thumbnails" ∉ d →
  fs_after m d entries !! d2 = m !! d2 ∧
  fs_after m d entries !! thumbs_of d2 = m !! thumbs_of d2 ∧
  dir_lines (fs_after m d entries) d2 = dir_lines m d2.
Proof.
  intros Hd Htd Hne Hth2 Hth.
  assert (fs_after m d entries !! d2 = m !! d2) as Hd2.
  { apply fs_after_frame; [done|..].
    - intros ->. apply Hth2, thumbs_has.
    - intros [x ->]%parent_is_thumbs. apply Hth2.
      apply elem_of_app. left. apply thumbs_has. }
  split; [done|]. split.
  - apply fs_after_frame.
    + intros <-. apply Hth, thumbs_has.
    + by intros ?%thumbs_inj.
    + rewrite parent_thumbs. intros ->. apply Hth2, thumbs_has.
  - apply dir_lines_agree; [done|]. apply run_same_view; auto.
Qed.

(** The loop of [main], when it gets through every directory. *)
Lemma dirs_loop_run ds n w :
  NoDup ds → Forall (λ d, txt "thumbnails" ∉ d) ds →
  Forall (λ d, ready (fs w) d = true) ds →
  ∃ w',
    main_loop ds n w =
      (w', inr (n + length (filter (λ d, is_Some (fs w !! d)) ds))) ∧
    stdout w' = stdout w ++ concat (dir_lines (fs w) <$> ds).
Proof.
  revert n w; induction ds as [|d ds IH]; intros n w Hnd Hth Hready.
  { exists w. cbn. by rewrite Nat.add_0_r, app_nil_r. }
  apply NoDup_cons in Hnd as [Hd Hnd]. apply Forall_cons in Hth as [Hthd Hth].
  apply Forall_cons in Hready as [Hrd Hready].
  rewrite filter_cons. cbn [fmap list_fmap concat].
  unfold ready in Hrd. unfold dir_lines at 1.
  destruct (fs w !! d) as [[entries|]|] eqn:Hfd; [|done|].
  - apply negb_true_iff in Hrd.
    rewrite (dirs_loop_cons d ds n w _ ltac:(by rewrite Hfd)
               (process_directory_run d w entries Hfd Hrd)).
    rewrite decide_True by eauto.
    match goal with |- context [main_loop ds _ ?w1] =>
      destruct (IH (S n) w1) as (w' & -> & Hout) end; [done|done|..].
    { cbn [fs]. eapply Forall_impl.
      - apply Forall_and. split; [exact Hready|]. apply Forall_and.
        split; [exact Hth|]. apply Forall_forall. intros x Hx. exact Hx.
      - intros d2 (Hr & Hth2 & Hin). cbv beta in *.
        destruct (run_other_dir (fs w) d entries d2) as (Hd2 & Htd2 & _);
          [done..|by intros ->|done|done|].
        unfold ready. by rewrite Hd2, Htd2. }
    assert (∀ d2, d2 ∈ ds →
              fs_after (fs w) d entries !! d2 = fs w !! d2 ∧
              dir_lines (fs_after (fs w) d entries) d2 = dir_lines (fs w) d2)
      as Hsame.
    { intros d2 Hin. rewrite Forall_forall in Hth.
      destruct (run_other_dir (fs w) d entries d2) as (Hd2 & _ & Hl);
        [done..|by intros ->|by apply Hth|done|done]. }
    exists w'. cbn [fs stdout] in *. split.
    + do 2 f_equal. cbn [length].
      replace (filter (λ d0 : path, is_Some (fs_after (fs w) d entries !! d0)) ds)
        with (filter (λ d0 : path, is_Some (fs w !! d0)) ds); [lia|].
      apply filter_agree. intros x Hx. by destruct (Hsame x Hx) as [-> _].
    + rewrite Hout. unfold dir_lines at 1. rewrite Hfd, <- !app_assoc.
      do 4 f_equal.
      replace (dir_lines (fs_after (fs w) d entries) <$> ds)
        with (dir_lines (fs w) <$> ds); [done|].
      apply Forall_fmap_ext, Forall_forall. intros x Hx.
      by destruct (Hsame x Hx) as [_ ->].
  - rewrite (dirs_loop_skip d ds n w Hfd).
    destruct (IH n w Hnd Hth Hready) as (w' & -> & Hout).
    exists w'. rewrite decide_False by (by intros [??]). done.
Qed.

(** X13.  The name of an entry the loop of [process_directory] takes up is
    its stem followed by one of the six extensions, the stem is not empty,
    the entry is a regular file, and its thumbnail goes to
    [thumbnails/<stem>.jpg]: only the last extension of the name is
    replaced. *)
Theorem selected_name_shape m d nm :
  selected m d nm = true →
  ∃ e, e ∈ extensions ∧ nm = stem nm ++ e ∧ stem nm ≠ [] ∧
       is_regular (m !! (d ++ [nm])) = true ∧
       dest d nm = d ++ [txt "thumbnails"; stem nm ++ txt ".jpg"].
Proof.
  intros [Hs Hr]%andb_true_iff. apply bool_decide_eq_true in Hs.
  destruct (suffix_extension nm Hs) as (e & _ & Hsuf & Hnm & Hst).
  exists (dot :: e). rewrite <- Hsuf. split; [done|]. rewrite Hsuf.
  split; [done|]. split; [done|]. split; [done|].
  unfold dest, thumbs_of. by rewrite <- app_assoc.
Qed.

(** X14.  What a run of [process_directory] touches.  Outside the
    directory [thumbnails] nothing changes but the two listings: every
    entry of the directory, source images included, is as it was, and so is
    everything in other directories and in subdirectories.  A path inside
    [thumbnails] is as it was or holds the JPEG file of a selected entry.
    Nothing is deleted. *)
Theorem process_directory_frame d w entries :
  fs w !! d = Some (Dir entries) →
  is_regular (fs w !! thumbs_of d) = false →
  ∃ w',
    process_directory d w = (w', inr ()) ∧
    (∀ p, p ≠ d → p ≠ thumbs_of d → parent p ≠ thumbs_of d →
          fs w' !! p = fs w !! p) ∧
    (∀ nm, nm ≠ txt "thumbnails" → fs w' !! (d ++ [nm]) = fs w !! (d ++ [nm])) ∧
    is_dir (fs w' !! d) = true ∧ is_dir (fs w' !! thumbs_of d) = true ∧
    (∀ p, parent p = thumbs_of d →
          fs w' !! p = fs w !! p ∨
          ∃ nm out,
            nm ∈ entries ∧ selected (fs w) d nm = true ∧ p = dest d nm ∧
            fs w' !! p =
              Some (File (Picture JPEG out) (jpeg_size out QUALITY true))) ∧
    (∀ p, is_Some (fs w !! p) → is_Some (fs w' !! p)).
Proof.
  intros Hd Htd. eexists. split; [by apply process_directory_run|].
  cbn [fs].
  assert (∀ p, parent p = thumbs_of d →
            fs_after (fs w) d entries !! p = fs w !! p ∨
            ∃ nm out,
              nm ∈ entries ∧ selected (fs w) d nm = true ∧ p = dest d nm ∧
              fs_after (fs w) d entries !! p =
                Some (File (Picture JPEG out) (jpeg_size out QUALITY true)))
    as Hin.
  { intros p Hp.
    destruct (fs_after_thumbnail (fs w) d entries p Hp)
      as [?|(nm & out & size & ? & Hok & ? & ? & ?)]; [by left|right].
    exists nm, out. apply andb_true_iff in Hok as [? _]. done. }
  split; [by intros p ???; apply fs_after_frame|]. split; [|split; [|split; [|split]]].
  - intros nm Hnm. apply fs_after_frame.
    + apply entry_ne.
    + unfold thumbs_of. by intros [_ ?]%app_inj_tail.
    + rewrite parent_entry. intros Heq. symmetry in Heq. by apply thumbs_ne in Heq.
  - by rewrite (fs_after_dir _ _ _ Hd).
  - by rewrite fs_after_thumbs.
  - done.
  - intros p Hp. destruct (decide (p = d)) as [->|Hpd].
    { rewrite (fs_after_dir _ _ _ Hd). eauto. }
    destruct (decide (p = thumbs_of d)) as [->|Hpt].
    { rewrite fs_after_thumbs. eauto. }
    destruct (decide (parent p = thumbs_of d)) as [Hpp|Hpp].
    + destruct (Hin p Hpp) as [->|(? & ? & _ & _ & _ & ->)]; eauto.
    + by rewrite fs_after_frame.
Qed.

(** X15.  A second run of [process_directory] right after a first one
    returns too, prints the same lines again, and leaves the file system
    exactly as the first run left it: the thumbnails are written anew with
    the same content, and the thumbnails directory and what it holds are
    not taken for sources. *)
Theorem process_directory_twice d w entries :
  fs w !! d = Some (Dir entries) →
  is_regular (fs w !! thumbs_of d) = false →
  ∃ w1 w2 out,
    process_directory d w = (w1, inr ()) ∧ stdout w1 = stdout w ++ out ∧
    process_directory d w1 = (w2, inr ()) ∧ fs w2 = fs w1 ∧
    stdout w2 = stdout w1 ++ out.
Proof.
  intros Hd Htd.
  destruct (fs_after_again (fs w) d entries Hd Htd)
    as (entries1 & Hd1 & Htd1 & Hfs & Hlines).
  eexists _, _, (dir_lines (fs w) d).
  split; [by apply process_directory_run|]. cbn [fs stdout].
  split; [done|].
  split; [by apply (process_directory_run d _ entries1)|]. cbn [fs stdout].
  by rewrite Hfs, Hlines.
Qed.

(** X16.  When [thumbnails] in a configured directory that exists is a
    regular file, [mkdir] raises outside the handler of
    [create_thumbnail]: the exception leaves [process_directory] and
    [main], the directories after this one are not processed and no
    summary is printed.  The handler of the script prints the error, and
    the script returns. *)
Theorem thumbnails_file_aborts_batch w pre d post w1 n nd dt sz :
  IMAGE_DIRS = pre ++ d :: post →
  main_loop pre 0 (put_line LRule (put_line LBanner w)) = (w1, inr n) →
  fs w1 !! d = Some nd → fs w1 !! thumbs_of d = Some (File dt sz) →
  process_directory d w1 = (w1, inl (FileExistsError (thumbs_of d))) ∧
  main w = (w1, inl (FileExistsError (thumbs_of d))) ∧
  script w = (put_line (LFatal (FileExistsError (thumbs_of d))) w1, inr ()).
Proof.
  intros Hdirs Hpre Hd Htd.
  assert (process_directory d w1 = (w1, inl (FileExistsError (thumbs_of d))))
    as Hrun.
  { rewrite process_directory_unfold, Hd. unfold mkdir_exist_ok. by rewrite Htd. }
  assert (main w = (w1, inl (FileExistsError (thumbs_of d)))) as Hmain.
  { rewrite generator_main_unfold, Hdirs, dirs_loop_app, Hpre.
    by rewrite (dirs_loop_raises d post n w1 w1 (FileExistsError (thumbs_of d)))
      by eauto. }
  split; [done|]. split; [done|].
  unfold script, try_except. by rewrite Hmain.
Qed.

(** X17.  When every configured directory is missing, or is a directory in
    which [thumbnails] is no regular file, the script returns and prints
    the banner, the block of each configured directory that exists, in the
    order of [IMAGE_DIRS] and with the lines its entries give in the file
    system the run started from, and then the summary with the number of
    configured directories that exist. *)
Theorem script_outcome w :
  Forall (λ d, ready (fs w) d = true) IMAGE_DIRS →
  ∃ w',
    script w = (w', inr ()) ∧
    stdout w' =
      stdout w ++ [LBanner; LRule] ++
      concat (dir_lines (fs w) <$> IMAGE_DIRS) ++
      [LEndRule;
       LComplete (length (filter (λ d, is_Some (fs w !! d)) IMAGE_DIRS));
       LNextSteps 0; LNextSteps 1; LNextSteps 2; LNextSteps 3].
Proof.
  intros Hready.
  destruct (dirs_loop_run IMAGE_DIRS 0 (put_line LRule (put_line LBanner w)))
    as (w1 & Hrun & Hout); [compute_done|compute_done|done|].
  unfold script, try_except. rewrite generator_main_unfold, Hrun.
  eexists. split; [done|]. unfold put_line in *. cbn [fs stdout] in *.
  rewrite Hout, <- !app_assoc. done.
Qed.

End generator_runs.


Lemma composite_never_darker_witness :
  let img := Thumbs.Image Thumbs.RGBA (1, 1)%Z [[10; 20; 30; 128]%Z] [] in
  ∃ r' g' b',
    Thumbs.im_data (Thumbs.to_rgb img) !! 0 = Some [r'; g'; b'] ∧
    (10 ≤ r' ≤ 255)%Z ∧ (20 ≤ g' ≤ 255)%Z ∧ (30 ≤ b' ≤ 255)%Z.
Proof.
  intros img.
  apply (composite_never_darker img 0 10 20 30 128); first [reflexivity | lia].
Defined.

Lemma to_rgb_well_formed_witness :
  let img := Batch.demo_png in
  Whole.well_formed (Thumbs.to_rgb img) ∧
  Thumbs.im_mode (Thumbs.to_rgb img) = Thumbs.RGB ∧
  Thumbs.im_size (Thumbs.to_rgb img) = Thumbs.im_size img.
Proof.
  intros img. apply (to_rgb_well_formed img). compute_done.
Defined.

Lemma selected_name_shape_witness :
  let m := Thumbs.fs Batch.demo_world in
  let d := Batch.demo_dir in
  ∃ e, e ∈ Thumbs.extensions ∧
       txt "x.a.png" = Thumbs.stem (txt "x.a.png") ++ e ∧
       Thumbs.stem (txt "x.a.png") ≠ [] ∧
       Batch.is_regular
         (<[d ++ [txt "x.a.png"] := Thumbs.File Thumbs.Corrupt 1]> m
            !! (d ++ [txt "x.a.png"])) = true ∧
       Batch.dest d (txt "x.a.png") =
         d ++ [txt "thumbnails"; Thumbs.stem (txt "x.a.png") ++ txt ".jpg"].
Proof.
  intros m d.
  apply (selected_name_shape
           (<[d ++ [txt "x.a.png"] := Thumbs.File Thumbs.Corrupt 1]> m) d
           (txt "x.a.png")).
  vm_compute. reflexivity.
Defined.

Lemma process_directory_frame_witness :
  let H := Batch.flat_codec in
  let w := Batch.demo_world in let d := Batch.demo_dir in
  let entries := [txt "a.png"; txt "bad.jpg"; txt "a.jpg"; txt "notes.txt"] in
  ∃ w',
    Thumbs.process_directory d w = (w', inr ()) ∧
    (∀ p, p ≠ d → p ≠ Batch.thumbs_of d →
          Thumbs.parent p ≠ Batch.thumbs_of d →
          Thumbs.fs w' !! p = Thumbs.fs w !! p) ∧
    (∀ nm, nm ≠ txt "thumbnails" →
           Thumbs.fs w' !! (d ++ [nm]) = Thumbs.fs w !! (d ++ [nm])) ∧
    Batch.is_dir (Thumbs.fs w' !! d) = true ∧
    Batch.is_dir (Thumbs.fs w' !! Batch.thumbs_of d) = true ∧
    (∀ p, Thumbs.parent p = Batch.thumbs_of d →
          Thumbs.fs w' !! p = Thumbs.fs w !! p ∨
          ∃ nm out,
            nm ∈ entries ∧ Batch.selected (Thumbs.fs w) d nm = true ∧
            p = Batch.dest d nm ∧
            Thumbs.fs w' !! p =
              Some (Thumbs.File (Thumbs.Picture Thumbs.JPEG out)
                      (Thumbs.jpeg_size out Thumbs.QUALITY true))) ∧
    (∀ p, is_Some (Thumbs.fs w !! p) → is_Some (Thumbs.fs w' !! p)).
Proof.
  intros H w d entries.
  apply (process_directory_frame d w entries); vm_compute; reflexivity.
Defined.

Lemma process_directory_twice_witness :
  let H := Batch.flat_codec in
  let w := Batch.demo_world in let d := Batch.demo_dir in
  ∃ w1 w2 out,
    Thumbs.process_directory d w = (w1, inr ()) ∧
    Thumbs.stdout w1 = Thumbs.stdout w ++ out ∧
    Thumbs.process_directory d w1 = (w2, inr ()) ∧
    Thumbs.fs w2 = Thumbs.fs w1 ∧
    Thumbs.stdout w2 = Thumbs.stdout w1 ++ out.
Proof.
  intros H w d.
  apply (process_directory_twice d w
           [txt "a.png"; txt "bad.jpg"; txt "a.jpg"; txt "notes.txt"]);
    vm_compute; reflexivity.
Defined.

Lemma thumbnails_file_aborts_batch_witness :
  let H := Batch.flat_codec in
  let d := [txt "images"; txt "adlad"] in
  let w := Thumbs.World
             {[ [txt "images"] := Thumbs.Dir [txt "adlad"; txt "sfb"];
                d := Thumbs.Dir [txt "thumbnails"];
                Batch.thumbs_of d := Thumbs.File Thumbs.Corrupt 1;
                [txt "images"; txt "sfb"] := Thumbs.Dir [] ]} [] in
  let w1 := Batch.put_line Thumbs.LRule (Batch.put_line Thumbs.LBanner w) in
  Thumbs.process_directory d w1 =
    (w1, inl (FileExistsError (Batch.thumbs_of d))) ∧
  Thumbs.main w = (w1, inl (FileExistsError (Batch.thumbs_of d))) ∧
  Thumbs.script w =
    (Batch.put_line (Thumbs.LFatal (FileExistsError (Batch.thumbs_of d))) w1,
     inr ()).
Proof.
  intros H d w w1.
  apply (thumbnails_file_aborts_batch w
           [ [txt "images"; txt "Not Sightly"];
             [txt "images"; txt "la vida"; txt "ben rose la vida"] ]
           d
           [ [txt "images"; txt "Headshots"]; [txt "images"; txt "sfb"];
             [txt "images"; txt "multiself"]; [txt "images"; txt "videos"];
             [txt "images"; txt "la vida"] ]
           w1 0 (Thumbs.Dir [txt "thumbnails"]) Thumbs.Corrupt 1);
    vm_compute; reflexivity.
Defined.

Lemma script_outcome_witness :
  let H := Batch.flat_codec in
  let w := Batch.demo_world in
  ∃ w',
    Thumbs.script w = (w', inr ()) ∧
    Thumbs.stdout w' =
      Thumbs.stdout w ++ [Thumbs.LBanner; Thumbs.LRule] ++
      concat (Whole.dir_lines (Thumbs.fs w) <$> Thumbs.IMAGE_DIRS) ++
      [Thumbs.LEndRule;
       Thumbs.LComplete
         (length (filter (λ d, is_Some (Thumbs.fs w !! d)) Thumbs.IMAGE_DIRS));
       Thumbs.LNextSteps 0; Thumbs.LNextSteps 1; Thumbs.LNextSteps 2;
       Thumbs.LNextSteps 3].
Proof.
  intros H w. apply (script_outcome w).
  repeat (apply Forall_cons; split; [vm_compute; reflexivity|]).
  by apply Forall_nil.
Defined.
